(** * LiteSTL caches: the LRU-K cache (lru_k_cache.h) and the single-history
  LRU cache, embedded from the C++ sources and verified against the
  natural-language specification.

  Both caches keep their entries in heap-allocated nodes that are reached
  through raw pointers held by several containers at once.  The embedding
  therefore keeps an explicit store of nodes ([heap]) and lets the index,
  the ordering structure and the links hold pointers into it. *)

From Stdlib Require Import ZArith NArith List Lia.
From stdpp Require Import base numbers option list gmap sorting strings.

Local Open Scope N_scope.

(** Pointers to heap-allocated nodes. *)
Abbreviation ptr := positive (only parsing).

(** ** Machine integers used by the sources *)

(** [std::numeric_limits<uint64_t>::max()]. *)
Definition UINT64_MAX : N := 18446744073709551615.

(** Conversion of a [size_t] to [int] (modular narrowing to 32 bits, two's
  complement), as performed when [Compare(int k)] receives the [size_t k]
  of the cache constructor. *)
Definition to_int (n : N) : Z :=
let m := (Z.of_N n mod 2 ^ 32)%Z in
if (m <? 2 ^ 31)%Z then m else (m - 2 ^ 32)%Z.

(** Conversion of an [int] to [size_t], the usual arithmetic conversion applied
  when a [size_t] is compared with an [int]. *)
Definition to_size_t (z : Z) : N := Z.to_N (z mod 2 ^ 64)%Z.

(** ** [std::set] over a comparator, as its in-order sequence *)

Section StdSet.
Context {A : Type}.
Variable cmp : A → A → bool.

(** [insert(x)]: the position is the first element not less than [x]; an
    element equivalent to [x] (neither less than the other) blocks the
    insertion. *)
Fixpoint set_insert (x : A) (l : list A) : list A :=
  match l with
  | [] => [x]
  | y :: l' =>
      if cmp y x then y :: set_insert x l'
      else if cmp x y then x :: y :: l'
      else y :: l'
  end.

(** [erase(x)] by key: removes the element equivalent to [x], if any. *)
Fixpoint set_erase (x : A) (l : list A) : list A :=
  match l with
  | [] => []
  | y :: l' =>
      if cmp y x then y :: set_erase x l'
      else if cmp x y then y :: l'
      else l'
  end.
End StdSet.

(** ** The LRU-K cache *)

Module LruK.

(** [std::runtime_error] with its message. *)
Inductive exn : Type := runtime_error (msg : string).

Section Cache.
Context {K V : Type} `{Countable K}.

(** [operator<] of the key type (from its three-way comparison). *)
Variable K_lt : K → K → bool.

Abbreviation timestamp_t := N (only parsing).

Record LRUNode : Type := mkLRUNode {
  key_ : K;
  value_ : V;
  history_ : list timestamp_t;
  is_evictable_ : bool
}.

(** [history_.front()]; calling it on an empty deque is undefined in C++,
    the embedding reads 0 there.  [Compare] reads [front] only of histories
    that have reached its threshold, so the 0 is read only when the
    threshold is 0, on the empty histories of a cache with K = 0.  A cache
    with K >= 1 compares nodes with K recorded accesses only (see [inv]),
    and no theorem below about a cache runs a comparison in a cache with
    K = 0. *)
Definition front (n : LRUNode) : timestamp_t := hd 0 (history_ n).

Definition hsize (n : LRUNode) : N := N.of_nat (length (history_ n)).

(** [Compare::operator()], with [k_] the comparator's [int] field. *)
Definition Compare (k_ : Z) (a b : LRUNode) : bool :=
  if (hsize a <? to_size_t k_) && (hsize b <? to_size_t k_) then
    K_lt (key_ a) (key_ b)
  else if hsize a <? to_size_t k_ then false
  else if hsize b <? to_size_t k_ then true
  else if front a =? front b then K_lt (key_ a) (key_ b)
  else front a <? front b.

(** The comparator as the set applies it, to pointers into the store. *)
Definition Compare_ptr (h : gmap positive LRUNode) (k_ : Z) (a b : ptr) : bool :=
  match h !! a, h !! b with
  | Some na, Some nb => Compare k_ na nb
  | _, _ => false
  end.

(** [std::set<LRUNode*, Compare>]: the comparator object and the elements
    in iteration order. *)
Record eviction_set : Type := mkSet {
  key_comp : Z;
  elems : list positive
}.

Record Cache : Type := mkCache {
  capacity_ : N;
  k_ : N;
  cache_ : gmap K positive;
  eviction_set_ : eviction_set;
  current_timestamp_ : timestamp_t;
  heap : gmap positive LRUNode
}.

Definition with_cache (c : gmap K positive) (s : Cache) : Cache :=
  mkCache (capacity_ s) (k_ s) c (eviction_set_ s) (current_timestamp_ s) (heap s).
Definition with_elems (l : list positive) (s : Cache) : Cache :=
  mkCache (capacity_ s) (k_ s) (cache_ s)
          (mkSet (key_comp (eviction_set_ s)) l) (current_timestamp_ s) (heap s).
Definition with_timestamp (t : timestamp_t) (s : Cache) : Cache :=
  mkCache (capacity_ s) (k_ s) (cache_ s) (eviction_set_ s) t (heap s).
Definition with_heap (h : gmap positive LRUNode) (s : Cache) : Cache :=
  mkCache (capacity_ s) (k_ s) (cache_ s) (eviction_set_ s) (current_timestamp_ s) h.

(** The result of running a member function: it returns, it throws (the
    state reached at the throw stays with the caller), or it dereferences
    a pointer that is not live. *)
Inductive outcome (A : Type) : Type :=
| Normal (a : A) (s : Cache)
| Thrown (e : exn) (s : Cache)
| Undefined.
Arguments Normal {A} a s.
Arguments Thrown {A} e s.
Arguments Undefined {A}.

Definition M (A : Type) : Type := Cache → outcome A.

Definition bind {A B : Type} (m : M A) (f : A → M B) : M B := λ s,
  match m s with
  | Normal a s' => f a s'
  | Thrown e s' => Thrown e s'
  | Undefined => Undefined
  end.

Definition cmp_of (s : Cache) : ptr → ptr → bool :=
  Compare_ptr (heap s) (key_comp (eviction_set_ s)).

(** [ResourceAccess(node)]. *)
Definition ResourceAccess (node : ptr) : M unit := λ s,
  if current_timestamp_ s =? UINT64_MAX then
    Thrown (runtime_error "Timestamp overflow in LRU-K Cache") s
  else
    match heap s !! node with
    | None => Undefined
    | Some n =>
        let s1 :=
          if hsize n =? k_ s
          then with_elems (set_erase (cmp_of s) node (elems (eviction_set_ s))) s
          else s in
        let s2 := with_timestamp (current_timestamp_ s1 + 1) s1 in
        let h1 := history_ n ++ [current_timestamp_ s2] in
        let h2 := if k_ s2 <? N.of_nat (length h1) then tail h1 else h1 in
        let n2 := mkLRUNode (key_ n) (value_ n) h2 (is_evictable_ n) in
        if hsize n2 =? k_ s2 then
          let n3 :=
            if negb (is_evictable_ n2)
            then mkLRUNode (key_ n2) (value_ n2) (history_ n2) true
            else n2 in
          let s3 := with_heap (<[node := n3]> (heap s2)) s2 in
          if is_evictable_ n3
          then Normal () (with_elems (set_insert (cmp_of s3) node (elems (eviction_set_ s3))) s3)
          else Normal () s3
        else Normal () (with_heap (<[node := n2]> (heap s2)) s2)
    end.

(** The loop of [Evict]: [pre] are the elements already passed, [itr] the
    remaining ones from the iterator on. *)
Fixpoint Evict_loop (pre itr : list positive) : M unit := λ s,
  match itr with
  | [] => Normal () s
  | node :: rest =>
      match heap s !! node with
      | None => Undefined
      | Some n =>
          if is_evictable_ n then
            let s1 := with_elems (pre ++ rest) s in
            let s2 := with_cache (delete (key_ n) (cache_ s1)) s1 in
            Normal () (with_heap (delete node (heap s2)) s2)
          else Evict_loop (pre ++ [node]) rest s
      end
  end.

(** [Evict()]. *)
Definition Evict : M unit := λ s,
  if N.of_nat (size (cache_ s)) <? capacity_ s then Normal () s
  else Evict_loop [] (elems (eviction_set_ s)) s.

(** The constructor; its body contains no [throw]. *)
Definition LRU_K_Cache (cache_size k : N) : exn + Cache :=
  inr (mkCache cache_size k ∅ (mkSet (to_int k) []) 0 ∅).

(** [Get(key)]. *)
Definition Get (key : K) : M (option V) := λ s,
  match cache_ s !! key with
  | None => Normal None s
  | Some node =>
      bind (ResourceAccess node) (λ _ s1,
        match heap s1 !! node with
        | Some n => Normal (Some (value_ n)) s1
        | None => Undefined
        end) s
  end.

(** [Put(key, value)]. *)
Definition Put (key : K) (value : V) : M unit := λ s,
  match cache_ s !! key with
  | Some node =>
      bind (ResourceAccess node) (λ _ s1,
        match heap s1 !! node with
        | Some n =>
            let n' := mkLRUNode (key_ n) value (history_ n) (is_evictable_ n) in
            Normal () (with_heap (<[node := n']> (heap s1)) s1)
        | None => Undefined
        end) s
  | None =>
      bind Evict (λ _ s1,
        let node := fresh (dom (heap s1)) in
        let s2 := with_heap (<[node := mkLRUNode key value [] false]> (heap s1)) s1 in
        let s3 := with_cache (<[key := node]> (cache_ s2)) s2 in
        ResourceAccess node s3) s
  end.

(** [Remove(k)]. *)
Definition Remove (k : K) : M bool := λ s,
  match cache_ s !! k with
  | None => Normal false s
  | Some node =>
      match heap s !! node with
      | None => Undefined
      | Some n =>
          let s1 :=
            if (hsize n =? k_ s) && is_evictable_ n
            then with_elems (set_erase (cmp_of s) node (elems (eviction_set_ s))) s
            else s in
          let s2 := with_cache (delete k (cache_ s1)) s1 in
          Normal true (with_heap (delete node (heap s2)) s2)
      end
  end.

(** [contains(key)]. *)
Definition contains (key : K) : M bool := λ s,
  Normal (bool_decide (is_Some (cache_ s !! key))) s.

(** [size()]. *)
Definition size_ (s : Cache) : N := N.of_nat (size (cache_ s)).

(** ** Sequences of calls on the public interface *)

Inductive op : Type :=
| OpGet (key : K)
| OpPut (key : K) (value : V)
| OpRemove (key : K)
| OpContains (key : K)
| OpSize.

(** The state a call leaves behind, whether it returned or threw. *)
Definition final {A : Type} (o : outcome A) : option Cache :=
  match o with
  | Normal _ s => Some s
  | Thrown _ s => Some s
  | Undefined => None
  end.

Definition step (o : op) (s : Cache) : option Cache :=
  match o with
  | OpGet key => final (Get key s)
  | OpPut key value => final (Put key value s)
  | OpRemove key => final (Remove key s)
  | OpContains key => final (contains key s)
  | OpSize => Some s
  end.

(** A caller that goes on after a caught exception. *)
Fixpoint exec (ops : list op) (s : Cache) : option Cache :=
  match ops with
  | [] => Some s
  | o :: rest =>
      match step o s with
      | Some s' => exec rest s'
      | None => None
      end
  end.

(** An indexed entry with K recorded accesses exists. *)
Definition is_full (s : Cache) (p : ptr) : bool :=
  match heap s !! p with
  | Some n => hsize n =? k_ s
  | None => false
  end.

Definition full_entry_exists (s : Cache) : bool :=
  bool_decide (map_Exists (λ _ p, is_full s p = true) (cache_ s)).

(** The proviso of the conditional capacity bound: whenever a new key is put
    while [size()] has reached the capacity, some indexed entry has full
    history. *)
Definition overflow_covered (o : op) (s : Cache) : bool :=
  match o with
  | OpPut key _ =>
      match cache_ s !! key with
      | Some _ => true
      | None => (size_ s <? capacity_ s) || full_entry_exists s
      end
  | _ => true
  end.

Fixpoint covered (ops : list op) (s : Cache) : bool :=
  match ops with
  | [] => true
  | o :: rest =>
      overflow_covered o s &&
      match step o s with
      | Some s' => covered rest s'
      | None => true
      end
  end.

(** ** The representation invariant of a cache with K >= 1 *)

Record inv (s : Cache) : Prop := mkInv {
  inv_k : 1 ≤ k_ s;
  inv_comp : key_comp (eviction_set_ s) = to_int (k_ s);
  inv_index : ∀ key p, cache_ s !! key = Some p →
                ∃ n, heap s !! p = Some n ∧ key_ n = key;
  inv_owned : ∀ p n, heap s !! p = Some n → cache_ s !! key_ n = Some p;
  inv_sorted : StronglySorted (λ a b, cmp_of s a b = true) (elems (eviction_set_ s));
  inv_member : ∀ p, p ∈ elems (eviction_set_ s) ↔
                 ∃ n, heap s !! p = Some n ∧ hsize n = k_ s;
  inv_hist : ∀ p n, heap s !! p = Some n →
               hsize n ≤ k_ s ∧ (hsize n = k_ s → is_evictable_ n = true)
}.

(** Timestamps are handed out in increasing order, so a history lists them
    oldest first and below the clock. *)
Definition clock_ok (s : Cache) : Prop :=
  ∀ p n, heap s !! p = Some n →
    StronglySorted N.lt (history_ n) ∧
    Forall (λ t, 1 ≤ t ≤ current_timestamp_ s) (history_ n).

End Cache.

Arguments Normal {K V _ _ A} a s.
Arguments Thrown {K V _ _ A} e s.
Arguments Undefined {K V _ _ A}.
Arguments LRUNode K V : clear implicits.
Arguments Cache K V {_ _}.
Arguments outcome K V {_ _} A.
Arguments op K V : clear implicits.

End LruK.

(** ** Example inputs for the LRU-K cache, with keys in [N] *)

Module LruKExamples.
Import LruK.

Definition fresh_cache (cap k : N) : Cache N nat :=
  mkCache cap k ∅ (mkSet (to_int k) []) 0 ∅.

Definition after (ops : list (op N nat)) (s : Cache N nat) : Cache N nat :=
  default s (exec N.ltb ops s).

(** Keys 1 and 2 are put twice each (K = 2, capacity 2); a third key follows. *)
Definition two_full_entries : list (op N nat) :=
  [OpPut 1 10%nat; OpPut 1 10%nat; OpPut 2 20%nat; OpPut 2 20%nat].

Definition third_key : list (op N nat) :=
  two_full_entries ++ [OpPut 3 30%nat; OpGet 1; OpGet 3; OpRemove 2; OpContains 3].

(** Three keys seen once each. *)
Definition three_once : list (N * nat) := [(1, 10%nat); (2, 20%nat); (3, 30%nat)].

(** A cache with capacity 1 and K = 1 whose clock has run out: key 1 was
    accessed at every tick. *)
Definition ticked (t : N) : Cache N nat :=
  mkCache 1 1 {[1 := 1%positive]} (mkSet 1 [1%positive]) t
          {[1%positive := mkLRUNode 1 10%nat [t] true]}.

Definition exhausted : Cache N nat := ticked UINT64_MAX.

End LruKExamples.


(** ** Observations on an LRU-K cache and its destructor *)

Module LruKViews.
Import LruK.

Section Views.
Context {K V : Type} `{Countable K}.

(** The value the index holds for a key. *)
Definition value_of (s : Cache K V) (key : K) : option V :=
  node ← cache_ s !! key; n ← heap s !! node; Some (value_ n).

(** The timestamps recorded for a key, oldest first. *)
Definition history_of (s : Cache K V) (key : K) : option (list N) :=
  node ← cache_ s !! key; n ← heap s !! node; Some (history_ n).

(** The window of at most [k] timestamps after one more access at [ts]:
    [push_back], then [pop_front] if the size exceeds [k]. *)
Definition recorded (k ts : N) (h : list N) : list N :=
  if k <? N.of_nat (length (h ++ [ts])) then tail (h ++ [ts]) else h ++ [ts].

(** No timestamp is recorded for two entries. *)
Definition stamps_unique (s : Cache K V) : Prop :=
  ∀ p q n m t, heap s !! p = Some n → heap s !! q = Some m →
    t ∈ history_ n → t ∈ history_ m → p = q.

(** The clock stays within its type, and below the maximum every stored
    entry has at least one recorded access. *)
Definition accessed (s : Cache K V) : Prop :=
  current_timestamp_ s ≤ UINT64_MAX ∧
  (current_timestamp_ s < UINT64_MAX →
   ∀ p n, heap s !! p = Some n → history_ n ≠ []).

(** [delete] applied to each pointer of the list in turn; deleting a pointer
    that is not live is undefined ([None]). *)
Fixpoint delete_all (nodes : list positive) (h : gmap positive (LRUNode K V)) :
    option (gmap positive (LRUNode K V)) :=
  match nodes with
  | [] => Some h
  | node :: rest =>
      match h !! node with
      | Some _ => delete_all rest (delete node h)
      | None => None
      end
  end.

(** [~LRU_K_Cache()]: the node of every index entry is deleted, in the order
    in which the map is iterated; the result is the store left behind. *)
Definition destroy (s : Cache K V) : option (gmap positive (LRUNode K V)) :=
  delete_all (map_to_list (cache_ s)).*2 (heap s).

End Views.
End LruKViews.

(** ** The single-history LRU cache *)

Module Lru.

Section Cache.
Context {K V : Type} `{Countable K}.

(** [Node<K, V>]; a null [next] or [prev] is [None]. *)
Record Node : Type := mkNode {
  key : option K;
  value : option V;
  next : option positive;
  prev : option positive
}.

Definition set_next (p : option positive) (n : Node) : Node :=
  mkNode (key n) (value n) p (prev n).
Definition set_prev (p : option positive) (n : Node) : Node :=
  mkNode (key n) (value n) (next n) p.

Record Cache : Type := mkCache {
  _capacity : Z;
  _cache_mapper : gmap K positive;
  _head : positive;
  _tail : positive;
  heap : gmap positive Node
}.

Definition with_heap (h : gmap positive Node) (s : Cache) : Cache :=
  mkCache (_capacity s) (_cache_mapper s) (_head s) (_tail s) h.
Definition with_mapper (m : gmap K positive) (s : Cache) : Cache :=
  mkCache (_capacity s) m (_head s) (_tail s) (heap s).

(** Member functions run in the option monad: [None] stands for the
    undefined behaviour of dereferencing a null or dangling pointer. *)

(** [link(node1, node2)]: [node1->next = node2; node2->prev = node1]. *)
Definition link (node1 node2 : option positive) (h : gmap positive Node) :
    option (gmap positive Node) :=
  p1 ← node1;
  n1 ← h !! p1;
  let h1 := <[p1 := set_next node2 n1]> h in
  p2 ← node2;
  n2 ← h1 !! p2;
  Some (<[p2 := set_prev node1 n2]> h1).

(** [add(node)]: links the node right behind the head sentinel. *)
Definition add (node : positive) (s : Cache) : option Cache :=
  hd ← heap s !! _head s;
  let head_next := next hd in
  h1 ← link (Some node) head_next (heap s);
  h2 ← link (Some (_head s)) (Some node) h1;
  Some (with_heap h2 s).

(** [remove(node)]: links the neighbours of the node to each other. *)
Definition remove (node : positive) (s : Cache) : option Cache :=
  n ← heap s !! node;
  let prev_node := prev n in
  let next_node := next n in
  h ← link prev_node next_node (heap s);
  Some (with_heap h s).

(** The constructor: two sentinels linked to each other. *)
Definition LRUCache (capacity : Z) : option Cache :=
  let head := fresh (∅ : gset positive) in
  let h0 : gmap positive Node := {[head := mkNode None None None None]} in
  let tail := fresh (dom h0) in
  let h1 := <[tail := mkNode None None None None]> h0 in
  h2 ← link (Some head) (Some tail) h1;
  Some (mkCache capacity ∅ head tail h2).

(** [put(key, value)]. *)
Definition put (k : K) (v : V) (s : Cache) : option Cache :=
  s1 ← match _cache_mapper s !! k with
       | Some old_node =>
           s' ← remove old_node s;
           Some (with_heap (delete old_node (heap s')) s')
       | None => Some s
       end;
  let new_node := fresh (dom (heap s1)) in
  let s2 := with_heap (<[new_node := mkNode (Some k) (Some v) None None]> (heap s1)) s1 in
  let s3 := with_mapper (<[k := new_node]> (_cache_mapper s2)) s2 in
  s4 ← add new_node s3;
  if to_size_t (_capacity s4) <? N.of_nat (size (_cache_mapper s4)) then
    tl ← heap s4 !! _tail s4;
    tail_prev ← prev tl;
    s5 ← remove tail_prev s4;
    n ← heap s5 !! tail_prev;
    let s6 :=
      match key n with
      | Some k' => with_mapper (delete k' (_cache_mapper s5)) s5
      | None => s5
      end in
    Some (with_heap (delete tail_prev (heap s6)) s6)
  else Some s4.

(** [get(key)]. *)
Definition get (k : K) (s : Cache) : option (option V * Cache) :=
  match _cache_mapper s !! k with
  | Some node =>
      s1 ← remove node s;
      s2 ← add node s1;
      n ← heap s2 !! node;
      Some (value n, s2)
  | None => Some (None, s)
  end.

(** *** Sequences of calls *)

Inductive op : Type :=
| OpPut (k : K) (v : V)
| OpGet (k : K).

Definition step (o : op) (s : Cache) : option Cache :=
  match o with
  | OpPut k v => put k v s
  | OpGet k => snd <$> get k s
  end.

Fixpoint exec (ops : list op) (s : Cache) : option Cache :=
  match ops with
  | [] => Some s
  | o :: rest => s' ← step o s; exec rest s'
  end.

(** A key is retrievable when [get] returns a value for it. *)
Definition retrievable (s : Cache) (k : K) : Prop :=
  ∃ v s', get k s = Some (Some v, s').

(** *** The list the links represent *)

Definition nxt (h : gmap positive Node) (p : positive) : option positive :=
  n ← h !! p; next n.
Definition prv (h : gmap positive Node) (p : positive) : option positive :=
  n ← h !! p; prev n.
Definition kv (h : gmap positive Node) (p : positive) : option (option K * option V) :=
  n ← h !! p; Some (key n, value n).

(** The path that starts at [a] and runs through [r]: every two neighbours
    point at each other. *)
Fixpoint chain (h : gmap positive Node) (a : positive) (r : list positive) : Prop :=
  match r with
  | [] => True
  | b :: r' => nxt h a = Some b ∧ prv h b = Some a ∧ chain h b r'
  end.

(** [l] lists the entries from the most to the least recently used, each
    with the address of its node. *)
Record rep (s : Cache) (l : list (positive * (K * V))) : Prop := mkRep {
  rep_nodup : NoDup (_head s :: l.*1 ++ [_tail s]);
  rep_chain : chain (heap s) (_head s) (l.*1 ++ [_tail s]);
  rep_kv : ∀ p k v, (p, (k, v)) ∈ l → kv (heap s) p = Some (Some k, Some v);
  rep_keys : NoDup l.*2.*1;
  rep_index : ∀ k p, _cache_mapper s !! k = Some p ↔ ∃ v, (p, (k, v)) ∈ l;
  rep_size : size (_cache_mapper s) = length l
}.

End Cache.

Arguments Node K V : clear implicits.
Arguments Cache K V {_ _}.
Arguments op K V : clear implicits.

End Lru.

(** ** The recency list of the specification *)

Module LruSpec.
Section Spec.
Context {K V : Type} `{EqDecision K}.

(** The entries from the most to the least recently used. *)
Fixpoint spec_lookup (k : K) (c : list (K * V)) : option V :=
  match c with
  | [] => None
  | e :: c' => if decide (e.1 = k) then Some e.2 else spec_lookup k c'
  end.

Definition spec_drop (k : K) (c : list (K * V)) : list (K * V) :=
  filter (λ e, e.1 ≠ k) c.

(** An accessed entry moves to the front. *)
Definition spec_get (k : K) (c : list (K * V)) : list (K * V) :=
  match spec_lookup k c with
  | Some v => (k, v) :: spec_drop k c
  | None => c
  end.

(** A stored entry goes to the front; the entry at the back is evicted when
    the capacity is exceeded. *)
Definition spec_put (capacity : Z) (k : K) (v : V) (c : list (K * V)) : list (K * V) :=
  let c1 := (k, v) :: spec_drop k c in
  if to_size_t capacity <? N.of_nat (length c1) then removelast c1 else c1.

Definition spec_step (capacity : Z) (o : Lru.op K V) (c : list (K * V)) : list (K * V) :=
  match o with
  | Lru.OpPut k v => spec_put capacity k v c
  | Lru.OpGet k => spec_get k c
  end.

Fixpoint spec_exec (capacity : Z) (ops : list (Lru.op K V)) (c : list (K * V)) :
    list (K * V) :=
  match ops with
  | [] => c
  | o :: rest => spec_exec capacity rest (spec_step capacity o c)
  end.

End Spec.
End LruSpec.

(** ** The destructor of the LRU cache *)

Module LruViews.
Import Lru.

Section Views.
Context {K V : Type} `{Countable K}.

(** The loop of [~LRUCache()]: [curr] starts at the head sentinel; every
    round reads [curr->next], deletes [curr] and goes on with the pointer
    read, until it is null.  Reading through a pointer that is not live is
    undefined ([None]).  A round deletes a live node, so a run makes no more
    rounds than the store has nodes; [fuel] bounds the rounds, and running
    out of it gives [None] as well. *)
Fixpoint destroy_loop (fuel : nat) (curr : option positive)
    (h : gmap positive (Node K V)) : option (gmap positive (Node K V)) :=
  match curr with
  | None => Some h
  | Some p =>
      match fuel with
      | O => None
      | S fuel' => n ← h !! p; destroy_loop fuel' (next n) (delete p h)
      end
  end.

(** [~LRUCache()]; the result is the store left behind. *)
Definition destroy (s : Cache K V) : option (gmap positive (Node K V)) :=
  destroy_loop (size (heap s)) (Some (_head s)) (heap s).

(** The links end at the tail sentinel, and the store holds two sentinels
    and one node per indexed key. *)
Definition closed (s : Cache K V) : Prop :=
  nxt (heap s) (_tail s) = None ∧
  size (heap s) = (size (_cache_mapper s) + 2)%nat.

End Views.
End LruViews.

(** * Facts *)

(** ** The sorted-sequence model of [std::set] *)

Section StdSetFacts.
Context {A : Type} (cmp : A → A → bool).
Hypothesis cmp_irrefl : ∀ a, cmp a a = false.
Hypothesis cmp_trans : ∀ a b c, cmp a b = true → cmp b c = true → cmp a c = true.

Local Abbreviation lt := (λ a b, cmp a b = true).

Lemma set_insert_elem x l z : z ∈ set_insert cmp x l → z = x ∨ z ∈ l.
Proof.
  induction l as [|y l IH]; simpl.
  - rewrite list_elem_of_singleton. auto.
  - destruct (cmp y x); [|destruct (cmp x y)]; rewrite ?elem_of_cons; naive_solver.
Qed.

Lemma set_insert_keeps x l z : z ∈ l → z ∈ set_insert cmp x l.
Proof.
  induction l as [|y l IH]; simpl; [by intros ?%elem_of_nil|].
  destruct (cmp y x); [|destruct (cmp x y)]; rewrite ?elem_of_cons; naive_solver.
Qed.

Lemma set_insert_adds x l :
  (∀ y, y ∈ l → cmp y x = true ∨ cmp x y = true) → x ∈ set_insert cmp x l.
Proof.
  induction l as [|y l IH]; simpl; intros Htot.
  - apply list_elem_of_singleton. done.
  - destruct (cmp y x) eqn:Eyx.
    + apply elem_of_cons. right. apply IH. intros z Hz. apply Htot. by right.
    + destruct (cmp x y) eqn:Exy; [by left|].
      destruct (Htot y) as [?|?]; [by left|congruence..].
Qed.

Lemma set_insert_sorted x l :
  StronglySorted lt l → StronglySorted lt (set_insert cmp x l).
Proof.
  induction 1 as [|y l Hs IH Hall]; simpl.
  - repeat constructor.
  - destruct (cmp y x) eqn:Eyx; [|destruct (cmp x y) eqn:Exy].
    + constructor; [done|]. apply Forall_forall. intros z Hz.
      apply set_insert_elem in Hz as [->|Hz]; [done|].
      by apply (proj1 (Forall_forall _ _) Hall).
    + constructor; [by constructor|]. constructor; [done|].
      eapply Forall_impl; [exact Hall|]. simpl. eauto.
    + by constructor.
Qed.

Lemma set_erase_elem x l z : z ∈ set_erase cmp x l → z ∈ l.
Proof.
  induction l as [|y l IH]; simpl; [done|].
  destruct (cmp y x); [|destruct (cmp x y)]; rewrite ?elem_of_cons; naive_solver.
Qed.

Lemma set_erase_sorted x l :
  StronglySorted lt l → StronglySorted lt (set_erase cmp x l).
Proof.
  induction 1 as [|y l Hs IH Hall]; simpl; [constructor|].
  destruct (cmp y x); [|destruct (cmp x y)]; [|by constructor|done].
  constructor; [done|]. apply Forall_forall. intros z Hz%set_erase_elem.
  by apply (proj1 (Forall_forall _ _) Hall).
Qed.

Lemma sorted_head_not_in y l : StronglySorted lt (y :: l) → y ∉ l.
Proof.
  intros Hs Hin. apply StronglySorted_inv in Hs as [_ Hall].
  apply (proj1 (Forall_forall _ _) Hall) in Hin. by rewrite cmp_irrefl in Hin.
Qed.

Lemma set_erase_spec x l :
  StronglySorted lt l → x ∈ l →
  ∀ z, z ∈ set_erase cmp x l ↔ z ∈ l ∧ z ≠ x.
Proof.
  induction 1 as [|y l Hs IH Hall]; intros Hin z; [by apply elem_of_nil in Hin|].
  assert (y ∉ l) as Hy by (apply sorted_head_not_in; by constructor).
  simpl. apply elem_of_cons in Hin as [->|Hin].
  - rewrite cmp_irrefl. rewrite elem_of_cons. split; [|naive_solver].
    intros Hz. split; [by right|]. by intros ->.
  - rewrite (proj1 (Forall_forall _ _) Hall x Hin).
    rewrite !elem_of_cons, IH by done. split; [|naive_solver].
    intros [->|[? ?]]; [|by auto]. split; [by left|]. by intros ->.
Qed.

Lemma sorted_ext (cmp' : A → A → bool) l :
  (∀ a b, a ∈ l → b ∈ l → cmp a b = cmp' a b) →
  StronglySorted lt l → StronglySorted (λ a b, cmp' a b = true) l.
Proof.
  intros Hext Hs. induction Hs as [|y l Hs IH Hall]; [constructor|].
  constructor.
  - apply IH. intros a b Ha Hb. apply Hext; by right.
  - apply Forall_forall. intros z Hz.
    rewrite <- Hext; [|by left|by right].
    by apply (proj1 (Forall_forall _ _) Hall).
Qed.

End StdSetFacts.

(** ** The LRU-K cache *)

Module LruKFacts.
Import LruK.

Section Facts.
Context {K V : Type} `{Countable K}.
Variable K_lt : K → K → bool.
Hypothesis K_lt_irrefl : ∀ a, K_lt a a = false.
Hypothesis K_lt_trans : ∀ a b c, K_lt a b = true → K_lt b c = true → K_lt a c = true.
Hypothesis K_lt_total : ∀ a b, a ≠ b → K_lt a b = true ∨ K_lt b a = true.

Implicit Types (s : Cache K V) (n m : LRUNode K V) (p q node : positive).
Implicit Types (h : gmap positive (LRUNode K V)) (idx : gmap K positive).
Implicit Types (key : K) (value : V).

(** *** The comparator is a strict total order on nodes with distinct keys *)

Local Ltac cases_N :=
  repeat match goal with
  | |- context [N.ltb ?a ?b] => destruct (N.ltb_spec a b)
  | |- context [N.eqb ?a ?b] => destruct (N.eqb_spec a b)
  | H : context [N.ltb ?a ?b] |- _ => destruct (N.ltb_spec a b)
  | H : context [N.eqb ?a ?b] |- _ => destruct (N.eqb_spec a b)
  end.

Lemma Compare_irrefl kc n : Compare K_lt kc n n = false.
Proof.
  unfold Compare. cases_N; simpl; auto; try lia.
Qed.

Lemma Compare_trans kc (a b c : LRUNode K V) :
  Compare K_lt kc a b = true → Compare K_lt kc b c = true →
  Compare K_lt kc a c = true.
Proof.
  unfold Compare.
  generalize (hsize a <? to_size_t kc), (hsize b <? to_size_t kc),
             (hsize c <? to_size_t kc).
  intros [] [] []; simpl; try done; eauto.
  destruct (N.eqb_spec (front a) (front b)), (N.eqb_spec (front b) (front c)),
    (N.eqb_spec (front a) (front c));
    rewrite ?N.ltb_lt; intros; try lia; try done; eauto.
Qed.

Lemma Compare_total kc (a b : LRUNode K V) :
  key_ a ≠ key_ b →
  Compare K_lt kc a b = true ∨ Compare K_lt kc b a = true.
Proof.
  intros Hne. unfold Compare.
  generalize (hsize a <? to_size_t kc), (hsize b <? to_size_t kc).
  intros [] []; simpl; auto; cases_N; auto; try lia.
Qed.

Lemma Compare_view kc (a a' b b' : LRUNode K V) :
  key_ a = key_ a' → history_ a = history_ a' →
  key_ b = key_ b' → history_ b = history_ b' →
  Compare K_lt kc a b = Compare K_lt kc a' b'.
Proof.
  unfold Compare, hsize, front. by intros -> -> -> ->.
Qed.

(** *** The comparator on pointers *)

Lemma Compare_ptr_irrefl (h : gmap positive (LRUNode K V)) kc p :
  Compare_ptr K_lt h kc p p = false.
Proof.
  unfold Compare_ptr. destruct (h !! p); [apply Compare_irrefl|done].
Qed.

Lemma Compare_ptr_trans (h : gmap positive (LRUNode K V)) kc p q r :
  Compare_ptr K_lt h kc p q = true → Compare_ptr K_lt h kc q r = true →
  Compare_ptr K_lt h kc p r = true.
Proof.
  unfold Compare_ptr.
  destruct (h !! p), (h !! q), (h !! r); try done. apply Compare_trans.
Qed.

Lemma Compare_ptr_insert_ne (h : gmap positive (LRUNode K V)) kc node n p q :
  p ≠ node → q ≠ node →
  Compare_ptr K_lt (<[node := n]> h) kc p q = Compare_ptr K_lt h kc p q.
Proof.
  intros. unfold Compare_ptr. by rewrite !lookup_insert_ne.
Qed.

Lemma Compare_ptr_delete_ne (h : gmap positive (LRUNode K V)) kc node p q :
  p ≠ node → q ≠ node →
  Compare_ptr K_lt (delete node h) kc p q = Compare_ptr K_lt h kc p q.
Proof.
  intros. unfold Compare_ptr. by rewrite !lookup_delete_ne.
Qed.

(** Distinct live nodes carry distinct keys. *)
Lemma inv_keys_inj s p q n m :
  inv K_lt s → heap s !! p = Some n → heap s !! q = Some m →
  key_ n = key_ m → p = q.
Proof.
  intros Hinv Hp Hq Hk.
  pose proof (inv_owned _ _ Hinv _ _ Hp) as H1.
  pose proof (inv_owned _ _ Hinv _ _ Hq) as H2.
  rewrite Hk in H1. congruence.
Qed.

(** *** [ResourceAccess] *)

Lemma ResourceAccess_thrown s node :
  current_timestamp_ s = UINT64_MAX →
  ResourceAccess K_lt node s =
    Thrown (runtime_error "Timestamp overflow in LRU-K Cache") s.
Proof.
  intros Hmax. unfold ResourceAccess. by rewrite Hmax.
Qed.

(** Re-registration: a node whose history has just become (or stayed) full
    is inserted again, the other members keep their places. *)
Lemma inv_reinsert cap k idx kc E ts ts' h node n n' E1 :
  inv K_lt (mkCache cap k idx (mkSet kc E) ts h) →
  h !! node = Some n →
  StronglySorted (λ a b, Compare_ptr K_lt h kc a b = true) E1 →
  (∀ z, z ∈ E1 ↔ z ∈ E ∧ z ≠ node) →
  key_ n' = key_ n → hsize n' = k → is_evictable_ n' = true →
  inv K_lt (mkCache cap k idx
              (mkSet kc (set_insert (Compare_ptr K_lt (<[node := n']> h) kc) node E1))
              ts' (<[node := n']> h)).
Proof.
  intros Hinv Hn HE1s HE1m Hkey Hfull Hevt.
  destruct (Hinv) as [Hk Hcomp Hidx Hown Hsort Hmem Hhist].
  unfold cmp_of in *. simpl in *.
  assert (HE1s' : StronglySorted
            (λ a b, Compare_ptr K_lt (<[node := n']> h) kc a b = true) E1).
  { eapply sorted_ext; [|exact HE1s]. intros a b Ha%HE1m Hb%HE1m.
    symmetry. apply Compare_ptr_insert_ne; tauto. }
  assert (Hin : ∀ z, z ∈ set_insert (Compare_ptr K_lt (<[node := n']> h) kc) node E1
                     ↔ z = node ∨ z ∈ E1).
  { intros z. split; [apply set_insert_elem|]. intros [->|Hz].
    - apply set_insert_adds. intros y Hy. apply HE1m in Hy as [Hy Hne].
      apply Hmem in Hy as (m & Hm & _).
      unfold Compare_ptr. rewrite lookup_insert_eq, lookup_insert_ne, Hm by done.
      apply Compare_total; [done..|]. rewrite Hkey. intros Heq.
      apply Hne. eapply (inv_keys_inj _ _ _ _ _ Hinv); simpl; eauto.
    - by apply set_insert_keeps. }
  constructor; simpl; unfold cmp_of; simpl.
  - done.
  - done.
  - intros key p Hp. destruct (decide (p = node)) as [->|Hne].
    + rewrite lookup_insert_eq. eexists; split; [done|].
      rewrite Hkey. destruct (Hidx _ _ Hp) as (m & Hm & <-). congruence.
    + rewrite lookup_insert_ne by done. eauto.
  - intros p m. destruct (decide (p = node)) as [->|Hne].
    + rewrite lookup_insert_eq. intros [= <-]. rewrite Hkey. eauto.
    + rewrite lookup_insert_ne by done. eauto.
  - apply set_insert_sorted; [|done]. apply Compare_ptr_trans.
  - intros p. rewrite Hin, HE1m, Hmem. destruct (decide (p = node)) as [->|Hne].
    + rewrite lookup_insert_eq. split; [eauto|auto].
    + rewrite lookup_insert_ne by done. tauto.
  - intros p m. destruct (decide (p = node)) as [->|Hne].
    + rewrite lookup_insert_eq. intros [= <-]. split; [lia|done].
    + rewrite lookup_insert_ne by done. eauto.
Qed.

(** An update that leaves the node below K accesses, or changes neither its
    key nor its history, leaves the ordering structure as it is. *)
Lemma inv_update cap k idx kc E ts ts' h node n n' :
  inv K_lt (mkCache cap k idx (mkSet kc E) ts h) →
  h !! node = Some n →
  key_ n' = key_ n →
  ((node ∉ E) ∧ hsize n' < k) ∨
    (history_ n' = history_ n ∧ is_evictable_ n' = is_evictable_ n) →
  inv K_lt (mkCache cap k idx (mkSet kc E) ts' (<[node := n']> h)).
Proof.
  intros Hinv Hn Hkey Hcase.
  destruct (Hinv) as [Hk Hcomp Hidx Hown Hsort Hmem Hhist].
  unfold cmp_of in *. simpl in *.
  constructor; simpl; unfold cmp_of; simpl.
  - done.
  - done.
  - intros key p Hp. destruct (decide (p = node)) as [->|Hne].
    + rewrite lookup_insert_eq. eexists; split; [done|].
      rewrite Hkey. destruct (Hidx _ _ Hp) as (m & Hm & <-). congruence.
    + rewrite lookup_insert_ne by done. eauto.
  - intros p m. destruct (decide (p = node)) as [->|Hne].
    + rewrite lookup_insert_eq. intros [= <-]. rewrite Hkey. eauto.
    + rewrite lookup_insert_ne by done. eauto.
  - eapply sorted_ext; [|exact Hsort]. intros a b Ha Hb. simpl.
    destruct Hcase as [[Hnot _]|[Hh _]].
    + symmetry. apply Compare_ptr_insert_ne; intros ->; done.
    + apply Hmem in Ha as (na & Ha & _). apply Hmem in Hb as (nb & Hb & _).
      unfold Compare_ptr. rewrite Ha, Hb.
      destruct (decide (a = node)) as [->|Hane];
        destruct (decide (b = node)) as [->|Hbne];
        rewrite ?lookup_insert_eq, ?lookup_insert_ne, ?Ha, ?Hb by done;
        simplify_eq; try done; apply Compare_view; done.
  - intros p. rewrite Hmem. destruct (decide (p = node)) as [->|Hne].
    + rewrite lookup_insert_eq, Hn. destruct Hcase as [[Hnot Hlt]|[Hh _]].
      * split.
        -- intros (m & [= <-] & Hm). exfalso. apply Hnot, Hmem. eauto.
        -- intros (m & [= <-] & Hm). lia.
      * unfold hsize. split; intros (m & [= <-] & Hm); eexists; split; try done;
          congruence.
    + rewrite lookup_insert_ne by done. tauto.
  - intros p m. destruct (decide (p = node)) as [->|Hne].
    + rewrite lookup_insert_eq. intros [= <-]. destruct Hcase as [[Hnot Hlt]|[Hh He]].
      * split; lia.
      * unfold hsize. rewrite Hh, He. apply (Hhist _ _ Hn).
    + rewrite lookup_insert_ne by done. eauto.
Qed.

(** An access to a full-history entry: erased, window shifted, inserted. *)
Lemma ResourceAccess_full s node n :
  heap s !! node = Some n → current_timestamp_ s ≠ UINT64_MAX →
  hsize n = k_ s → 1 ≤ k_ s → is_evictable_ n = true →
  ResourceAccess K_lt node s =
    Normal ()
      (let n' := mkLRUNode (key_ n) (value_ n)
                   (tail (history_ n ++ [current_timestamp_ s + 1])) true in
       let h' := <[node := n']> (heap s) in
       mkCache (capacity_ s) (k_ s) (cache_ s)
         (mkSet (key_comp (eviction_set_ s))
            (set_insert (Compare_ptr K_lt h' (key_comp (eviction_set_ s))) node
               (set_erase (cmp_of K_lt s) node (elems (eviction_set_ s)))))
         (current_timestamp_ s + 1) h').
Proof.
  intros Hn Hts Hfull Hk Hev.
  destruct s as [cap k idx [kc E] ts h]. simpl in *.
  unfold ResourceAccess, cmp_of. simpl.
  rewrite (proj2 (N.eqb_neq _ _) Hts), Hn, (proj2 (N.eqb_eq _ _) Hfull). simpl.
  assert (Hlen : length (history_ n ++ [ts + 1]) = S (length (history_ n)))
    by (rewrite length_app; simpl; lia).
  unfold hsize in *. simpl. rewrite Hlen.
  replace (k <? N.of_nat (S (length (history_ n)))) with true
    by (symmetry; apply N.ltb_lt; lia).
  assert (Hl2 : N.of_nat (length (tail (history_ n ++ [ts + 1]))) = k)
    by (rewrite length_tl, Hlen; lia).
  rewrite (proj2 (N.eqb_eq _ _) Hl2), Hev. reflexivity.
Qed.

Lemma ResourceAccess_ok s node n :
  inv K_lt s → heap s !! node = Some n → current_timestamp_ s ≠ UINT64_MAX →
  ∃ s' n',
    ResourceAccess K_lt node s = Normal () s' ∧ inv K_lt s' ∧
    capacity_ s' = capacity_ s ∧ k_ s' = k_ s ∧ cache_ s' = cache_ s ∧
    current_timestamp_ s' = current_timestamp_ s + 1 ∧
    heap s' = <[node := n']> (heap s) ∧
    key_ n' = key_ n ∧ value_ n' = value_ n ∧
    history_ n' =
      (if hsize n =? k_ s
       then tail (history_ n ++ [current_timestamp_ s + 1])
       else history_ n ++ [current_timestamp_ s + 1]).
Proof.
  intros Hinv Hn Hts.
  destruct (Hinv) as [Hk Hcomp Hidx Hown Hsort Hmem Hhist].
  destruct (Hhist _ _ Hn) as [Hle Hev].
  destruct s as [cap k idx [kc E] ts h]. unfold cmp_of in *. simpl in *.
  unfold ResourceAccess, cmp_of. simpl.
  rewrite (proj2 (N.eqb_neq _ _) Hts), Hn.
  assert (Hlen : length (history_ n ++ [ts + 1]) = S (length (history_ n)))
    by (rewrite length_app; simpl; lia).
  destruct (N.eqb_spec (hsize n) k) as [Hf|Hf]; simpl; unfold hsize in *; simpl.
  - (* the node is a member: erase, shift the window, insert again *)
    rewrite Hlen.
    replace (k <? N.of_nat (S (length (history_ n)))) with true
      by (symmetry; apply N.ltb_lt; lia).
    assert (Hl2 : N.of_nat (length (tail (history_ n ++ [ts + 1]))) = k)
      by (rewrite length_tl, Hlen; lia).
    rewrite (proj2 (N.eqb_eq _ _) Hl2), (Hev Hf). simpl.
    eexists _, _. split; [reflexivity|]. split; [|by simpl].
    eapply inv_reinsert; eauto.
    + by apply set_erase_sorted.
    + apply set_erase_spec; [apply Compare_ptr_irrefl|done|]. apply Hmem. eauto.
  - (* the node is below K accesses *)
    replace (k <? N.of_nat (length (history_ n ++ [ts + 1]))) with false
      by (symmetry; apply N.ltb_ge; lia).
    destruct (N.eqb_spec (N.of_nat (length (history_ n ++ [ts + 1]))) k) as [Hf'|Hf'].
    + assert (Hnot : node ∉ E).
      { intros (m & Hm & Hfull)%Hmem. unfold hsize in *. congruence. }
      destruct (is_evictable_ n) eqn:Hevn; simpl.
      * eexists _, _. split; [reflexivity|]. split; [|by simpl].
        eapply inv_reinsert; eauto. intros z. split; [|tauto].
        intros Hz. split; [done|]. by intros ->.
      * eexists _, _. split; [reflexivity|]. split; [|by simpl].
        eapply inv_reinsert; eauto. intros z. split; [|tauto].
        intros Hz. split; [done|]. by intros ->.
    + eexists _, _. split; [reflexivity|]. split; [|by simpl].
      eapply inv_update; eauto. left. split.
      * intros (m & Hm & Hfull)%Hmem. unfold hsize in *. congruence.
      * unfold hsize. simpl. lia.
Qed.

(** *** Construction, allocation and deletion *)

Lemma inv_init cap k : 1 ≤ k → inv K_lt (mkCache cap k ∅ (mkSet (to_int k) []) 0 ∅ : Cache K V).
Proof.
  intros Hk. constructor; simpl; try done.
  - constructor.
  - intros p. split; [by intros ?%elem_of_nil|]. by intros (n & ? & _).
Qed.

Lemma inv_alloc cap k idx kc E ts h key value node :
  inv K_lt (mkCache cap k idx (mkSet kc E) ts h) →
  idx !! key = None → h !! node = None →
  inv K_lt (mkCache cap k (<[key := node]> idx) (mkSet kc E) ts
              (<[node := mkLRUNode key value [] false]> h)).
Proof.
  intros Hinv Hkey Hnode.
  destruct (Hinv) as [Hk Hcomp Hidx Hown Hsort Hmem Hhist].
  unfold cmp_of in *. simpl in *.
  assert (Hnot : node ∉ E).
  { intros (m & Hm & _)%Hmem. congruence. }
  constructor; simpl; unfold cmp_of; simpl.
  - done.
  - done.
  - intros key' q. destruct (decide (key = key')) as [->|Hne].
    + rewrite lookup_insert_eq. intros [= <-]. rewrite lookup_insert_eq. eauto.
    + rewrite lookup_insert_ne by done. intros Hq.
      destruct (Hidx _ _ Hq) as (m & Hm & <-).
      rewrite lookup_insert_ne by congruence. eauto.
  - intros q m. destruct (decide (q = node)) as [->|Hne].
    + rewrite lookup_insert_eq. intros [= <-]. simpl. by rewrite lookup_insert_eq.
    + rewrite lookup_insert_ne by done. intros Hm.
      rewrite lookup_insert_ne; [eauto|]. intros ->.
      apply Hown in Hm. congruence.
  - eapply sorted_ext; [|exact Hsort]. intros a b Ha Hb. simpl.
    symmetry. apply Compare_ptr_insert_ne; intros ->; done.
  - intros q. rewrite Hmem. destruct (decide (q = node)) as [->|Hne].
    + rewrite lookup_insert_eq, Hnode. split; [by intros (m & ? & _)|].
      intros (m & [= <-] & Hm). unfold hsize in Hm. simpl in Hm. lia.
    + by rewrite lookup_insert_ne.
  - intros q m. destruct (decide (q = node)) as [->|Hne].
    + rewrite lookup_insert_eq. intros [= <-]. unfold hsize. simpl. split; lia.
    + rewrite lookup_insert_ne by done. eauto.
Qed.

Lemma inv_delete cap k idx kc E ts h node n E' :
  inv K_lt (mkCache cap k idx (mkSet kc E) ts h) →
  h !! node = Some n →
  StronglySorted (λ a b, Compare_ptr K_lt h kc a b = true) E' →
  (∀ z, z ∈ E' ↔ z ∈ E ∧ z ≠ node) →
  inv K_lt (mkCache cap k (delete (key_ n) idx) (mkSet kc E') ts (delete node h)).
Proof.
  intros Hinv Hn HE's HE'm.
  destruct (Hinv) as [Hk Hcomp Hidx Hown Hsort Hmem Hhist].
  unfold cmp_of in *. simpl in *.
  constructor; simpl; unfold cmp_of; simpl.
  - done.
  - done.
  - intros key' q. rewrite lookup_delete_Some. intros [Hne Hq].
    destruct (Hidx _ _ Hq) as (m & Hm & <-).
    rewrite lookup_delete_ne by congruence. eauto.
  - intros q m. rewrite lookup_delete_Some. intros [Hne Hm].
    rewrite lookup_delete_ne; [eauto|]. intros Heq. apply Hne.
    eapply (inv_keys_inj _ _ _ _ _ Hinv); simpl; eauto.
  - eapply sorted_ext; [|exact HE's]. intros a b Ha%HE'm Hb%HE'm. simpl.
    symmetry. apply Compare_ptr_delete_ne; tauto.
  - intros q. rewrite HE'm, Hmem. split.
    + intros [(m & Hm & Hf) Hne]. exists m. by rewrite lookup_delete_ne.
    + intros (m & [Hne Hm]%lookup_delete_Some & Hf). eauto.
  - intros q m [Hne Hm]%lookup_delete_Some. eauto.
Qed.

(** *** [Evict] *)

Lemma Evict_spec s :
  inv K_lt s →
  (size_ s < capacity_ s ∧ Evict s = Normal () s) ∨
  (capacity_ s ≤ size_ s ∧ elems (eviction_set_ s) = [] ∧ Evict s = Normal () s) ∨
  (capacity_ s ≤ size_ s ∧
   ∃ p rest n,
     elems (eviction_set_ s) = p :: rest ∧
     heap s !! p = Some n ∧ hsize n = k_ s ∧ cache_ s !! key_ n = Some p ∧
     (p ∉ rest) ∧
     Evict s = Normal () (with_heap (delete p (heap s))
                            (with_cache (delete (key_ n) (cache_ s))
                               (with_elems rest s))) ∧
     inv K_lt (with_heap (delete p (heap s))
                 (with_cache (delete (key_ n) (cache_ s)) (with_elems rest s)))).
Proof.
  intros Hinv. unfold Evict, size_.
  destruct (N.ltb_spec (N.of_nat (size (cache_ s))) (capacity_ s)) as [Hlt|Hge];
    [by left|right].
  destruct (elems (eviction_set_ s)) as [|p rest] eqn:HE; [by left|right].
  split; [done|].
  destruct (Hinv) as [Hk Hcomp Hidx Hown Hsort Hmem Hhist].
  assert (Hp : p ∈ elems (eviction_set_ s)) by (rewrite HE; by left).
  apply Hmem in Hp as (n & Hn & Hfull).
  assert (Hnot : p ∉ rest).
  { rewrite HE in Hsort. eapply sorted_head_not_in; [|exact Hsort].
    intros a. apply Compare_ptr_irrefl. }
  exists p, rest, n. simpl. rewrite Hn, (proj2 (Hhist _ _ Hn) Hfull).
  split_and!; eauto.
  destruct s as [cap k idx [kc E] ts h]. unfold cmp_of in *. simpl in *. subst E.
  apply (inv_delete cap k idx kc (p :: rest) ts h p n rest); [done..| |].
  - by apply StronglySorted_inv in Hsort as [? _].
  - intros z. rewrite elem_of_cons. split; [|naive_solver].
    intros Hz. split; [by right|]. by intros ->.
Qed.

(** *** The logical clock *)

Lemma clock_ok_frame s s' :
  clock_ok s → current_timestamp_ s ≤ current_timestamp_ s' →
  (∀ p n', heap s' !! p = Some n' →
     history_ n' = [] ∨ ∃ n, heap s !! p = Some n ∧ history_ n' = history_ n) →
  clock_ok s'.
Proof.
  intros Hok Hts Hh p n' Hn'. destruct (Hh _ _ Hn') as [->|(n & Hn & ->)].
  - split; constructor.
  - destruct (Hok _ _ Hn) as [? Hall]. split; [done|].
    eapply Forall_impl; [exact Hall|]. simpl. intros. lia.
Qed.

Lemma clock_ok_touch s s' node n n' :
  clock_ok s → heap s !! node = Some n →
  heap s' = <[node := n']> (heap s) →
  current_timestamp_ s' = current_timestamp_ s + 1 →
  history_ n' =
    (if hsize n =? k_ s
     then tail (history_ n ++ [current_timestamp_ s + 1])
     else history_ n ++ [current_timestamp_ s + 1]) →
  clock_ok s'.
Proof.
  intros Hok Hn Hh Hts Hhist p m. rewrite Hh, Hts.
  destruct (decide (p = node)) as [->|Hne].
  - rewrite lookup_insert_eq. intros [= <-]. rewrite Hhist.
    destruct (Hok _ _ Hn) as [Hs Hall].
    assert (StronglySorted N.lt (history_ n ++ [current_timestamp_ s + 1]) ∧
            Forall (λ t, 1 ≤ t ≤ current_timestamp_ s + 1)
                   (history_ n ++ [current_timestamp_ s + 1])) as [Hs' Hall'].
    { split.
      - apply StronglySorted_app_2; [|done|repeat constructor].
        intros x1 x2 Hx1 ->%list_elem_of_singleton.
        apply (proj1 (Forall_forall _ _) Hall) in Hx1. lia.
      - apply Forall_app. split; [|apply Forall_singleton; lia].
        eapply Forall_impl; [exact Hall|]. simpl. intros. lia. }
    destruct (hsize n =? k_ s); [|done]. split; [|by apply Forall_tail].
    destruct (history_ n ++ [current_timestamp_ s + 1]); simpl; [constructor|].
    by apply StronglySorted_inv in Hs' as [? _].
  - rewrite lookup_insert_ne by done. intros Hm.
    destruct (Hok _ _ Hm) as [? Hall]. split; [done|].
    eapply Forall_impl; [exact Hall|]. simpl. intros. lia.
Qed.

(** *** The public operations keep the invariant *)

Lemma ResourceAccess_final s node n :
  inv K_lt s → heap s !! node = Some n →
  ∃ s', final (ResourceAccess K_lt node s) = Some s' ∧ inv K_lt s' ∧
        capacity_ s' = capacity_ s ∧ k_ s' = k_ s ∧ cache_ s' = cache_ s ∧
        (clock_ok s → clock_ok s').
Proof.
  intros Hinv Hn.
  destruct (decide (current_timestamp_ s = UINT64_MAX)) as [Hmax|Hmax].
  - rewrite ResourceAccess_thrown by done. by exists s.
  - destruct (ResourceAccess_ok s node n Hinv Hn Hmax)
      as (s' & n' & -> & ? & ? & ? & ? & ? & ? & ? & ? & ?).
    exists s'. split_and!; try done. intros Hok.
    by apply (clock_ok_touch s s' node n n').
Qed.

Lemma Get_final s key :
  inv K_lt s →
  ∃ s', final (Get K_lt key s) = Some s' ∧ inv K_lt s' ∧
        capacity_ s' = capacity_ s ∧ k_ s' = k_ s ∧ cache_ s' = cache_ s ∧
        (clock_ok s → clock_ok s').
Proof.
  intros Hinv. unfold Get. destruct (cache_ s !! key) as [node|] eqn:Hkey.
  - destruct (inv_index _ _ Hinv _ _ Hkey) as (n & Hn & _). unfold bind.
    destruct (decide (current_timestamp_ s = UINT64_MAX)) as [Hmax|Hmax].
    + rewrite ResourceAccess_thrown by done. by exists s.
    + destruct (ResourceAccess_ok s node n Hinv Hn Hmax)
        as (s' & n' & -> & ? & ? & ? & ? & ? & Hh & ? & ? & ?).
      rewrite Hh, lookup_insert_eq. exists s'. split_and!; try done.
      intros Hok. by apply (clock_ok_touch s s' node n n').
  - by exists s.
Qed.

Lemma Put_existing_final s key value node :
  inv K_lt s → cache_ s !! key = Some node →
  ∃ s', final (Put K_lt key value s) = Some s' ∧ inv K_lt s' ∧
        capacity_ s' = capacity_ s ∧ k_ s' = k_ s ∧ cache_ s' = cache_ s ∧
        (clock_ok s → clock_ok s').
Proof.
  intros Hinv Hkey. unfold Put. rewrite Hkey.
  destruct (inv_index _ _ Hinv _ _ Hkey) as (n & Hn & _). unfold bind.
  destruct (decide (current_timestamp_ s = UINT64_MAX)) as [Hmax|Hmax].
  - rewrite ResourceAccess_thrown by done. by exists s.
  - destruct (ResourceAccess_ok s node n Hinv Hn Hmax)
      as (s' & n' & -> & Hinv' & ? & ? & ? & ? & Hh & ? & ? & ?).
    assert (Hn' : heap s' !! node = Some n') by (by rewrite Hh, lookup_insert_eq).
    rewrite Hn'. eexists. split; [done|]. split; [|split_and!; try done].
    + destruct s' as [cap k idx [kc E] ts h]. simpl in *.
      eapply inv_update; eauto.
    + intros Hok. apply (clock_ok_touch s s' node n n') in Hok; try done.
      eapply clock_ok_frame; [exact Hok|done|]. simpl. intros p m.
      destruct (decide (p = node)) as [->|Hne].
      * rewrite lookup_insert_eq. intros [= <-]. right. eauto.
      * rewrite lookup_insert_ne by done. eauto.
Qed.

Lemma Put_new_final s key value :
  inv K_lt s → cache_ s !! key = None →
  ∃ s1 s', Evict s = Normal () s1 ∧ inv K_lt s1 ∧
           final (Put K_lt key value s) = Some s' ∧ inv K_lt s' ∧
           capacity_ s' = capacity_ s ∧ k_ s' = k_ s ∧
           cache_ s1 !! key = None ∧
           cache_ s' = <[key := fresh (dom (heap s1))]> (cache_ s1) ∧
           (clock_ok s → clock_ok s').
Proof.
  intros Hinv Hkey. unfold Put. rewrite Hkey. unfold bind.
  assert (∃ s1, Evict s = Normal () s1 ∧ inv K_lt s1 ∧
                capacity_ s1 = capacity_ s ∧ k_ s1 = k_ s ∧
                cache_ s1 !! key = None ∧ (clock_ok s → clock_ok s1))
    as (s1 & -> & Hinv1 & Hc1 & Hk1 & Hkey1 & Hok1).
  { destruct (Evict_spec s Hinv) as [[_ ->]|[(_ & _ & ->)|(_ & p & rest & n & _ & _ & _ & _ & _ & -> & Hi)]];
      [by exists s|by exists s|].
    eexists. split; [done|]. split; [done|]. simpl.
    split_and!; try done; [by apply lookup_delete_None; right|].
    intros Hok. eapply clock_ok_frame; [exact Hok|done|]. simpl.
    intros q m [_ Hm]%lookup_delete_Some. eauto. }
  exists s1. set (node := fresh (dom (heap s1))).
  assert (Hfresh : heap s1 !! node = None).
  { apply not_elem_of_dom. apply is_fresh. }
  set (s3 := with_cache _ _).
  assert (Hinv3 : inv K_lt s3).
  { subst s3. destruct s1 as [cap k idx [kc E] ts h]. simpl in *.
    by apply inv_alloc. }
  assert (Hn3 : heap s3 !! node = Some (mkLRUNode key value [] false)).
  { subst s3. simpl. by rewrite lookup_insert_eq. }
  destruct (ResourceAccess_final s3 node _ Hinv3 Hn3)
    as (s' & -> & ? & Hc & Hk & Hidx & Hok3).
  exists s'. split_and!; try done.
  - by rewrite Hc.
  - by rewrite Hk.
  - intros Hok. apply Hok3. eapply clock_ok_frame; [exact (Hok1 Hok)|done|].
    subst s3. simpl. intros p m. destruct (decide (p = node)) as [->|Hne].
    + rewrite lookup_insert_eq. intros [= <-]. by left.
    + rewrite lookup_insert_ne by done. eauto.
Qed.

Lemma Remove_absent s key :
  cache_ s !! key = None → Remove K_lt key s = Normal false s.
Proof. intros Hkey. unfold Remove. by rewrite Hkey. Qed.

Lemma Remove_present s key node :
  inv K_lt s → cache_ s !! key = Some node →
  ∃ n s',
    heap s !! node = Some n ∧ key_ n = key ∧
    Remove K_lt key s = Normal true s' ∧ inv K_lt s' ∧
    capacity_ s' = capacity_ s ∧ k_ s' = k_ s ∧
    current_timestamp_ s' = current_timestamp_ s ∧
    cache_ s' = delete key (cache_ s) ∧ heap s' = delete node (heap s) ∧
    (∀ z, z ∈ elems (eviction_set_ s') ↔ z ∈ elems (eviction_set_ s) ∧ z ≠ node).
Proof.
  intros Hinv Hkey. unfold Remove. rewrite Hkey.
  destruct (inv_index _ _ Hinv _ _ Hkey) as (n & Hn & Hnk). rewrite Hn.
  destruct (Hinv) as [Hk Hcomp Hidx Hown Hsort Hmem Hhist].
  destruct (Hhist _ _ Hn) as [_ Hev].
  destruct s as [cap k idx [kc E] ts h]. unfold cmp_of in *. simpl in *.
  subst key. exists n.
  destruct (N.eqb_spec (hsize n) k) as [Hf|Hf]; simpl.
  - rewrite (Hev Hf). simpl.
    assert (∀ z, z ∈ set_erase (Compare_ptr K_lt h kc) node E ↔ z ∈ E ∧ z ≠ node)
      as HE'm.
    { apply set_erase_spec; [apply Compare_ptr_irrefl|done|]. apply Hmem. eauto. }
    eexists. split_and!; try done.
    eapply inv_delete; eauto. by apply set_erase_sorted.
  - assert (∀ z, z ∈ E ↔ z ∈ E ∧ z ≠ node) as HE'm.
    { intros z. split; [|tauto]. intros Hz.
      split; [done|]. intros ->. apply Hmem in Hz as (m & ? & ?). congruence. }
    eexists. split_and!; try done.
    eapply inv_delete; eauto.
Qed.

Lemma step_inv (o : op K V) s :
  inv K_lt s →
  ∃ s', step K_lt o s = Some s' ∧ inv K_lt s' ∧
        capacity_ s' = capacity_ s ∧ k_ s' = k_ s ∧
        (clock_ok s → clock_ok s').
Proof.
  intros Hinv. destruct o as [key|key value|key|key|]; simpl.
  - destruct (Get_final s key Hinv) as (s' & ? & ? & ? & ? & _ & ?).
    exists s'. by split_and!.
  - destruct (cache_ s !! key) as [node|] eqn:Hkey.
    + destruct (Put_existing_final s key value node Hinv Hkey)
        as (s' & ? & ? & ? & ? & _ & ?). exists s'. by split_and!.
    + destruct (Put_new_final s key value Hinv Hkey)
        as (s1 & s' & _ & _ & ? & ? & ? & ? & _ & _ & ?). exists s'. by split_and!.
  - destruct (cache_ s !! key) as [node|] eqn:Hkey.
    + destruct (Remove_present s key node Hinv Hkey)
        as (n & s' & _ & _ & -> & ? & ? & ? & Hts & _ & Hh & _). simpl.
      exists s'. split_and!; try done. intros Hok.
      eapply clock_ok_frame; [exact Hok|lia|]. rewrite Hh.
      intros q m [_ Hm]%lookup_delete_Some. eauto.
    + rewrite Remove_absent by done. simpl. exists s. by split_and!.
  - exists s. by split_and!.
  - exists s. by split_and!.
Qed.

Lemma exec_inv (ops : list (op K V)) s :
  inv K_lt s →
  ∃ s', exec K_lt ops s = Some s' ∧ inv K_lt s' ∧
        capacity_ s' = capacity_ s ∧ k_ s' = k_ s ∧
        (clock_ok s → clock_ok s').
Proof.
  revert s. induction ops as [|o ops IH]; intros s Hinv; simpl.
  { exists s. by split_and!. }
  destruct (step_inv o s Hinv) as (s1 & -> & Hinv1 & Hc & Hk & Hok).
  destruct (IH s1 Hinv1) as (s' & ? & ? & ? & ? & ?).
  exists s'. split_and!; try congruence. auto.
Qed.

Lemma clock_ok_init cap k :
  clock_ok (mkCache cap k ∅ (mkSet (to_int k) []) 0 ∅ : Cache K V).
Proof. intros p n. simpl. by rewrite lookup_empty. Qed.

(** Every state reached from a freshly constructed cache with K >= 1. *)
Lemma reachable_inv cap k (ops : list (op K V)) s0 :
  1 ≤ k → LRU_K_Cache cap k = inr s0 →
  ∃ s, exec K_lt ops s0 = Some s ∧ inv K_lt s ∧ clock_ok s ∧
       capacity_ s = cap ∧ k_ s = k.
Proof.
  intros Hk [= <-].
  destruct (exec_inv ops _ (inv_init cap k Hk)) as (s & ? & ? & ? & ? & Hok).
  exists s. split_and!; try done. apply Hok, clock_ok_init.
Qed.

(** *** Machine-integer facts *)

Lemma to_size_t_to_int k : k < 2 ^ 31 → to_size_t (to_int k) = k.
Proof.
  intros Hk. unfold to_size_t, to_int.
  assert (Z.of_N k < 2 ^ 31)%Z by lia.
  rewrite (Z.mod_small (Z.of_N k) (2 ^ 32)) by lia.
  destruct (Z.ltb_spec (Z.of_N k) (2 ^ 31)); [|lia].
  rewrite Z.mod_small by lia. lia.
Qed.

(** *** Size of the index along a step *)

Lemma full_entry_member s :
  inv K_lt s → full_entry_exists s = true → elems (eviction_set_ s) ≠ [].
Proof.
  intros Hinv Hfull%bool_decide_eq_true_1.
  destruct Hfull as (key & p & Hkey & Hp). unfold is_full in Hp.
  destruct (heap s !! p) as [n|] eqn:Hn; [|done].
  apply N.eqb_eq in Hp.
  assert (p ∈ elems (eviction_set_ s)) as Hin by (apply (inv_member _ _ Hinv); eauto).
  intros HE. rewrite HE in Hin. by apply elem_of_nil in Hin.
Qed.

Lemma step_size (o : op K V) s s' :
  inv K_lt s → size_ s ≤ capacity_ s → overflow_covered o s = true →
  step K_lt o s = Some s' → size_ s' ≤ capacity_ s'.
Proof.
  intros Hinv Hsz Hcov Hstep. unfold size_ in *.
  destruct o as [key|key value|key|key|]; simpl in *.
  - destruct (Get_final s key Hinv) as (s1 & ? & _ & Hc & _ & Hidx & _).
    simplify_eq. by rewrite Hc, Hidx.
  - destruct (cache_ s !! key) as [node|] eqn:Hkey.
    + destruct (Put_existing_final s key value node Hinv Hkey)
        as (s1 & ? & _ & Hc & _ & Hidx & _).
      simplify_eq. by rewrite Hc, Hidx.
    + destruct (Put_new_final s key value Hinv Hkey)
        as (s1 & s2 & He & _ & ? & _ & Hc & _ & Hk1 & Hidx & _).
      simplify_eq. rewrite Hc, Hidx, map_size_insert_None by done.
      destruct (Evict_spec s Hinv)
        as [[Hlt He']|[(Hge & HE & He')|(Hge & p & rest & n & _ & _ & _ & Hp & _ & He' & _)]];
        rewrite He' in He; simplify_eq.
      * unfold size_ in Hlt. lia.
      * apply orb_true_iff in Hcov as [Hlt%N.ltb_lt|Hfull].
        -- unfold size_ in *. lia.
        -- by apply full_entry_member in Hfull.
      * simpl. rewrite map_size_delete_Some by eauto.
        assert (size (cache_ s) ≠ 0%nat).
        { intros Hz%map_size_empty_iff. rewrite Hz in Hp. by rewrite lookup_empty in Hp. }
        lia.
  - destruct (cache_ s !! key) as [node|] eqn:Hkey.
    + destruct (Remove_present s key node Hinv Hkey)
        as (n & s1 & _ & _ & Hr & _ & Hc & _ & _ & Hidx & _).
      rewrite Hr in Hstep. simpl in Hstep. simplify_eq.
      rewrite Hc, Hidx, map_size_delete_Some by eauto. lia.
    + rewrite Remove_absent in Hstep by done. simpl in Hstep. by simplify_eq.
  - by simplify_eq.
  - by simplify_eq.
Qed.

Lemma exec_size (ops : list (op K V)) s :
  inv K_lt s → size_ s ≤ capacity_ s → covered K_lt ops s = true →
  ∀ i, ∃ s', exec K_lt (take i ops) s = Some s' ∧ size_ s' ≤ capacity_ s.
Proof.
  revert s. induction ops as [|o ops IH]; intros s Hinv Hsz Hcov i.
  - rewrite take_nil. exists s. by split.
  - destruct i as [|i]; [exists s; by split|]. simpl in *.
    apply andb_true_iff in Hcov as [Hcov1 Hcov].
    destruct (step_inv o s Hinv) as (s1 & Hstep & Hinv1 & Hc & _).
    rewrite Hstep in *.
    pose proof (step_size o s s1 Hinv Hsz Hcov1 Hstep) as Hsz1.
    destruct (IH s1 Hinv1 Hsz1 Hcov i) as (s' & ? & ?).
    exists s'. split; [done|]. by rewrite <- Hc.
Qed.

(** *** Specification claims *)

Lemma sorted_front_min (l : list N) :
  StronglySorted N.lt l → Forall (λ t, hd 0 l ≤ t) l.
Proof.
  destruct 1 as [|x l Hs Hall]; simpl; constructor; [lia|].
  eapply Forall_impl; [exact Hall|]. simpl. intros. lia.
Qed.

(** For a K that fits the comparator's [int] (K < 2^31), a put of a new key
    at capacity evicts exactly the first element of the ordering structure,
    if there is one: a full-history entry whose oldest retained timestamp is
    the smallest among the full-history entries, ties broken by the key
    order; the entry leaves the index, the ordering structure and the store,
    and nothing else is removed. *)
Theorem put_new_key_evicts_oldest cap k (ops : list (op K V)) s0 s key value :
  1 ≤ k → k < 2 ^ 31 →
  LRU_K_Cache cap k = inr s0 → exec K_lt ops s0 = Some s →
  cache_ s !! key = None → capacity_ s ≤ size_ s →
  ∃ s1,
    Evict s = Normal () s1 ∧
    Put K_lt key value s =
      (let node := fresh (dom (heap s1)) in
       ResourceAccess K_lt node
         (with_cache (<[key := node]> (cache_ s1))
            (with_heap (<[node := mkLRUNode key value [] false]> (heap s1)) s1))) ∧
    match elems (eviction_set_ s) with
    | [] => s1 = s
    | p :: rest =>
        ∃ n, heap s !! p = Some n ∧ cache_ s !! key_ n = Some p ∧
             hsize n = k ∧ Forall (λ t, front n ≤ t) (history_ n) ∧
             (∀ q m, q ≠ p → heap s !! q = Some m → hsize m = k →
                front n < front m ∨
                (front n = front m ∧ K_lt (key_ n) (key_ m) = true)) ∧
             cache_ s1 = delete (key_ n) (cache_ s) ∧
             elems (eviction_set_ s1) = rest ∧ (p ∉ rest) ∧
             heap s1 = delete p (heap s) ∧
             size_ s1 + 1 = size_ s ∧
             (∀ key', key' ≠ key_ n → cache_ s1 !! key' = cache_ s !! key')
    end.
Proof.
  intros Hk Hint Hnew Hexec Hkey Hcap.
  destruct (reachable_inv cap k ops s0 Hk Hnew) as (s' & Hexec' & Hinv & Hok & _ & Hks).
  assert (s' = s) as -> by congruence. subst k.
  destruct (Evict_spec s Hinv)
    as [[Hlt _]|[(_ & HE & He)|(_ & p & rest & n & HE & Hn & Hfull & Hp & Hnot & He & _)]].
  - lia.
  - exists s. split; [done|]. split; [|by rewrite HE].
    unfold Put, bind. by rewrite Hkey, He.
  - eexists. split; [exact He|]. split.
    { unfold Put, bind. by rewrite Hkey, He. }
    rewrite HE. exists n. split_and!; try done.
    + apply sorted_front_min. by apply (Hok _ _ Hn).
    + intros q m Hne Hm Hmfull.
      assert (q ∈ rest) as Hq.
      { assert (q ∈ elems (eviction_set_ s)) as Hq
          by (apply (inv_member _ _ Hinv); eauto).
        rewrite HE in Hq. apply elem_of_cons in Hq as [?|?]; done. }
      pose proof (inv_sorted _ _ Hinv) as Hsort. rewrite HE in Hsort.
      apply StronglySorted_inv in Hsort as [_ Hall].
      apply (proj1 (Forall_forall _ _) Hall) in Hq.
      unfold cmp_of, Compare_ptr in Hq. rewrite Hn, Hm in Hq.
      unfold Compare in Hq.
      rewrite (inv_comp _ _ Hinv), to_size_t_to_int in Hq by done.
      rewrite Hfull, Hmfull, N.ltb_irrefl in Hq.
      simpl in Hq. destruct (N.eqb_spec (front n) (front m)); [by right|].
      left. by apply N.ltb_lt.
    + unfold size_. simpl. rewrite map_size_delete_Some by eauto.
      assert (size (cache_ s) ≠ 0%nat).
      { intros Hz%map_size_empty_iff. rewrite Hz in Hp. by rewrite lookup_empty in Hp. }
      lia.
    + intros key' Hne. simpl. by rewrite lookup_delete_ne.
Qed.

(** C2. With capacity C >= 1 and K >= 1, if every put of a new key made while
    [size()] has reached C finds an indexed entry with full history, then
    [size()] is at most C after every operation of the sequence. *)
Theorem size_never_exceeds_capacity cap k (ops : list (op K V)) s0 :
  1 ≤ cap → 1 ≤ k →
  LRU_K_Cache cap k = inr s0 → covered K_lt ops s0 = true →
  ∀ i, ∃ s, exec K_lt (take i ops) s0 = Some s ∧ size_ s ≤ cap.
Proof.
  intros _ Hk [= <-] Hcov i.
  apply (exec_size ops _ (inv_init cap k Hk)); [|done].
  unfold size_. simpl. rewrite map_size_empty. lia.
Qed.


(** C8. [Remove] of a present key returns true and deletes the entry from the
    ordering structure, the index and the store, touching neither the clock
    nor any other entry, and a [Get] of the key afterwards is empty;
    [Remove] of an absent key returns false and leaves the state as it is. *)
Theorem remove_present_and_absent cap k (ops : list (op K V)) s0 s key :
  1 ≤ k → LRU_K_Cache cap k = inr s0 → exec K_lt ops s0 = Some s →
  (cache_ s !! key = None → Remove K_lt key s = Normal false s) ∧
  (∀ p, cache_ s !! key = Some p →
     ∃ s', Remove K_lt key s = Normal true s' ∧
           cache_ s' = delete key (cache_ s) ∧ heap s' = delete p (heap s) ∧
           (∀ q, q ∈ elems (eviction_set_ s') ↔
                 q ∈ elems (eviction_set_ s) ∧ q ≠ p) ∧
           current_timestamp_ s' = current_timestamp_ s ∧
           capacity_ s' = capacity_ s ∧ k_ s' = k_ s ∧
           Get K_lt key s' = Normal None s').
Proof.
  intros Hk Hnew Hexec.
  destruct (reachable_inv cap k ops s0 Hk Hnew) as (s' & Hexec' & Hinv & _).
  assert (s' = s) as -> by congruence.
  split; [apply Remove_absent|]. intros p Hp.
  destruct (Remove_present s key p Hinv Hp)
    as (n & s' & _ & _ & Hr & _ & Hc & Hk' & Hts & Hidx & Hh & HE).
  exists s'. split_and!; try done.
  unfold Get. by rewrite Hidx, lookup_delete_eq.
Qed.

(** C9. [contains] reports whether the key is indexed and returns the state
    it was given, so any number of calls before a [Get] leaves the outcome of
    that [Get] as it would have been. *)
Theorem contains_is_pure (s : Cache K V) key key' (calls : nat) :
  contains key s = Normal (bool_decide (is_Some (cache_ s !! key))) s ∧
  exec K_lt (replicate calls (OpContains key)) s = Some s ∧
  (∀ st, exec K_lt (replicate calls (OpContains key)) s = Some st →
         Get K_lt key' st = Get K_lt key' s).
Proof.
  assert (exec K_lt (replicate calls (OpContains key)) s = Some s) as Hiter.
  { induction calls as [|calls IH]; simpl; done. }
  split; [done|]. split; [done|]. intros st. rewrite Hiter. by intros [= <-].
Qed.

(** *** Puts of keys seen once (K >= 2) *)

Local Arguments N.eqb : simpl never.
Local Arguments N.ltb : simpl never.
Local Arguments N.of_nat : simpl never.

Lemma Evict_loop_nil (pre : list positive) s : Evict_loop pre [] s = Normal () s.
Proof. done. Qed.

Lemma Put_once_seen s key value :
  elems (eviction_set_ s) = [] → 2 ≤ k_ s →
  current_timestamp_ s ≠ UINT64_MAX → cache_ s !! key = None →
  ∃ s', Put K_lt key value s = Normal () s' ∧
        cache_ s' = <[key := fresh (dom (heap s))]> (cache_ s) ∧
        elems (eviction_set_ s') = [] ∧ k_ s' = k_ s ∧
        capacity_ s' = capacity_ s ∧
        current_timestamp_ s' = current_timestamp_ s + 1.
Proof.
  intros HE Hk Hts Hkey. unfold Put, bind, Evict. rewrite Hkey, HE.
  assert ((if N.of_nat (size (cache_ s)) <? capacity_ s
           then Normal () s else Evict_loop [] [] s) = Normal () s) as ->
    by (by destruct (_ <? _)).
  destruct s as [cap k idx [kc E] ts h]. simpl in *. subst E.
  unfold ResourceAccess. simpl.
  rewrite (proj2 (N.eqb_neq _ _) Hts), lookup_insert_eq. unfold hsize. simpl.
  destruct (N.eqb_spec (N.of_nat 0) k) as [?|_]; [lia|]. simpl.
  destruct (N.ltb_spec k (N.of_nat 1)) as [?|_]; [lia|]. simpl.
  destruct (N.eqb_spec (N.of_nat 1) k) as [?|_]; [lia|].
  eexists. split; [reflexivity|]. by simpl.
Qed.

Lemma puts_once_seen (kvs : list (K * V)) s :
  elems (eviction_set_ s) = [] → 2 ≤ k_ s →
  current_timestamp_ s + N.of_nat (length kvs) ≤ UINT64_MAX →
  NoDup kvs.*1 → (∀ key, key ∈ kvs.*1 → cache_ s !! key = None) →
  ∃ s', exec K_lt (map (λ kv, OpPut kv.1 kv.2) kvs) s = Some s' ∧
        size_ s' = size_ s + N.of_nat (length kvs) ∧
        elems (eviction_set_ s') = [] ∧ capacity_ s' = capacity_ s.
Proof.
  revert s. induction kvs as [|[key value] kvs IH]; intros s HE Hk Hts Hnd Hnew.
  - exists s. simpl. split_and!; try done. lia.
  - simpl in *. apply NoDup_cons in Hnd as [Hnot Hnd].
    destruct (Put_once_seen s key value HE Hk) as (s1 & -> & Hidx & HE1 & Hk1 & Hc1 & Hts1).
    { lia. }
    { apply Hnew. by left. }
    simpl. destruct (IH s1) as (s' & ? & Hsz & ? & ?); try done.
    + by rewrite Hk1.
    + lia.
    + intros key' Hin. rewrite Hidx, lookup_insert_ne.
      * apply Hnew. by right.
      * by intros ->.
    + exists s'. split_and!; try done; [|congruence].
      rewrite Hsz. unfold size_. rewrite Hidx, map_size_insert_None; [lia|].
      apply Hnew. by left.
Qed.

(** C6. An entry with fewer than K recorded accesses is never the one a put
    of a new key evicts; so, with K >= 2, a run of puts of distinct keys
    evicts nothing, [size()] equals the number of keys put, and it exceeds
    the capacity as soon as more keys than the capacity are put. *)
Theorem once_seen_keys_outgrow_capacity cap k (kvs : list (K * V)) s0 :
  2 ≤ k → NoDup kvs.*1 → N.of_nat (length kvs) ≤ UINT64_MAX →
  LRU_K_Cache cap k = inr s0 →
  (∀ (ops : list (op K V)) s key value key' p n,
     exec K_lt ops s0 = Some s → cache_ s !! key = None →
     cache_ s !! key' = Some p → heap s !! p = Some n → hsize n < k →
     ∃ s', final (Put K_lt key value s) = Some s' ∧ cache_ s' !! key' = Some p) ∧
  (∃ s, exec K_lt (map (λ kv, OpPut kv.1 kv.2) kvs) s0 = Some s ∧
        size_ s = N.of_nat (length kvs) ∧ elems (eviction_set_ s) = [] ∧
        (cap < N.of_nat (length kvs) → capacity_ s < size_ s)).
Proof.
  intros Hk Hnd Hlen Hnew. split.
  - intros ops s key value key' p n Hexec Hkey Hkey' Hn Hsub.
    destruct (reachable_inv cap k ops s0 ltac:(lia) Hnew)
      as (s' & Hexec' & Hinv & _ & _ & Hks).
    assert (s' = s) as -> by congruence. subst k.
    destruct (Put_new_final s key value Hinv Hkey)
      as (s1 & s' & He & _ & Hfin & _ & _ & _ & _ & Hidx & _).
    exists s'. split; [done|]. rewrite Hidx.
    rewrite lookup_insert_ne by (intros ->; congruence).
    destruct (Evict_spec s Hinv)
      as [[_ He']|[(_ & _ & He')|(_ & q & rest & m & _ & Hm & Hfull & _ & _ & He' & _)]];
      rewrite He' in He; simplify_eq; try done.
    simpl. rewrite lookup_delete_ne; [done|]. intros Heq.
    assert (q = p) as -> by (eapply (inv_keys_inj _ _ _ _ _ Hinv); eauto;
      destruct (inv_index _ _ Hinv _ _ Hkey') as (n' & Hn' & <-); congruence).
    simplify_eq. lia.
  - injection Hnew as <-.
    destruct (puts_once_seen kvs (mkCache cap k ∅ (mkSet (to_int k) []) 0 ∅))
      as (s & Hexec & Hsz & HE & Hc); simpl; try done.
    exists s. unfold size_ in Hsz. simpl in Hsz. rewrite map_size_empty in Hsz.
    split_and!; try done; rewrite ?Hc; unfold size_; simpl; lia.
Qed.

(** *** Construction *)

(** C4, as the code has it: the constructor validates nothing.  For every
    capacity and K, zero included, it returns an empty cache with clock 0
    that holds the configuration it was given; with K >= 1 (capacity 0
    included) every sequence of calls on that cache is defined. *)
Theorem constructor_accepts_any_configuration cap k :
  ∃ s0 : Cache K V,
    LRU_K_Cache cap k = inr s0 ∧
    capacity_ s0 = cap ∧ k_ s0 = k ∧ size_ s0 = 0 ∧ current_timestamp_ s0 = 0 ∧
    elems (eviction_set_ s0) = [] ∧
    (1 ≤ k → ∀ ops : list (op K V), ∃ s, exec K_lt ops s0 = Some s ∧
                                        capacity_ s = cap ∧ k_ s = k).
Proof.
  eexists. split; [reflexivity|]. simpl. split_and!; try done.
  intros Hk ops.
  destruct (reachable_inv cap k ops _ Hk eq_refl) as (s & ? & _ & _ & ? & ?).
  by exists s.
Qed.

(** *** Clock exhaustion *)

Lemma Evict_loop_timestamp (itr pre : list positive) s s' :
  Evict_loop pre itr s = Normal () s' →
  current_timestamp_ s' = current_timestamp_ s.
Proof.
  revert pre. induction itr as [|node rest IH]; intros pre; simpl.
  - by intros [= <-].
  - destruct (heap s !! node) as [n|]; [|done].
    destruct (is_evictable_ n); [by intros [= <-]|apply IH].
Qed.

Lemma Evict_timestamp s s' :
  Evict s = Normal () s' → current_timestamp_ s' = current_timestamp_ s.
Proof.
  unfold Evict. destruct (_ <? _); [by intros [= <-]|apply Evict_loop_timestamp].
Qed.

(** The paths that touch an existing entry validate the clock before they
    change anything. *)
Lemma Get_clock_exhausted s key :
  current_timestamp_ s = UINT64_MAX → is_Some (cache_ s !! key) →
  Get K_lt key s = Thrown (runtime_error "Timestamp overflow in LRU-K Cache") s.
Proof.
  intros Hmax [node Hnode]. unfold Get, bind.
  by rewrite Hnode, ResourceAccess_thrown.
Qed.

Lemma Put_existing_clock_exhausted s key value :
  current_timestamp_ s = UINT64_MAX → is_Some (cache_ s !! key) →
  Put K_lt key value s =
    Thrown (runtime_error "Timestamp overflow in LRU-K Cache") s.
Proof.
  intros Hmax [node Hnode]. unfold Put, bind.
  by rewrite Hnode, ResourceAccess_thrown.
Qed.

(** The path that inserts a new key evicts and indexes the new node first,
    and only then reaches the clock check. *)
Lemma Put_new_clock_exhausted s s1 key value :
  current_timestamp_ s = UINT64_MAX → cache_ s !! key = None →
  Evict s = Normal () s1 →
  ∃ s', Put K_lt key value s =
          Thrown (runtime_error "Timestamp overflow in LRU-K Cache") s' ∧
        cache_ s' = <[key := fresh (dom (heap s1))]> (cache_ s1) ∧
        heap s' = <[fresh (dom (heap s1)) := mkLRUNode key value [] false]> (heap s1) ∧
        eviction_set_ s' = eviction_set_ s1 ∧ s' ≠ s.
Proof.
  intros Hmax Hkey He. unfold Put, bind. rewrite Hkey, He.
  rewrite ResourceAccess_thrown.
  - eexists. split; [reflexivity|]. simpl. split_and!; try done.
    intros Heq. apply (f_equal (λ st, cache_ st !! key)) in Heq. simpl in Heq.
    by rewrite lookup_insert_eq, Hkey in Heq.
  - simpl. rewrite <- Hmax. by apply Evict_timestamp.
Qed.

(** *** Calls that record an access *)

Import LruKViews.

Lemma recorded_eq (k ts : N) (h : list N) :
  N.of_nat (length h) ≤ k →
  recorded k ts h =
    (if N.of_nat (length h) =? k then tail (h ++ [ts]) else h ++ [ts]).
Proof.
  intros Hle. unfold recorded. rewrite length_app. simpl.
  destruct (N.ltb_spec k (N.of_nat (length h + 1))),
    (N.eqb_spec (N.of_nat (length h)) k); try done; lia.
Qed.

Lemma recorded_length (k ts : N) (h : list N) :
  1 ≤ k → N.of_nat (length h) ≤ k →
  N.of_nat (length (recorded k ts h)) = N.min k (N.of_nat (length h) + 1).
Proof.
  intros Hk Hle. unfold recorded.
  destruct (N.ltb_spec k (N.of_nat (length (h ++ [ts])))) as [Hlt|Hge];
    rewrite ?length_tl, length_app in *; simpl in *; lia.
Qed.

Lemma Get_hit s key node n :
  inv K_lt s → cache_ s !! key = Some node → heap s !! node = Some n →
  current_timestamp_ s ≠ UINT64_MAX →
  ∃ s' n',
    Get K_lt key s = Normal (Some (value_ n)) s' ∧ inv K_lt s' ∧
    capacity_ s' = capacity_ s ∧ k_ s' = k_ s ∧ cache_ s' = cache_ s ∧
    current_timestamp_ s' = current_timestamp_ s + 1 ∧
    heap s' = <[node := n']> (heap s) ∧
    key_ n' = key_ n ∧ value_ n' = value_ n ∧
    history_ n' = recorded (k_ s) (current_timestamp_ s + 1) (history_ n).
Proof.
  intros Hinv Hkey Hn Hts.
  destruct (ResourceAccess_ok s node n Hinv Hn Hts)
    as (s' & n' & Hra & Hinv' & ? & ? & ? & ? & Hh & ? & Hv & Hhist).
  exists s', n'. split_and!; try done.
  - unfold Get, bind. by rewrite Hkey, Hra, Hh, lookup_insert_eq, Hv.
  - rewrite recorded_eq; [done|]. by apply (inv_hist _ _ Hinv _ _ Hn).
Qed.

Lemma Put_hit s key value node n :
  inv K_lt s → cache_ s !! key = Some node → heap s !! node = Some n →
  current_timestamp_ s ≠ UINT64_MAX →
  ∃ s' n',
    Put K_lt key value s = Normal () s' ∧ inv K_lt s' ∧
    capacity_ s' = capacity_ s ∧ k_ s' = k_ s ∧ cache_ s' = cache_ s ∧
    current_timestamp_ s' = current_timestamp_ s + 1 ∧
    heap s' = <[node := n']> (heap s) ∧
    key_ n' = key_ n ∧ value_ n' = value ∧
    history_ n' = recorded (k_ s) (current_timestamp_ s + 1) (history_ n).
Proof.
  intros Hinv Hkey Hn Hts.
  destruct (ResourceAccess_ok s node n Hinv Hn Hts)
    as (s' & n' & Hra & Hinv' & Hc & Hk & Hidx & Hclk & Hh & Hkn & Hv & Hhist).
  assert (Hn' : heap s' !! node = Some n') by (by rewrite Hh, lookup_insert_eq).
  eexists _, (mkLRUNode (key_ n') value (history_ n') (is_evictable_ n')).
  split.
  { unfold Put, bind. rewrite Hkey, Hra, Hn'. reflexivity. }
  simpl. rewrite Hh, insert_insert_eq. split_and!; try done.
  - destruct s' as [cap k idx [kc E] ts h]. simpl in *. subst h.
    rewrite <- (insert_insert_eq (heap s) node
      (mkLRUNode (key_ n') value (history_ n') (is_evictable_ n')) n').
    eapply inv_update; eauto.
  - rewrite recorded_eq; [done|]. by apply (inv_hist _ _ Hinv _ _ Hn).
Qed.

Lemma Put_miss s key value :
  inv K_lt s → cache_ s !! key = None →
  current_timestamp_ s ≠ UINT64_MAX →
  ∃ s1 s' n',
    Evict s = Normal () s1 ∧ inv K_lt s1 ∧
    cache_ s1 !! key = None ∧ heap s1 !! fresh (dom (heap s1)) = None ∧
    Put K_lt key value s = Normal () s' ∧ inv K_lt s' ∧
    capacity_ s' = capacity_ s ∧ k_ s' = k_ s ∧
    cache_ s' = <[key := fresh (dom (heap s1))]> (cache_ s1) ∧
    current_timestamp_ s' = current_timestamp_ s + 1 ∧
    heap s' = <[fresh (dom (heap s1)) := n']> (heap s1) ∧
    key_ n' = key ∧ value_ n' = value ∧
    history_ n' = [current_timestamp_ s + 1].
Proof.
  intros Hinv Hkey Hts.
  assert (∃ s1, Evict s = Normal () s1 ∧ inv K_lt s1 ∧
                capacity_ s1 = capacity_ s ∧ k_ s1 = k_ s ∧
                current_timestamp_ s1 = current_timestamp_ s ∧
                cache_ s1 !! key = None)
    as (s1 & He & Hinv1 & Hc1 & Hk1 & Hts1 & Hkey1).
  { destruct (Evict_spec s Hinv)
      as [[_ ->]|[(_ & _ & ->)|(_ & p & rest & n & _ & _ & _ & _ & _ & -> & Hi)]];
      [by exists s|by exists s|].
    eexists. split; [done|]. split; [done|]. simpl.
    split_and!; try done. by apply lookup_delete_None; right. }
  set (node := fresh (dom (heap s1))).
  assert (Hfresh : heap s1 !! node = None) by (apply not_elem_of_dom, is_fresh).
  set (s3 := with_cache (<[key := node]> (cache_ s1))
               (with_heap (<[node := mkLRUNode key value [] false]> (heap s1)) s1)).
  assert (Hinv3 : inv K_lt s3).
  { subst s3. destruct s1 as [cap k idx [kc E] ts h]. simpl in *.
    by apply inv_alloc. }
  assert (Hn3 : heap s3 !! node = Some (mkLRUNode key value [] false)).
  { subst s3. simpl. by rewrite lookup_insert_eq. }
  destruct (ResourceAccess_ok s3 node _ Hinv3 Hn3)
    as (s' & n' & Hra & Hinv' & Hc & Hk & Hidx & Hclk & Hh & Hkn & Hv & Hhist).
  { subst s3. simpl. by rewrite Hts1. }
  exists s1, s', n'. split_and!; try done.
  - unfold Put, bind. rewrite Hkey, He. exact Hra.
  - by rewrite Hc.
  - by rewrite Hk.
  - rewrite Hclk. subst s3. simpl. by rewrite Hts1.
  - rewrite Hh. subst s3. simpl. by rewrite insert_insert_eq.
  - rewrite Hhist. unfold hsize. simpl. subst s3. simpl. rewrite Hk1, Hts1.
    pose proof (inv_k _ _ Hinv).
    destruct (N.eqb_spec (N.of_nat 0) (k_ s)); [lia|done].
Qed.

(** *** A comparator whose threshold does not fit an [int] *)

(** For K from 2^31 up to 2^32 - 1 the [int] field of the comparator is
    negative, and compared with a [size_t] it is larger than every history
    size. *)
Lemma to_size_t_to_int_narrowed (kk : N) :
  2 ^ 31 ≤ kk → kk < 2 ^ 32 → to_size_t (to_int kk) = 2 ^ 64 - 2 ^ 32 + kk.
Proof.
  intros Hlo Hhi. unfold to_size_t, to_int.
  assert (2 ^ 31 ≤ Z.of_N kk < 2 ^ 32)%Z as Hz by lia.
  rewrite (Z.mod_small (Z.of_N kk) (2 ^ 32)) by lia.
  destruct (Z.ltb_spec (Z.of_N kk) (2 ^ 31)); [lia|].
  rewrite <- (Z_mod_plus_full (Z.of_N kk - 2 ^ 32) 1 (2 ^ 64)).
  rewrite Z.mod_small by lia. lia.
Qed.

Lemma exec_app (ops1 ops2 : list (op K V)) s s1 :
  exec K_lt ops1 s = Some s1 → exec K_lt (ops1 ++ ops2) s = exec K_lt ops2 s1.
Proof.
  revert s. induction ops1 as [|o ops1 IH]; intros s; cbn [app exec].
  - by intros [= <-].
  - destruct (step K_lt o s) as [s'|]; [apply IH|done].
Qed.

(** Repeated puts of an indexed key that stay below K accesses only append
    to its history: the oldest timestamp stays, the size grows by one per
    call. *)
Lemma Put_again (j : nat) s key value node n :
  inv K_lt s → cache_ s !! key = Some node → heap s !! node = Some n →
  1 ≤ hsize n → hsize n + N.of_nat j ≤ k_ s →
  current_timestamp_ s + N.of_nat j < UINT64_MAX →
  ∃ s' n',
    exec K_lt (replicate j (OpPut key value)) s = Some s' ∧ inv K_lt s' ∧
    capacity_ s' = capacity_ s ∧ k_ s' = k_ s ∧ cache_ s' = cache_ s ∧
    current_timestamp_ s' = current_timestamp_ s + N.of_nat j ∧
    heap s' = <[node := n']> (heap s) ∧
    hsize n' = hsize n + N.of_nat j ∧ front n' = front n.
Proof.
  revert s n. induction j as [|j IH]; intros s n Hinv Hkey Hn Hne Hk Hts.
  - exists s, n. cbn [replicate exec]. split_and!; try done; try lia.
    by rewrite insert_id.
  - destruct (Put_hit s key value node n Hinv Hkey Hn)
      as (s1 & n1 & Hput & Hinv1 & Hc1 & Hk1 & Hidx1 & Hts1 & Hh1 & _ & _ & Hhist1);
      [lia|].
    rewrite recorded_eq in Hhist1 by (apply (inv_hist _ _ Hinv _ _ Hn)).
    fold (hsize n) in Hhist1.
    destruct (N.eqb_spec (hsize n) (k_ s)) as [?|_]; [lia|].
    assert (hsize n1 = hsize n + 1) as Hsz1.
    { unfold hsize. rewrite Hhist1, length_app. simpl. lia. }
    assert (front n1 = front n) as Hfr1.
    { unfold front. rewrite Hhist1. unfold hsize in Hne.
      destruct (history_ n); [simpl in Hne; lia|done]. }
    destruct (IH s1 n1) as (s' & n' & Hexec & ? & ? & ? & ? & ? & Hh' & ? & ?);
      try done; try lia.
    { by rewrite Hidx1. }
    { by rewrite Hh1, lookup_insert_eq. }
    exists s', n'. cbn [replicate exec step]. rewrite Hput. cbn [final].
    split_and!; try done; try congruence; try lia.
    by rewrite Hh', Hh1, insert_insert_eq.
Qed.

(** With such a K and capacity 2, [key2] is put K times and then [key1],
    the smaller key, K times.  Both entries then have K accesses, and the
    K-th most recent access of [key2] is the older one; a [Put] of a third
    key nevertheless evicts [key1], the first in key order. *)
Lemma narrowed_comparator_run (kk : N) (j : nat) (key1 key2 key3 : K) (v1 v2 v3 : V) :
  2 ^ 31 ≤ kk → kk < 2 ^ 32 → N.of_nat j = kk - 1 →
  K_lt key1 key2 = true → key3 ≠ key1 → key3 ≠ key2 →
  ∃ s s' hist1 hist2,
    exec K_lt (OpPut key2 v2 :: replicate j (OpPut key2 v2) ++
               OpPut key1 v1 :: replicate j (OpPut key1 v1))
      (mkCache 2 kk ∅ (mkSet (to_int kk) []) 0 ∅) = Some s ∧
    size_ s = capacity_ s ∧
    history_of s key1 = Some hist1 ∧ history_of s key2 = Some hist2 ∧
    N.of_nat (length hist1) = kk ∧ N.of_nat (length hist2) = kk ∧
    hd 0 hist1 = kk + 1 ∧ hd 0 hist2 = 1 ∧
    Put K_lt key3 v3 s = Normal () s' ∧
    cache_ s' !! key1 = None ∧ is_Some (cache_ s' !! key2).
Proof.
  intros Hlo Hhi Hj Hlt Hk31 Hk32.
  assert (key1 ≠ key2) as Hk12 by (intros ->; by rewrite K_lt_irrefl in Hlt).
  assert (UINT64_MAX = 18446744073709551615) as Hmax by done.
  set (s0 := mkCache 2 kk ∅ (mkSet (to_int kk) []) 0 ∅ : Cache K V).
  assert (inv K_lt s0) as Hinv0 by (apply inv_init; lia).
  assert (∀ s, inv K_lt s → size_ s < capacity_ s → Evict s = Normal () s) as Hroom.
  { intros s Hinv Hsz.
    destruct (Evict_spec s Hinv) as [[_ ?]|[(? & _)|(? & _)]]; [done|lia|lia]. }
  (* the first put of key2 *)
  destruct (Put_miss s0 key2 v2 Hinv0)
    as (sE & sA & n2 & HeA & _ & _ & HfrA & HputA & HinvA & HcA & HkA & HidxA & HtsA &
        HhA & _ & _ & HhistA); [done|by rewrite Hmax|].
  rewrite Hroom in HeA by (try done; unfold size_; simpl; rewrite map_size_empty; lia).
  injection HeA as <-. simpl in HcA, HkA, HidxA, HtsA, HhA, HhistA, HfrA.
  set (p2 := fresh (dom (∅ : gmap positive (LRUNode K V)))) in *.
  (* the further puts of key2 *)
  destruct (Put_again j sA key2 v2 p2 n2 HinvA)
    as (sB & n2' & HexB & HinvB & HcB & HkB & HidxB & HtsB & HhB & Hsz2 & Hfr2).
  { by rewrite HidxA, lookup_insert_eq. }
  { by rewrite HhA, lookup_insert_eq. }
  { unfold hsize. rewrite HhistA. simpl. lia. }
  { unfold hsize. rewrite HhistA, HkA. simpl. lia. }
  { rewrite HtsA, Hmax. lia. }
  assert (heap sB !! p2 = Some n2') as Hn2B by (by rewrite HhB, lookup_insert_eq).
  (* the first put of key1 *)
  assert (cache_ sB !! key1 = None) as Hkey1B.
  { by rewrite HidxB, HidxA, lookup_insert_ne, lookup_empty. }
  destruct (Put_miss sB key1 v1 HinvB Hkey1B)
    as (sE & sC & n1 & HeC & _ & _ & HfrC & HputC & HinvC & HcC & HkC & HidxC & HtsC &
        HhC & _ & _ & HhistC); [rewrite HtsB, HtsA, Hmax; lia|].
  rewrite Hroom in HeC; [|done|].
  2:{ unfold size_. rewrite HidxB, HidxA, HcB, HcA, map_size_insert_None, map_size_empty
        by apply lookup_empty. simpl. lia. }
  injection HeC as <-.
  set (p1 := fresh (dom (heap sB))) in *.
  assert (p1 ≠ p2) as Hp by (intros Heq; rewrite Heq in HfrC; congruence).
  (* the further puts of key1 *)
  destruct (Put_again j sC key1 v1 p1 n1 HinvC)
    as (sD & n1' & HexD & HinvD & HcD & HkD & HidxD & HtsD & HhD & Hsz1 & Hfr1).
  { by rewrite HidxC, lookup_insert_eq. }
  { by rewrite HhC, lookup_insert_eq. }
  { unfold hsize. rewrite HhistC. simpl. lia. }
  { unfold hsize. rewrite HhistC, HkC, HkB, HkA. simpl. lia. }
  { rewrite HtsC, HtsB, HtsA, Hmax. lia. }
  assert (cache_ sD = <[key1 := p1]> (<[key2 := p2]> ∅)) as Hidx
    by (by rewrite HidxD, HidxC, HidxB, HidxA).
  assert (heap sD !! p1 = Some n1') as Hn1 by (by rewrite HhD, lookup_insert_eq).
  assert (heap sD !! p2 = Some n2') as Hn2.
  { rewrite HhD, lookup_insert_ne, HhC, lookup_insert_ne by done. exact Hn2B. }
  assert (hsize n1' = kk ∧ hsize n2' = kk) as [Hfull1 Hfull2].
  { rewrite Hsz1, Hsz2. unfold hsize. rewrite HhistC, HhistA. simpl. lia. }
  assert (k_ sD = kk) as HkkD by congruence.
  assert (size (cache_ sD) = 2%nat) as HsizeD.
  { rewrite Hidx, !map_size_insert_None, map_size_empty; [done|apply lookup_empty|].
    by rewrite lookup_insert_ne. }
  (* the put of the third key *)
  assert (cache_ sD !! key3 = None) as Hkey3.
  { by rewrite Hidx, !lookup_insert_ne, lookup_empty. }
  destruct (Put_miss sD key3 v3 HinvD Hkey3)
    as (sE & s' & n3 & HeE & _ & _ & _ & HputE & _ & _ & _ & HidxE & _);
    [rewrite HtsD, HtsC, HtsB, HtsA, Hmax; lia|].
  assert (cache_ sE = delete key1 (cache_ sD)) as HidxEv.
  { destruct (Evict_spec sD HinvD)
      as [[Hsz _]|[(_ & HE & _)|(_ & p & rest & n & HE & Hn & Hfull & Hpn & _ & He & _)]].
    - unfold size_ in Hsz. rewrite HsizeD in Hsz. assert (capacity_ sD = 2) by congruence. lia.
    - assert (p1 ∈ elems (eviction_set_ sD)) as Hin
        by (apply (inv_member _ _ HinvD); exists n1'; split; [done|congruence]).
      rewrite HE in Hin. by apply elem_of_nil in Hin.
    - rewrite He in HeE. injection HeE as <-. simpl.
      assert (key_ n = key1) as ->; [|done].
      assert (cache_ sD !! key1 = Some p1) as Hc1 by (by rewrite Hidx, lookup_insert_eq).
      destruct (decide (key_ n = key1)) as [?|Hne]; [done|exfalso].
      assert (key_ n = key2 ∧ p = p2) as [Hkn ->].
      { rewrite Hidx, lookup_insert_ne in Hpn by done.
        destruct (decide (key_ n = key2)) as [Heq|Hne2].
        - rewrite Heq, lookup_insert_eq in Hpn. by injection Hpn as <-.
        - by rewrite lookup_insert_ne, lookup_empty in Hpn. }
      assert (n = n2') as -> by congruence.
      assert (p1 ∈ rest) as Hin.
      { assert (p1 ∈ elems (eviction_set_ sD)) as Hin
          by (apply (inv_member _ _ HinvD); exists n1'; split; [done|congruence]).
        rewrite HE in Hin. apply elem_of_cons in Hin as [?|?]; done. }
      pose proof (inv_sorted _ _ HinvD) as Hsort. rewrite HE in Hsort.
      apply StronglySorted_inv in Hsort as [_ Hall].
      apply (proj1 (Forall_forall _ _) Hall) in Hin.
      unfold cmp_of, Compare_ptr in Hin. rewrite Hn2, Hn1 in Hin.
      unfold Compare in Hin.
      rewrite (inv_comp _ _ HinvD), HkkD, to_size_t_to_int_narrowed in Hin by done.
      rewrite Hfull1, Hfull2 in Hin.
      destruct (N.ltb_spec kk (2 ^ 64 - 2 ^ 32 + kk)) as [_|?]; [|lia].
      simpl in Hin.
      assert (key_ n1' = key1) as Hk1'.
      { destruct (inv_index _ _ HinvD _ _ Hc1) as (m & Hm & <-). congruence. }
      rewrite Hkn, Hk1' in Hin.
      pose proof (K_lt_trans _ _ _ Hlt Hin) as Hcyc. by rewrite K_lt_irrefl in Hcyc. }
  exists sD, s', (history_ n1'), (history_ n2').
  split.
  { cbn [exec step]. rewrite HputA. cbn [final].
    rewrite (exec_app _ _ _ _ HexB). cbn [exec step]. rewrite HputC. cbn [final].
    exact HexD. }
  split_and!.
  - unfold size_. rewrite HsizeD. assert (capacity_ sD = 2) as -> by congruence. done.
  - unfold history_of. by rewrite Hidx, lookup_insert_eq; simpl; rewrite Hn1.
  - unfold history_of. by rewrite Hidx, lookup_insert_ne, lookup_insert_eq by done;
      simpl; rewrite Hn2.
  - exact Hfull1.
  - exact Hfull2.
  - fold (front n1'). rewrite Hfr1. unfold front. rewrite HhistC, HtsB, HtsA. simpl. lia.
  - fold (front n2'). rewrite Hfr2. unfold front. by rewrite HhistA.
  - exact HputE.
  - by rewrite HidxE, HidxEv, lookup_insert_ne, lookup_delete_eq.
  - rewrite HidxE, HidxEv, lookup_insert_ne, lookup_delete_ne, Hidx, lookup_insert_ne,
      lookup_insert_eq by done. eauto.
Qed.

(** *** What one call does to the store *)

Lemma Evict_sub s :
  inv K_lt s →
  ∃ s1, Evict s = Normal () s1 ∧ inv K_lt s1 ∧
        capacity_ s1 = capacity_ s ∧ k_ s1 = k_ s ∧
        current_timestamp_ s1 = current_timestamp_ s ∧
        (∀ p m, heap s1 !! p = Some m → heap s !! p = Some m) ∧
        (∀ key p, cache_ s1 !! key = Some p → cache_ s !! key = Some p).
Proof.
  intros Hinv.
  destruct (Evict_spec s Hinv)
    as [[_ ->]|[(_ & _ & ->)|(_ & p & rest & n & _ & _ & _ & _ & _ & -> & Hi)]];
    [by exists s|by exists s|].
  eexists. split; [done|]. split; [done|]. simpl. split_and!; try done.
  - by intros q m [_ ?]%lookup_delete_Some.
  - by intros key q [_ ?]%lookup_delete_Some.
Qed.

Lemma recorded_elem (k ts t : N) (h : list N) :
  t ∈ recorded k ts h → t ∈ h ∨ t = ts.
Proof.
  unfold recorded. intros Ht.
  assert (t ∈ h ++ [ts]) as [?|?%list_elem_of_singleton]%elem_of_app; auto.
  destruct (k <? _); [|done].
  destruct (h ++ [ts]); [done|]. simpl in Ht. by right.
Qed.

Lemma recorded_nil (k ts : N) : 1 ≤ k → recorded k ts [] = [ts].
Proof.
  intros Hk. unfold recorded. simpl. destruct (N.ltb_spec k (N.of_nat 1)); [lia|done].
Qed.

(** After any call every node of the store is of one of three kinds: the one
    node the call recorded an access for, a node the call did not touch the
    history of, or the node with empty history that a [Put] of a new key
    leaves behind when the clock is exhausted. *)
Lemma step_shape (o : op K V) s :
  inv K_lt s →
  ∃ s' (touched : option positive),
    step K_lt o s = Some s' ∧ inv K_lt s' ∧
    capacity_ s' = capacity_ s ∧ k_ s' = k_ s ∧
    (current_timestamp_ s' = current_timestamp_ s ∨
     (current_timestamp_ s ≠ UINT64_MAX ∧
      current_timestamp_ s' = current_timestamp_ s + 1)) ∧
    ∀ p n', heap s' !! p = Some n' →
      (history_ n' = [] ∧ current_timestamp_ s = UINT64_MAX) ∨
      (touched = Some p ∧ current_timestamp_ s ≠ UINT64_MAX ∧
       ∃ hist, (hist = [] ∨ ∃ n, heap s !! p = Some n ∧ hist = history_ n) ∧
            history_ n' = recorded (k_ s) (current_timestamp_ s + 1) hist) ∨
      (∃ n, heap s !! p = Some n ∧ history_ n' = history_ n).
Proof.
  intros Hinv.
  assert (Hsame : ∃ s' (touched : option positive),
    Some s = Some s' ∧ inv K_lt s' ∧
    capacity_ s' = capacity_ s ∧ k_ s' = k_ s ∧
    (current_timestamp_ s' = current_timestamp_ s ∨
     (current_timestamp_ s ≠ UINT64_MAX ∧
      current_timestamp_ s' = current_timestamp_ s + 1)) ∧
    ∀ p n', heap s' !! p = Some n' →
      (history_ n' = [] ∧ current_timestamp_ s = UINT64_MAX) ∨
      (touched = Some p ∧ current_timestamp_ s ≠ UINT64_MAX ∧
       ∃ hist, (hist = [] ∨ ∃ n, heap s !! p = Some n ∧ hist = history_ n) ∧
            history_ n' = recorded (k_ s) (current_timestamp_ s + 1) hist) ∨
      (∃ n, heap s !! p = Some n ∧ history_ n' = history_ n)).
  { exists s, None. split_and!; auto. intros p n' Hn'. right; right. eauto. }
  assert (Htouch : ∀ s' node n n',
    inv K_lt s' → capacity_ s' = capacity_ s → k_ s' = k_ s →
    current_timestamp_ s ≠ UINT64_MAX →
    current_timestamp_ s' = current_timestamp_ s + 1 →
    heap s !! node = Some n → heap s' = <[node := n']> (heap s) →
    history_ n' = recorded (k_ s) (current_timestamp_ s + 1) (history_ n) →
    ∃ s'' (touched : option positive),
    Some s' = Some s'' ∧ inv K_lt s'' ∧
    capacity_ s'' = capacity_ s ∧ k_ s'' = k_ s ∧
    (current_timestamp_ s'' = current_timestamp_ s ∨
     (current_timestamp_ s ≠ UINT64_MAX ∧
      current_timestamp_ s'' = current_timestamp_ s + 1)) ∧
    ∀ p n', heap s'' !! p = Some n' →
      (history_ n' = [] ∧ current_timestamp_ s = UINT64_MAX) ∨
      (touched = Some p ∧ current_timestamp_ s ≠ UINT64_MAX ∧
       ∃ hist, (hist = [] ∨ ∃ n, heap s !! p = Some n ∧ hist = history_ n) ∧
            history_ n' = recorded (k_ s) (current_timestamp_ s + 1) hist) ∨
      (∃ n, heap s !! p = Some n ∧ history_ n' = history_ n)).
  { intros s' node n n' Hinv' Hc Hk Hts Hclk Hn Hh Hhist.
    exists s', (Some node). split_and!; auto. intros p m. rewrite Hh.
    destruct (decide (p = node)) as [->|Hne].
    - rewrite lookup_insert_eq. intros [= <-]. right; left.
      split_and!; try done. exists (history_ n). split; [|done]. right. eauto.
    - rewrite lookup_insert_ne by done. intros Hm. right; right. eauto. }
  destruct o as [key|key value|key|key|]; simpl; try exact Hsame.
  - destruct (cache_ s !! key) as [node|] eqn:Hkey.
    + destruct (decide (current_timestamp_ s = UINT64_MAX)) as [Hmax|Hmax].
      * rewrite Get_clock_exhausted by eauto. exact Hsame.
      * destruct (inv_index _ _ Hinv _ _ Hkey) as (n & Hn & _).
        destruct (Get_hit s key node n Hinv Hkey Hn Hmax)
          as (s' & n' & -> & ? & ? & ? & _ & ? & ? & _ & _ & ?).
        simpl. by apply (Htouch s' node n n').
    + unfold Get. rewrite Hkey. exact Hsame.
  - destruct (cache_ s !! key) as [node|] eqn:Hkey.
    + destruct (decide (current_timestamp_ s = UINT64_MAX)) as [Hmax|Hmax].
      * rewrite Put_existing_clock_exhausted by eauto. exact Hsame.
      * destruct (inv_index _ _ Hinv _ _ Hkey) as (n & Hn & _).
        destruct (Put_hit s key value node n Hinv Hkey Hn Hmax)
          as (s' & n' & -> & ? & ? & ? & _ & ? & ? & _ & _ & ?).
        simpl. by apply (Htouch s' node n n').
    + destruct (Evict_sub s Hinv) as (s1 & He & Hinv1 & Hc1 & Hk1 & Hts1 & Hsub & _).
      destruct (decide (current_timestamp_ s = UINT64_MAX)) as [Hmax|Hmax].
      * destruct (Put_new_final s key value Hinv Hkey)
          as (s1' & s' & He' & _ & Hfin & Hinv' & Hc & Hk & _).
        assert (s1' = s1) as -> by congruence.
        assert (Hput : Put K_lt key value s =
          Thrown (runtime_error "Timestamp overflow in LRU-K Cache")
            (with_cache (<[key := fresh (dom (heap s1))]> (cache_ s1))
               (with_heap (<[fresh (dom (heap s1)) := mkLRUNode key value [] false]>
                             (heap s1)) s1))).
        { unfold Put, bind. rewrite Hkey, He. apply ResourceAccess_thrown.
          simpl. congruence. }
        rewrite Hput in Hfin |- *. simpl in Hfin |- *.
        exists s', None. split; [done|]. injection Hfin as <-. simpl.
        split_and!; auto.
        intros p m. destruct (decide (p = fresh (dom (heap s1)))) as [->|Hne].
        -- rewrite lookup_insert_eq. intros [= <-]. by left.
        -- rewrite lookup_insert_ne by done. intros Hm. right; right. eauto.
      * destruct (Put_miss s key value Hinv Hkey Hmax)
          as (s1' & s' & n' & He' & _ & _ & _ & -> & ? & ? & ? & _ & ? & Hh & _ & _ & Hhist).
        assert (s1' = s1) as -> by congruence. simpl.
        exists s', (Some (fresh (dom (heap s1)))). split_and!; auto.
        intros p m. rewrite Hh.
        destruct (decide (p = fresh (dom (heap s1)))) as [->|Hne].
        -- rewrite lookup_insert_eq. intros [= <-]. right; left.
           split_and!; try done. exists []. split; [by left|].
           rewrite recorded_nil; [done|]. apply (inv_k _ _ Hinv).
        -- rewrite lookup_insert_ne by done. intros Hm. right; right. eauto.
  - destruct (cache_ s !! key) as [node|] eqn:Hkey.
    + destruct (Remove_present s key node Hinv Hkey)
        as (n & s' & _ & _ & -> & ? & ? & ? & Hts & _ & Hh & _). simpl.
      exists s', None. split_and!; auto. intros p m. rewrite Hh.
      intros [_ Hm]%lookup_delete_Some. right; right. eauto.
    + rewrite Remove_absent by done. exact Hsame.
Qed.

Lemma step_unique (o : op K V) s s' :
  inv K_lt s → clock_ok s → stamps_unique s →
  step K_lt o s = Some s' → stamps_unique s'.
Proof.
  intros Hinv Hok Huniq Hstep.
  destruct (step_shape o s Hinv) as (s'' & touched & Hstep' & _ & _ & _ & _ & Hshape).
  assert (s'' = s') as -> by congruence.
  assert (Hnew : ∀ p q n' m (hist : list N) t,
    (hist = [] ∨ ∃ n, heap s !! p = Some n ∧ hist = history_ n) →
    t ∈ recorded (k_ s) (current_timestamp_ s + 1) hist →
    heap s !! q = Some m → t ∈ history_ m → heap s' !! p = Some n' → p = q).
  { intros p q n' m h t Hh Ht Hm Htm _.
    destruct (Hok _ _ Hm) as [_ Hall].
    apply (proj1 (Forall_forall _ _) Hall) in Htm as Hle.
    apply recorded_elem in Ht as [Ht| ->]; [|lia].
    destruct Hh as [->|(n & Hn & ->)]; [by apply elem_of_nil in Ht|].
    by apply (Huniq p q n m t). }
  intros p q n' m' t Hn' Hm' Ht Ht'.
  destruct (Hshape _ _ Hn') as [[Hnil _]|[(Hp & _ & h & Hh & Hhist)|(n & Hn & Hhist)]];
    [rewrite Hnil in Ht; by apply elem_of_nil in Ht| |];
    (destruct (Hshape _ _ Hm') as [[Hnil _]|[(Hq & _ & h' & Hh' & Hhist')|(m & Hm & Hhist')]];
     [rewrite Hnil in Ht'; by apply elem_of_nil in Ht'| |]).
  - congruence.
  - rewrite Hhist in Ht. rewrite Hhist' in Ht'. by apply (Hnew p q n' m h t).
  - rewrite Hhist in Ht. rewrite Hhist' in Ht'. symmetry.
    by apply (Hnew q p m' n h' t).
  - rewrite Hhist in Ht. rewrite Hhist' in Ht'. by apply (Huniq p q n m t).
Qed.

Lemma step_accessed (o : op K V) s s' :
  inv K_lt s → accessed s → step K_lt o s = Some s' → accessed s'.
Proof.
  intros Hinv [Hle Hne] Hstep.
  destruct (step_shape o s Hinv) as (s'' & touched & Hstep' & _ & _ & _ & Hts & Hshape).
  assert (s'' = s') as -> by congruence.
  split; [lia|]. intros Hlt p n' Hn'.
  destruct (Hshape _ _ Hn') as [[_ Hmax]|[(_ & _ & h & Hh & ->)|(n & Hn & ->)]].
  - lia.
  - intros Hnil. apply (f_equal length) in Hnil. revert Hnil. unfold recorded.
    destruct (N.ltb_spec (k_ s) (N.of_nat (length (h ++ [current_timestamp_ s + 1])))) as [Hk|Hk];
      rewrite ?length_tl, length_app; simpl; [|lia].
    rewrite length_app in Hk. simpl in Hk. pose proof (inv_k _ _ Hinv). lia.
  - apply (Hne ltac:(lia) p n Hn).
Qed.

Lemma exec_history (ops : list (op K V)) s :
  inv K_lt s → clock_ok s → stamps_unique s → accessed s →
  ∃ s', exec K_lt ops s = Some s' ∧ inv K_lt s' ∧ clock_ok s' ∧
        stamps_unique s' ∧ accessed s' ∧
        capacity_ s' = capacity_ s ∧ k_ s' = k_ s ∧
        current_timestamp_ s ≤ current_timestamp_ s' ≤
          current_timestamp_ s + N.of_nat (length ops).
Proof.
  revert s. induction ops as [|o ops IH]; intros s Hinv Hok Huniq Hacc.
  { exists s. split_and!; try done; simpl; lia. }
  cbn [exec length].
  destruct (step_inv o s Hinv) as (s1 & Hstep & Hinv1 & Hc1 & Hk1 & Hok1).
  destruct (step_shape o s Hinv) as (s1' & _ & Hstep' & _ & _ & _ & Hts & _).
  assert (s1' = s1) as -> by congruence.
  rewrite Hstep.
  destruct (IH s1 Hinv1 (Hok1 Hok) (step_unique o s s1 Hinv Hok Huniq Hstep)
              (step_accessed o s s1 Hinv Hacc Hstep))
    as (s' & ? & ? & ? & ? & ? & ? & ? & ?).
  exists s'. split_and!; try done; try congruence; lia.
Qed.

Lemma reachable_history cap k (ops : list (op K V)) s0 :
  1 ≤ k → LRU_K_Cache cap k = inr s0 →
  ∃ s, exec K_lt ops s0 = Some s ∧ inv K_lt s ∧ clock_ok s ∧
       stamps_unique s ∧ accessed s ∧ capacity_ s = cap ∧ k_ s = k ∧
       current_timestamp_ s ≤ N.of_nat (length ops).
Proof.
  intros Hk [= <-].
  destruct (exec_history ops (mkCache cap k ∅ (mkSet (to_int k) []) 0 ∅))
    as (s & ? & ? & ? & ? & ? & ? & ? & ?).
  - by apply inv_init.
  - apply clock_ok_init.
  - intros p q n m t. simpl. by rewrite lookup_empty.
  - split; simpl; [done|]. intros _ p n. by rewrite lookup_empty.
  - exists s. split_and!; try done. simpl in *. lia.
Qed.

(** *** Further properties *)

(** Over a strict total order of the keys, [Compare::operator()] is the
    strict ordering [std::set] requires, for every value of its [k_] other
    than 0: it reads [front()] of non-empty histories only, it is
    irreflexive, asymmetric and transitive, it decides between any two nodes
    with different keys, and it puts every node whose history has reached
    the threshold before every node whose history has not.  (With [k_] = 0
    the comparison reads [front()] of whatever histories it is given, empty
    ones included.) *)
Theorem Compare_strict_total_order (kc : Z) :
  to_size_t kc ≠ 0 →
  (∀ a b : LRUNode K V,
     (hsize a <? to_size_t kc) = false → (hsize b <? to_size_t kc) = false →
     history_ a ≠ [] ∧ history_ b ≠ []) ∧
  (∀ a : LRUNode K V, Compare K_lt kc a a = false) ∧
  (∀ a b : LRUNode K V, Compare K_lt kc a b = true → Compare K_lt kc b a = false) ∧
  (∀ a b c : LRUNode K V,
     Compare K_lt kc a b = true → Compare K_lt kc b c = true →
     Compare K_lt kc a c = true) ∧
  (∀ a b : LRUNode K V,
     key_ a ≠ key_ b → Compare K_lt kc a b = true ∨ Compare K_lt kc b a = true) ∧
  (∀ a b : LRUNode K V,
     hsize a < to_size_t kc → to_size_t kc ≤ hsize b →
     Compare K_lt kc b a = true ∧ Compare K_lt kc a b = false).
Proof.
  intros Hkc. split_and!.
  - assert (∀ x : LRUNode K V, (hsize x <? to_size_t kc) = false → history_ x ≠ [])
      as Hfront.
    { intros x Hx%N.ltb_ge Hnil. unfold hsize in Hx. rewrite Hnil in Hx.
      simpl in Hx. lia. }
    intros a b Ha Hb. split; by apply Hfront.
  - apply Compare_irrefl.
  - intros a b Hab. destruct (Compare K_lt kc b a) eqn:Hba; [|done].
    pose proof (Compare_trans kc a b a Hab Hba) as Haa.
    by rewrite Compare_irrefl in Haa.
  - apply Compare_trans.
  - apply Compare_total.
  - intros a b Ha Hb. unfold Compare.
    destruct (N.ltb_spec (hsize a) (to_size_t kc)); [|lia].
    destruct (N.ltb_spec (hsize b) (to_size_t kc)); [lia|]. done.
Qed.

Lemma value_of_insert_heap s s' node n n' key :
  inv K_lt s → heap s !! node = Some n →
  cache_ s' = cache_ s → heap s' = <[node := n']> (heap s) →
  key_ n' = key_ n →
  value_of s' key = (if decide (key = key_ n) then Some (value_ n') else value_of s key).
Proof.
  intros Hinv Hn Hidx Hh Hk. unfold value_of. rewrite Hidx, Hh.
  destruct (decide (key = key_ n)) as [->|Hne].
  - rewrite (inv_owned _ _ Hinv _ _ Hn). simpl. by rewrite lookup_insert_eq.
  - destruct (cache_ s !! key) as [p|] eqn:Hp; [|done]. simpl.
    rewrite lookup_insert_ne; [done|]. intros <-.
    destruct (inv_index _ _ Hinv _ _ Hp) as (m & Hm & Hkm). congruence.
Qed.

Lemma value_of_indexed s key node n :
  cache_ s !! key = Some node → heap s !! node = Some n →
  value_of s key = Some (value_ n).
Proof. intros Hk Hn. unfold value_of. by rewrite Hk; simpl; rewrite Hn. Qed.

(** [Get] returns the value the index holds for the key and changes no
    stored value and no index entry. *)
Theorem Get_reads_the_stored_value cap k (ops : list (op K V)) s0 s key :
  1 ≤ k → LRU_K_Cache cap k = inr s0 → exec K_lt ops s0 = Some s →
  current_timestamp_ s ≠ UINT64_MAX →
  ∃ s', Get K_lt key s = Normal (value_of s key) s' ∧
        cache_ s' = cache_ s ∧
        ∀ key', value_of s' key' = value_of s key'.
Proof.
  intros Hk Hnew Hexec Hts.
  destruct (reachable_inv cap k ops s0 Hk Hnew) as (s1 & Hexec' & Hinv & _).
  assert (s1 = s) as -> by congruence.
  destruct (cache_ s !! key) as [node|] eqn:Hkey.
  - destruct (inv_index _ _ Hinv _ _ Hkey) as (n & Hn & Hkn).
    destruct (Get_hit s key node n Hinv Hkey Hn Hts)
      as (s' & n' & Hget & _ & _ & _ & Hidx & _ & Hh & Hkn' & Hv & _).
    exists s'. rewrite (value_of_indexed s key node n) by done.
    split_and!; try done. intros key'.
    rewrite (value_of_insert_heap s s' node n n') by done.
    destruct (decide (key' = key_ n)) as [->|?]; [|done].
    rewrite Hv. symmetry. apply value_of_indexed with node; [|done].
    by apply (inv_owned _ _ Hinv).
  - exists s. unfold Get, value_of. rewrite Hkey. by split_and!.
Qed.

(** A [Put] followed by a [Get] of the same key returns the value put, and
    [contains] reports the key in between. *)
Theorem Put_then_Get cap k (ops : list (op K V)) s0 s key value :
  1 ≤ k → LRU_K_Cache cap k = inr s0 → exec K_lt ops s0 = Some s →
  current_timestamp_ s + 1 < UINT64_MAX →
  ∃ s1 s2, Put K_lt key value s = Normal () s1 ∧
           contains key s1 = Normal true s1 ∧
           Get K_lt key s1 = Normal (Some value) s2.
Proof.
  intros Hk Hnew Hexec Hts.
  destruct (reachable_inv cap k ops s0 Hk Hnew) as (s' & Hexec' & Hinv & _).
  assert (s' = s) as -> by congruence.
  assert (∃ s1 node n1, Put K_lt key value s = Normal () s1 ∧ inv K_lt s1 ∧
            cache_ s1 !! key = Some node ∧ heap s1 !! node = Some n1 ∧
            value_ n1 = value ∧
            current_timestamp_ s1 = current_timestamp_ s + 1)
    as (s1 & node & n1 & Hput & Hinv1 & Hkey1 & Hn1 & Hv1 & Hts1).
  { destruct (cache_ s !! key) as [node|] eqn:Hkey.
    - destruct (inv_index _ _ Hinv _ _ Hkey) as (n & Hn & Hkn).
      destruct (Put_hit s key value node n Hinv Hkey Hn)
        as (s1 & n1 & ? & ? & _ & _ & Hidx & ? & Hh & _ & ? & _); [lia|].
      exists s1, node, n1. split_and!; try done.
      + by rewrite Hidx.
      + by rewrite Hh, lookup_insert_eq.
    - destruct (Put_miss s key value Hinv Hkey)
        as (sm & s1 & n1 & _ & _ & _ & _ & ? & ? & _ & _ & Hidx & ? & Hh & _ & ? & _);
        [lia|].
      exists s1, (fresh (dom (heap sm))), n1. split_and!; try done.
      + by rewrite Hidx, lookup_insert_eq.
      + by rewrite Hh, lookup_insert_eq. }
  destruct (Get_hit s1 key node n1 Hinv1 Hkey1 Hn1)
    as (s2 & n2 & Hget & _); [lia|].
  exists s1, s2. split_and!; try done.
  - unfold contains. rewrite Hkey1. by rewrite bool_decide_eq_true_2.
  - by rewrite <- Hv1.
Qed.

Lemma history_of_Some s key (hist : list N) :
  history_of s key = Some hist ↔
  ∃ p n, cache_ s !! key = Some p ∧ heap s !! p = Some n ∧ hist = history_ n.
Proof.
  unfold history_of. split.
  - destruct (cache_ s !! key) as [p|]; [simpl|done].
    destruct (heap s !! p) as [n|] eqn:Hn; [simpl|done]. intros [= <-]. eauto.
  - intros (p & n & -> & Hn & ->). simpl. by rewrite Hn.
Qed.

Lemma value_of_sub s s1 key :
  inv K_lt s1 → cache_ s1 !! key = cache_ s !! key →
  (∀ q m, heap s1 !! q = Some m → heap s !! q = Some m) →
  value_of s1 key = value_of s key.
Proof.
  intros Hinv1 Hidx Hsub. unfold value_of. rewrite <- Hidx.
  destruct (cache_ s1 !! key) as [q|] eqn:Hq; [simpl|done].
  destruct (inv_index _ _ Hinv1 _ _ Hq) as (m & Hm & _).
  by rewrite Hm, (Hsub _ _ Hm).
Qed.

Lemma value_of_alloc s1 s' key node n' key' :
  inv K_lt s1 → heap s1 !! node = None →
  cache_ s' = <[key := node]> (cache_ s1) → heap s' = <[node := n']> (heap s1) →
  value_of s' key' = (if decide (key' = key) then Some (value_ n') else value_of s1 key').
Proof.
  intros Hinv1 Hfresh Hidx Hh. unfold value_of. rewrite Hidx, Hh.
  destruct (decide (key' = key)) as [->|Hne].
  - rewrite lookup_insert_eq. simpl. by rewrite lookup_insert_eq.
  - rewrite lookup_insert_ne by done.
    destruct (cache_ s1 !! key') as [q|] eqn:Hq; [simpl|done].
    destruct (inv_index _ _ Hinv1 _ _ Hq) as (m & Hm & _).
    rewrite lookup_insert_ne; [done|]. intros <-. congruence.
Qed.

(** [Put] stores the value under the key.  Every other key keeps its value,
    except at most one key that is evicted; nothing is evicted when the key
    is already indexed or the size is below the capacity, and an evicted
    key had K recorded accesses and is gone from the index afterwards. *)
Theorem Put_stores_and_keeps_others cap k (ops : list (op K V)) s0 s key value :
  1 ≤ k → LRU_K_Cache cap k = inr s0 → exec K_lt ops s0 = Some s →
  current_timestamp_ s ≠ UINT64_MAX →
  ∃ s' (lost : option K),
    Put K_lt key value s = Normal () s' ∧
    value_of s' key = Some value ∧
    (∀ key', key' ≠ key → Some key' ≠ lost → value_of s' key' = value_of s key') ∧
    (is_Some (cache_ s !! key) ∨ size_ s < cap → lost = None) ∧
    (∀ key', lost = Some key' →
       key' ≠ key ∧ cache_ s' !! key' = None ∧
       ∃ hist, history_of s key' = Some hist ∧ N.of_nat (length hist) = k).
Proof.
  intros Hk Hnew Hexec Hts.
  destruct (reachable_inv cap k ops s0 Hk Hnew) as (s1 & Hexec' & Hinv & _ & Hcap & Hks).
  assert (s1 = s) as -> by congruence.
  destruct (cache_ s !! key) as [node|] eqn:Hkey.
  - destruct (inv_index _ _ Hinv _ _ Hkey) as (n & Hn & Hkn).
    destruct (Put_hit s key value node n Hinv Hkey Hn Hts)
      as (s' & n' & Hput & _ & _ & _ & Hidx & _ & Hh & Hkn' & Hv & _).
    exists s', None. split_and!; try done.
    + rewrite (value_of_insert_heap s s' node n n') by done.
      rewrite decide_True by done. by rewrite Hv.
    + intros key' Hne _. rewrite (value_of_insert_heap s s' node n n') by done.
      rewrite decide_False; [done|]. congruence.
  - destruct (Put_miss s key value Hinv Hkey Hts)
      as (s1 & s' & n' & He & Hinv1 & Hkey1 & Hfresh & Hput & _ & _ & _ & Hidx & _ & Hh & _ & Hv & _).
    assert (Hkeyv : value_of s' key = Some value).
    { rewrite (value_of_alloc s1 s' key _ n') by done.
      rewrite decide_True by done. by rewrite Hv. }
    assert (Hsame : s1 = s →
      ∃ s'0 (lost : option K),
        Normal () s' = Normal () s'0 ∧ value_of s'0 key = Some value ∧
        (∀ key', key' ≠ key → Some key' ≠ lost →
           value_of s'0 key' = value_of s key') ∧
        (False ∨ size_ s < cap → lost = None) ∧
        (∀ key', lost = Some key' →
           key' ≠ key ∧ cache_ s'0 !! key' = None ∧
           ∃ hist, history_of s key' = Some hist ∧ N.of_nat (length hist) = k)).
    { intros ->. exists s', None. split_and!; try done.
      intros key' Hne _. rewrite (value_of_alloc s s' key _ n') by done.
      by rewrite decide_False. }
    rewrite Hput.
    assert (is_Some (None : option positive) ↔ False) as Hno.
    { split; [|done]. by intros [? ?]. }
    destruct (Evict_spec s Hinv)
      as [[Hlt He']|[(Hge & HE & He')|(Hge & p & rest & n & _ & Hn & Hfull & Hp & _ & He' & _)]].
    + destruct Hsame as (s'' & lost & ? & ? & ? & ? & ?); [congruence|].
      exists s'', lost. split_and!; try done. rewrite Hno. done.
    + destruct Hsame as (s'' & lost & ? & ? & ? & ? & ?); [congruence|].
      exists s'', lost. split_and!; try done. rewrite Hno. done.
    + rewrite He' in He. injection He as <-. simpl in *.
      exists s', (Some (key_ n)). split_and!; try done.
      * intros key' Hne Hne'.
        rewrite (value_of_alloc _ s' key _ n' key' Hinv1 Hfresh Hidx Hh).
        rewrite decide_False by done. apply value_of_sub; [done| |]; simpl.
        -- rewrite lookup_delete_ne; [done|]. congruence.
        -- by intros q m [_ ?]%lookup_delete_Some.
      * intros [[? [=]]|Hlt]. lia.
      * intros key' [= <-]. split_and!.
        -- intros Heq. rewrite Heq in Hp. congruence.
        -- rewrite Hidx, lookup_insert_ne, lookup_delete_eq; [done|].
           intros Heq. rewrite <- Heq in Hp. congruence.
        -- exists (history_ n). split; [|by rewrite <- Hks].
           apply history_of_Some. eauto.
Qed.

(** [Remove] is no access: it leaves the clock alone, takes the key out, and
    keeps the value and the recorded history of every other key; the size
    drops by one exactly when the key was present. *)
Theorem Remove_keeps_others cap k (ops : list (op K V)) s0 s key :
  1 ≤ k → LRU_K_Cache cap k = inr s0 → exec K_lt ops s0 = Some s →
  ∃ s', Remove K_lt key s = Normal (bool_decide (is_Some (cache_ s !! key))) s' ∧
        current_timestamp_ s' = current_timestamp_ s ∧
        value_of s' key = None ∧
        (∀ key', key' ≠ key →
           value_of s' key' = value_of s key' ∧
           history_of s' key' = history_of s key') ∧
        size_ s' + (if bool_decide (is_Some (cache_ s !! key)) then 1 else 0) = size_ s.
Proof.
  intros Hk Hnew Hexec.
  destruct (reachable_inv cap k ops s0 Hk Hnew) as (s1 & Hexec' & Hinv & _).
  assert (s1 = s) as -> by congruence.
  destruct (cache_ s !! key) as [node|] eqn:Hkey.
  - destruct (Remove_present s key node Hinv Hkey)
      as (n & s' & Hn & Hkn & Hrm & _ & _ & _ & Hts & Hidx & Hh & _).
    exists s'. rewrite bool_decide_eq_true_2 by eauto. split_and!; try done.
    + unfold value_of. by rewrite Hidx, lookup_delete_eq.
    + intros key' Hne. unfold value_of, history_of.
      rewrite Hidx, Hh, lookup_delete_ne by done.
      destruct (cache_ s !! key') as [q|] eqn:Hq; [simpl|done].
      destruct (inv_index _ _ Hinv _ _ Hq) as (m & Hm & Hkm).
      rewrite lookup_delete_ne; [done|]. intros <-. congruence.
    + unfold size_. rewrite Hidx, map_size_delete_Some by eauto.
      assert (size (cache_ s) ≠ 0%nat).
      { intros Hz%map_size_empty_iff. rewrite Hz in Hkey. by rewrite lookup_empty in Hkey. }
      lia.
  - exists s. rewrite bool_decide_eq_false_2 by (by intros [? ?]).
    rewrite Remove_absent by done. split_and!; try done; [|lia].
    unfold value_of. by rewrite Hkey.
Qed.

(** Timestamps are handed out once each and in increasing order: in every
    reachable state the clock is at most the number of calls made and within
    its type, every history is strictly increasing with entries between 1
    and the clock, and no timestamp appears in the histories of two keys. *)
Theorem timestamps_are_ordered_and_unique cap k (ops : list (op K V)) s0 :
  1 ≤ k → LRU_K_Cache cap k = inr s0 →
  ∃ s, exec K_lt ops s0 = Some s ∧
       current_timestamp_ s ≤ N.of_nat (length ops) ∧
       current_timestamp_ s ≤ UINT64_MAX ∧
       (∀ key hist, history_of s key = Some hist →
          StronglySorted N.lt hist ∧
          Forall (λ t, 1 ≤ t ≤ current_timestamp_ s) hist) ∧
       (∀ key key' hist hist' t,
          history_of s key = Some hist → history_of s key' = Some hist' →
          t ∈ hist → t ∈ hist' → key = key').
Proof.
  intros Hk Hnew.
  destruct (reachable_history cap k ops s0 Hk Hnew)
    as (s & Hexec & Hinv & Hok & Huniq & [Hle _] & _ & _ & Hlen).
  exists s. split_and!; try done.
  - intros key hist (p & n & _ & Hn & ->)%history_of_Some. by apply (Hok p).
  - intros key key' hist hist' t (p & n & Hp & Hn & ->)%history_of_Some
      (q & m & Hq & Hm & ->)%history_of_Some Ht Ht'.
    assert (p = q) as -> by (by apply (Huniq p q n m t)).
    destruct (inv_index _ _ Hinv _ _ Hp) as (n1 & Hn1 & <-).
    destruct (inv_index _ _ Hinv _ _ Hq) as (m1 & Hm1 & <-). congruence.
Qed.

(** While the clock is below its maximum, every indexed key has between 1
    and K recorded accesses. *)
Theorem indexed_keys_have_an_access cap k (ops : list (op K V)) s0 :
  1 ≤ k → LRU_K_Cache cap k = inr s0 →
  ∃ s, exec K_lt ops s0 = Some s ∧
       (current_timestamp_ s < UINT64_MAX →
        ∀ key, is_Some (cache_ s !! key) →
          ∃ hist, history_of s key = Some hist ∧
                  1 ≤ N.of_nat (length hist) ≤ k).
Proof.
  intros Hk Hnew.
  destruct (reachable_history cap k ops s0 Hk Hnew)
    as (s & Hexec & Hinv & _ & _ & [_ Hacc] & _ & Hks & _).
  exists s. split; [done|]. intros Hlt key [p Hp].
  destruct (inv_index _ _ Hinv _ _ Hp) as (n & Hn & _).
  exists (history_ n). split; [apply history_of_Some; eauto|].
  pose proof (Hacc Hlt p n Hn) as Hne.
  destruct (inv_hist _ _ Hinv _ _ Hn) as [Hle _]. unfold hsize in Hle.
  rewrite Hks in Hle. split; [|done].
  destruct (history_ n); [done|simpl; lia].
Qed.

Lemma exec_size_one (ops : list (op K V)) s :
  inv K_lt s → k_ s = 1 → 1 ≤ capacity_ s → size_ s ≤ capacity_ s →
  accessed s → current_timestamp_ s + N.of_nat (length ops) ≤ UINT64_MAX →
  ∀ i, ∃ s', exec K_lt (take i ops) s = Some s' ∧ size_ s' ≤ capacity_ s.
Proof.
  revert s. induction ops as [|o ops IH]; intros s Hinv Hk Hcap Hsz Hacc Hlen i.
  - rewrite take_nil. exists s. by split.
  - destruct i as [|i]; [exists s; by split|]. cbn [take exec length] in *.
    destruct (step_shape o s Hinv) as (s1 & _ & Hstep & Hinv1 & Hc1 & Hk1 & Hts & _).
    rewrite Hstep.
    assert (Hcov : overflow_covered o s = true).
    { destruct o as [key|key value|key|key|]; simpl; try done.
      destruct (cache_ s !! key) eqn:Hkey; [done|].
      destruct (N.ltb_spec (size_ s) (capacity_ s)) as [?|Hge]; [done|]. simpl.
      apply bool_decide_eq_true_2.
      assert (cache_ s ≠ ∅) as Hne.
      { intros Hz. unfold size_ in Hge. rewrite Hz, map_size_empty in Hge. lia. }
      apply map_choose in Hne as (key' & p & Hp).
      exists key', p. split; [done|]. unfold is_full.
      destruct (inv_index _ _ Hinv _ _ Hp) as (n & Hn & _). rewrite Hn.
      apply N.eqb_eq. destruct Hacc as [_ Hacc].
      pose proof (Hacc ltac:(lia) p n Hn) as Hnil.
      destruct (inv_hist _ _ Hinv _ _ Hn) as [Hle _]. unfold hsize in *.
      destruct (history_ n); [done|]. simpl in *. lia. }
    pose proof (step_size o s s1 Hinv Hsz Hcov Hstep) as Hsz1.
    destruct (IH s1 Hinv1 ltac:(congruence) ltac:(lia) Hsz1
                (step_accessed o s s1 Hinv Hacc Hstep) ltac:(lia) i)
      as (s' & ? & ?).
    exists s'. split; [done|]. by rewrite <- Hc1.
Qed.

(** With K = 1 and a capacity of at least 1 the capacity bound holds without
    any proviso, for every sequence of calls short enough for the clock:
    [size()] never exceeds the capacity after any call. *)
Theorem capacity_bound_when_K_is_one cap (ops : list (op K V)) s0 :
  1 ≤ cap → N.of_nat (length ops) ≤ UINT64_MAX →
  LRU_K_Cache cap 1 = inr s0 →
  ∀ i, ∃ s, exec K_lt (take i ops) s0 = Some s ∧ size_ s ≤ cap.
Proof.
  intros Hcap Hlen [= <-] i.
  apply (exec_size_one ops (mkCache cap 1 ∅ (mkSet (to_int 1) []) 0 ∅)); simpl;
    try done.
  - by apply inv_init.
  - unfold size_. simpl. rewrite map_size_empty. lia.
Qed.

Lemma delete_all_live (order : list positive) (hp : gmap positive (LRUNode K V)) :
  NoDup order → (∀ p, p ∈ order ↔ is_Some (hp !! p)) →
  delete_all order hp = Some ∅.
Proof.
  revert hp. induction order as [|p order IH]; intros hp Hnd Hlive; simpl.
  - f_equal. apply map_empty. intros p.
    destruct (hp !! p) eqn:Hp; [|done].
    assert (p ∈ @nil positive) as Hin by (apply Hlive; eauto).
    by apply elem_of_nil in Hin.
  - apply NoDup_cons in Hnd as [Hnot Hnd].
    destruct (proj1 (Hlive p) ltac:(by left)) as [n ->].
    apply IH; [done|]. intros q. split.
    + intros Hq. rewrite lookup_delete_ne by (by intros ->).
      apply Hlive. by right.
    + intros [m [Hne Hm]%lookup_delete_Some].
      assert (q ∈ p :: order) as [?|?]%elem_of_cons by (apply Hlive; eauto);
        done.
Qed.

(** The destructor frees every node exactly once and leaves none behind:
    in every reachable state the store holds exactly the nodes the index
    points to, one per key, so deleting the node of every index entry, in
    whatever order the map is iterated, never deletes a pointer twice and
    empties the store. *)
Theorem destructor_frees_every_node cap k (ops : list (op K V)) s0 :
  1 ≤ k → LRU_K_Cache cap k = inr s0 →
  ∃ s, exec K_lt ops s0 = Some s ∧
       size (heap s) = size (cache_ s) ∧
       destroy s = Some ∅ ∧
       ∀ order, order ≡ₚ (map_to_list (cache_ s)).*2 →
                delete_all order (heap s) = Some ∅.
Proof.
  intros Hk Hnew.
  destruct (reachable_inv cap k ops s0 Hk Hnew) as (s & Hexec & Hinv & _).
  exists s. split; [done|].
  assert (Hnd : NoDup (map_to_list (cache_ s)).*2).
  { apply NoDup_fmap_2_strong; [|apply NoDup_map_to_list].
    intros [k1 p1] [k2 p2] H1%elem_of_map_to_list H2%elem_of_map_to_list Heq.
    simpl in Heq. subst p2.
    destruct (inv_index _ _ Hinv _ _ H1) as (n1 & Hn1 & <-).
    destruct (inv_index _ _ Hinv _ _ H2) as (n2 & Hn2 & <-). congruence. }
  assert (Hlive : ∀ p, p ∈ (map_to_list (cache_ s)).*2 ↔ is_Some (heap s !! p)).
  { intros p. rewrite list_elem_of_fmap. split.
    - intros ([key q] & -> & Hq%elem_of_map_to_list). simpl.
      destruct (inv_index _ _ Hinv _ _ Hq) as (n & Hn & _). eauto.
    - intros [n Hn]. exists (key_ n, p). split; [done|].
      apply elem_of_map_to_list. by apply (inv_owned _ _ Hinv). }
  split_and!.
  - rewrite <- !length_map_to_list.
    rewrite <- (length_fmap snd (map_to_list (cache_ s))).
    rewrite <- (length_fmap fst (map_to_list (heap s))).
    apply Permutation_length. apply NoDup_Permutation.
    + apply NoDup_fst_map_to_list.
    + done.
    + intros p. rewrite Hlive. rewrite list_elem_of_fmap. split.
      * intros ([q n] & -> & Hq%elem_of_map_to_list). eauto.
      * intros [n Hn]. exists (p, n). split; [done|]. by apply elem_of_map_to_list.
  - by apply delete_all_live.
  - intros order Hperm. apply delete_all_live.
    + by rewrite Hperm.
    + intros p. by rewrite Hperm.
Qed.

Lemma sorted_impl_elem {A : Type} (R R' : A → A → Prop) (l : list A) :
  StronglySorted R l →
  (∀ a b, a ∈ l → b ∈ l → R a b → R' a b) →
  StronglySorted R' l.
Proof.
  induction 1 as [|x l Hs IH Hall]; intros Himp; constructor.
  - apply IH. intros a b Ha Hb. apply Himp; by right.
  - apply Forall_forall. intros y Hy. apply Himp; [by left|by right|].
    by apply (proj1 (Forall_forall _ _) Hall).
Qed.

(** The ordering structure lists the entries with K recorded accesses by
    strictly increasing oldest retained timestamp (for K within the
    comparator's [int]): two of its entries never tie, so its first element,
    the one [Evict] removes, is the unique entry whose K-th most recent
    access is the oldest. *)
Theorem eviction_order_is_by_oldest_access cap k (ops : list (op K V)) s0 :
  1 ≤ k → k < 2 ^ 31 → LRU_K_Cache cap k = inr s0 →
  ∃ s, exec K_lt ops s0 = Some s ∧
       StronglySorted
         (λ p q, ∃ n m, heap s !! p = Some n ∧ heap s !! q = Some m ∧
                        hsize n = k ∧ hsize m = k ∧ front n < front m)
         (elems (eviction_set_ s)).
Proof.
  intros Hk Hint Hnew.
  destruct (reachable_history cap k ops s0 Hk Hnew)
    as (s & Hexec & Hinv & _ & Huniq & _ & _ & Hks & _).
  exists s. split; [done|].
  eapply sorted_impl_elem; [apply (inv_sorted _ _ Hinv)|].
  intros p q (n & Hn & Hfn)%(inv_member _ _ Hinv) (m & Hm & Hfm)%(inv_member _ _ Hinv) Hcmp.
  exists n, m. rewrite <- Hks. split_and!; try done.
  unfold cmp_of, Compare_ptr in Hcmp. rewrite Hn, Hm in Hcmp.
  rewrite (inv_comp _ _ Hinv), Hks in Hcmp. unfold Compare in Hcmp.
  rewrite to_size_t_to_int in Hcmp by done. rewrite Hks in Hfn, Hfm.
  rewrite Hfn, Hfm, N.ltb_irrefl in Hcmp. simpl in Hcmp.
  destruct (N.eqb_spec (front n) (front m)) as [Heq|Hne];
    [|by apply N.ltb_lt in Hcmp].
  exfalso.
  assert (∀ x : LRUNode K V, hsize x = k → front x ∈ history_ x) as Hfront.
  { intros x Hx. unfold hsize, front in *. destruct (history_ x); simpl in *; [lia|by left]. }
  assert (p = q) as -> by
    (apply (Huniq p q n m (front n)); [done|done|by apply Hfront|rewrite Heq; by apply Hfront]).
  assert (n = m) as -> by congruence.
  by rewrite K_lt_irrefl in Hcmp.
Qed.

End Facts.

(** *** The claims at concrete inputs *)

Import LruKExamples LruKViews.

Lemma N_ltb_trans (a b c : N) : (a <? b) = true → (b <? c) = true → (a <? c) = true.
Proof. rewrite !N.ltb_lt. lia. Qed.

Lemma N_ltb_total (a b : N) : a ≠ b → (a <? b) = true ∨ (b <? a) = true.
Proof. rewrite !N.ltb_lt. lia. Qed.

Lemma put_new_key_evicts_oldest_witness :
  ∃ s1, Evict (after two_full_entries (fresh_cache 2 2)) = Normal () s1 ∧
        cache_ s1 !! 1 = None ∧ cache_ s1 !! 2 = Some 2%positive ∧
        elems (eviction_set_ s1) = [2%positive].
Proof.
  destruct (put_new_key_evicts_oldest N.ltb N.ltb_irrefl N_ltb_trans N_ltb_total
              2 2 two_full_entries (fresh_cache 2 2)
              (after two_full_entries (fresh_cache 2 2)) 3 30%nat)
    as (s1 & He & _ & Hm).
  - lia.
  - lia.
  - reflexivity.
  - vm_compute. reflexivity.
  - vm_compute. reflexivity.
  - vm_compute. discriminate.
  - exists s1. split; [exact He|].
    assert (elems (eviction_set_ (after two_full_entries (fresh_cache 2 2)))
            = [1%positive; 2%positive]) as HE by (vm_compute; reflexivity).
    rewrite HE in Hm. destruct Hm as (n & Hn & _ & _ & _ & _ & Hidx & Hel & _).
    vm_compute in Hn. injection Hn as <-.
    rewrite Hidx, Hel. split; [apply lookup_delete_eq|].
    split; [|reflexivity]. rewrite lookup_delete_ne by discriminate.
    vm_compute. reflexivity.
Defined.

Lemma size_never_exceeds_capacity_witness :
  ∃ s, exec N.ltb (take 7 third_key) (fresh_cache 2 2) = Some s ∧ size_ s ≤ 2.
Proof.
  apply (size_never_exceeds_capacity N.ltb N.ltb_irrefl N_ltb_trans N_ltb_total
           2 2 third_key (fresh_cache 2 2)).
  - lia.
  - lia.
  - reflexivity.
  - vm_compute. reflexivity.
Defined.


Lemma remove_present_and_absent_witness :
  Remove N.ltb 7 (after two_full_entries (fresh_cache 2 2))
    = Normal false (after two_full_entries (fresh_cache 2 2)) ∧
  ∃ s', Remove N.ltb 2 (after two_full_entries (fresh_cache 2 2)) = Normal true s' ∧
        Get N.ltb 2 s' = Normal None s'.
Proof.
  destruct (remove_present_and_absent N.ltb N.ltb_irrefl N_ltb_trans N_ltb_total
              2 2 two_full_entries (fresh_cache 2 2)
              (after two_full_entries (fresh_cache 2 2)) 7) as [Habs _].
  { lia. } { reflexivity. } { vm_compute. reflexivity. }
  destruct (remove_present_and_absent N.ltb N.ltb_irrefl N_ltb_trans N_ltb_total
              2 2 two_full_entries (fresh_cache 2 2)
              (after two_full_entries (fresh_cache 2 2)) 2) as [_ Hpres].
  { lia. } { reflexivity. } { vm_compute. reflexivity. }
  split.
  - apply Habs. vm_compute. reflexivity.
  - destruct (Hpres 2%positive) as (s' & Hr & _ & _ & _ & _ & _ & _ & Hg).
    { vm_compute. reflexivity. }
    exists s'. split; [exact Hr|exact Hg].
Defined.

Lemma once_seen_keys_outgrow_capacity_witness :
  ∃ s, exec N.ltb (map (λ kv, OpPut kv.1 kv.2) three_once) (fresh_cache 1 2) = Some s ∧
       size_ s = 3 ∧ capacity_ s < size_ s.
Proof.
  destruct (once_seen_keys_outgrow_capacity N.ltb N.ltb_irrefl N_ltb_trans N_ltb_total
              1 2 three_once (fresh_cache 1 2)) as (_ & s & Hexec & Hsz & _ & Hgt).
  - lia.
  - vm_compute. repeat constructor; rewrite ?elem_of_cons, ?elem_of_nil; intuition discriminate.
  - vm_compute. discriminate.
  - reflexivity.
  - exists s. split; [exact Hexec|]. split; [exact Hsz|]. apply Hgt. vm_compute. reflexivity.
Defined.

Lemma constructor_accepts_any_configuration_witness :
  ∃ s0 : Cache N nat,
    LRU_K_Cache 0 1 = inr s0 ∧ size_ s0 = 0 ∧
    ∃ s, exec N.ltb third_key s0 = Some s ∧ capacity_ s = 0.
Proof.
  destruct (constructor_accepts_any_configuration (V := nat)
              N.ltb N.ltb_irrefl N_ltb_trans N_ltb_total 0 1)
    as (s0 & Hnew & _ & _ & Hsz & _ & _ & Hops).
  exists s0. split; [exact Hnew|]. split; [exact Hsz|].
  destruct (Hops ltac:(lia) third_key) as (s & Hexec & Hc & _).
  exists s. split; [exact Hexec|exact Hc].
Defined.

(** C4, as stated, fails on the code: a cache of capacity 0 (and one with
    K = 0) is constructed without an error, and the capacity-0 cache stores
    and returns a value. *)
Lemma zero_capacity_cache_is_constructed_and_usable :
  (¬ ∃ e, LRU_K_Cache (K := N) (V := nat) 0 1 = inl e) ∧
  (¬ ∃ e, LRU_K_Cache (K := N) (V := nat) 5 0 = inl e) ∧
  LRU_K_Cache 0 1 = inr (fresh_cache 0 1) ∧
  Put N.ltb 7 42%nat (fresh_cache 0 1)
    = Normal () (after [OpPut 7 42%nat] (fresh_cache 0 1)) ∧
  Get N.ltb 7 (after [OpPut 7 42%nat] (fresh_cache 0 1))
    = Normal (Some 42%nat) (after [OpPut 7 42%nat; OpGet 7] (fresh_cache 0 1)).
Proof.
  split; [by intros [e ?]|]. split; [by intros [e ?]|].
  split; [reflexivity|]. split.
  - vm_compute. reflexivity.
  - vm_compute. reflexivity.
Qed.

(** *** K = 2^31 *)

(** C1 where K does not fit the [int] of [Compare(int k)]: capacity 2 and
    K = 2^31.  Key 2 is put 2^31 times, then key 1 is put 2^31 times; both
    entries have full history, the oldest retained timestamp of key 2 is 1
    and that of key 1 is 2^31 + 1.  The put of key 3 that follows evicts
    key 1, the first in key order, and keeps key 2, whose K-th most recent
    access is the oldest. *)
Theorem put_new_key_at_large_K_evicts_by_key :
  ∃ s s' hist1 hist2,
    exec N.ltb (OpPut 2 20%nat :: replicate (N.to_nat (2 ^ 31 - 1)) (OpPut 2 20%nat) ++
                OpPut 1 10%nat :: replicate (N.to_nat (2 ^ 31 - 1)) (OpPut 1 10%nat))
      (fresh_cache 2 (2 ^ 31)) = Some s ∧
    size_ s = capacity_ s ∧
    history_of s 1 = Some hist1 ∧ history_of s 2 = Some hist2 ∧
    N.of_nat (length hist1) = 2 ^ 31 ∧ N.of_nat (length hist2) = 2 ^ 31 ∧
    hd 0 hist1 = 2 ^ 31 + 1 ∧ hd 0 hist2 = 1 ∧
    Put N.ltb 3 30%nat s = Normal () s' ∧
    cache_ s' !! 1 = None ∧ is_Some (cache_ s' !! 2).
Proof.
  apply (narrowed_comparator_run N.ltb N.ltb_irrefl N_ltb_trans N_ltb_total
           (2 ^ 31) (N.to_nat (2 ^ 31 - 1)) 1 2 3 10%nat 20%nat 30%nat).
  - lia.
  - lia.
  - apply N2Nat.id.
  - reflexivity.
  - lia.
  - lia.
Qed.

(** *** The state with an exhausted clock *)

Lemma ticked_step t :
  t ≠ UINT64_MAX → Put N.ltb 1 10%nat (ticked t) = Normal () (ticked (t + 1)).
Proof.
  intros Ht. unfold Put, bind.
  assert (cache_ (ticked t) !! 1 = Some 1%positive) as -> by apply lookup_singleton_eq.
  rewrite (ResourceAccess_full N.ltb (ticked t) 1%positive
             (mkLRUNode 1 10%nat [t] true));
    [|apply lookup_singleton_eq|done|done|done|done].
  unfold ticked, cmp_of.
  cbn [heap key_ value_ history_ is_evictable_ capacity_ k_ cache_
       eviction_set_ key_comp elems current_timestamp_ app tail set_erase
       set_insert with_heap].
  rewrite lookup_insert_eq. cbn [key_ value_ history_ is_evictable_].
  rewrite Compare_ptr_irrefl by apply N.ltb_irrefl.
  rewrite insert_insert_eq, insert_singleton_eq. reflexivity.
Qed.

Lemma ticked_run (n : nat) t :
  t + N.of_nat n ≤ UINT64_MAX →
  exec N.ltb (replicate n (OpPut 1 10%nat)) (ticked t) = Some (ticked (t + N.of_nat n)).
Proof.
  revert t. induction n as [|n IH]; intros t Ht.
  - simpl. by rewrite N.add_0_r.
  - cbn [replicate exec step]. rewrite ticked_step by lia. cbn [final].
    rewrite IH by lia. do 2 f_equal. lia.
Qed.

(** The exhausted state is the one reached by putting key 1 at every tick. *)
Lemma exhausted_reachable (n : nat) :
  N.of_nat n = UINT64_MAX →
  exec N.ltb (replicate n (OpPut 1 10%nat)) (fresh_cache 1 1) = Some exhausted.
Proof.
  intros Hn. destruct n as [|n]; [done|].
  cbn [replicate exec step].
  assert (Put N.ltb 1 10%nat (fresh_cache 1 1) = Normal () (ticked 1)) as ->
    by (vm_compute; reflexivity).
  cbn [final]. rewrite ticked_run by lia. unfold exhausted. do 2 f_equal. lia.
Qed.

(** C5 at the exhausted state.  [Get] and [Put] of the existing key throw and
    leave the cache as it was; [Put] of a new key throws as well, but only
    after it has evicted key 1 and indexed the new key with an empty
    history. *)
Theorem put_new_key_at_exhausted_clock :
  (∀ n : nat, N.of_nat n = UINT64_MAX →
     exec N.ltb (replicate n (OpPut 1 10%nat)) (fresh_cache 1 1) = Some exhausted) ∧
  Get N.ltb 1 exhausted
    = Thrown (runtime_error "Timestamp overflow in LRU-K Cache") exhausted ∧
  Put N.ltb 1 11%nat exhausted
    = Thrown (runtime_error "Timestamp overflow in LRU-K Cache") exhausted ∧
  Put N.ltb 2 20%nat exhausted
    = Thrown (runtime_error "Timestamp overflow in LRU-K Cache")
        (mkCache 1 1 {[2 := 1%positive]} (mkSet 1 []) UINT64_MAX
           {[1%positive := mkLRUNode 2 20%nat [] false]}) ∧
  cache_ exhausted !! 1 = Some 1%positive ∧
  elems (eviction_set_ exhausted) = [1%positive].
Proof.
  split; [exact exhausted_reachable|].
  split; [by apply Get_clock_exhausted|].
  split; [by apply Put_existing_clock_exhausted|].
  split; [vm_compute; reflexivity|]. split; [vm_compute; reflexivity|done].
Qed.

(** *** The further properties at concrete inputs *)

Lemma Compare_strict_total_order_witness :
  (∀ a b : LRUNode N nat, Compare N.ltb 2 a b = true → Compare N.ltb 2 b a = false) ∧
  (∀ a b : LRUNode N nat,
     key_ a ≠ key_ b → Compare N.ltb 2 a b = true ∨ Compare N.ltb 2 b a = true).
Proof.
  destruct (Compare_strict_total_order (V:=nat) N.ltb N.ltb_irrefl N_ltb_trans
              N_ltb_total 2) as (_ & _ & Hasym & _ & Htotal & _).
  - vm_compute. discriminate.
  - split; [exact Hasym|exact Htotal].
Defined.

Lemma Get_reads_the_stored_value_witness :
  ∃ s', Get N.ltb 1 (after two_full_entries (fresh_cache 2 2))
          = Normal (value_of (after two_full_entries (fresh_cache 2 2)) 1) s' ∧
        cache_ s' = cache_ (after two_full_entries (fresh_cache 2 2)) ∧
        ∀ key', value_of s' key'
                = value_of (after two_full_entries (fresh_cache 2 2)) key'.
Proof.
  apply (Get_reads_the_stored_value N.ltb N.ltb_irrefl N_ltb_trans N_ltb_total
           2 2 two_full_entries (fresh_cache 2 2)).
  - lia.
  - reflexivity.
  - vm_compute. reflexivity.
  - vm_compute. discriminate.
Defined.

Lemma Put_then_Get_witness :
  ∃ s1 s2, Put N.ltb 3 30%nat (after two_full_entries (fresh_cache 2 2)) = Normal () s1 ∧
           contains 3 s1 = Normal true s1 ∧
           Get N.ltb 3 s1 = Normal (Some 30%nat) s2.
Proof.
  apply (Put_then_Get N.ltb N.ltb_irrefl N_ltb_trans N_ltb_total
           2 2 two_full_entries (fresh_cache 2 2)).
  - lia.
  - reflexivity.
  - vm_compute. reflexivity.
  - vm_compute. reflexivity.
Defined.

Lemma Put_stores_and_keeps_others_witness :
  ∃ s' (lost : option N),
    Put N.ltb 3 30%nat (after two_full_entries (fresh_cache 2 2)) = Normal () s' ∧
    value_of s' 3 = Some 30%nat ∧
    (∀ key', key' ≠ 3 → Some key' ≠ lost →
       value_of s' key' = value_of (after two_full_entries (fresh_cache 2 2)) key') ∧
    (is_Some (cache_ (after two_full_entries (fresh_cache 2 2)) !! 3) ∨
     size_ (after two_full_entries (fresh_cache 2 2)) < 2 → lost = None) ∧
    (∀ key', lost = Some key' →
       key' ≠ 3 ∧ cache_ s' !! key' = None ∧
       ∃ hist, history_of (after two_full_entries (fresh_cache 2 2)) key' = Some hist ∧
               N.of_nat (length hist) = 2).
Proof.
  apply (Put_stores_and_keeps_others N.ltb N.ltb_irrefl N_ltb_trans N_ltb_total
           2 2 two_full_entries (fresh_cache 2 2)).
  - lia.
  - reflexivity.
  - vm_compute. reflexivity.
  - vm_compute. discriminate.
Defined.

Lemma Remove_keeps_others_witness :
  ∃ s', Remove N.ltb 2 (after two_full_entries (fresh_cache 2 2))
          = Normal (bool_decide (is_Some
                      (cache_ (after two_full_entries (fresh_cache 2 2)) !! 2))) s' ∧
        current_timestamp_ s' = current_timestamp_ (after two_full_entries (fresh_cache 2 2)) ∧
        value_of s' 2 = None ∧
        (∀ key', key' ≠ 2 →
           value_of s' key' = value_of (after two_full_entries (fresh_cache 2 2)) key' ∧
           history_of s' key' = history_of (after two_full_entries (fresh_cache 2 2)) key') ∧
        size_ s' + (if bool_decide (is_Some
                         (cache_ (after two_full_entries (fresh_cache 2 2)) !! 2))
                    then 1 else 0)
          = size_ (after two_full_entries (fresh_cache 2 2)).
Proof.
  apply (Remove_keeps_others N.ltb N.ltb_irrefl N_ltb_trans N_ltb_total
           2 2 two_full_entries (fresh_cache 2 2)).
  - lia.
  - reflexivity.
  - vm_compute. reflexivity.
Defined.

Lemma timestamps_are_ordered_and_unique_witness :
  ∃ s, exec N.ltb third_key (fresh_cache 2 2) = Some s ∧
       current_timestamp_ s ≤ N.of_nat (length third_key) ∧
       current_timestamp_ s ≤ UINT64_MAX ∧
       (∀ key hist, history_of s key = Some hist →
          StronglySorted N.lt hist ∧
          Forall (λ t, 1 ≤ t ≤ current_timestamp_ s) hist) ∧
       (∀ key key' hist hist' t,
          history_of s key = Some hist → history_of s key' = Some hist' →
          t ∈ hist → t ∈ hist' → key = key').
Proof.
  apply (timestamps_are_ordered_and_unique N.ltb N.ltb_irrefl N_ltb_trans N_ltb_total
           2 2 third_key (fresh_cache 2 2)).
  - lia.
  - reflexivity.
Defined.

Lemma indexed_keys_have_an_access_witness :
  ∃ s, exec N.ltb third_key (fresh_cache 2 2) = Some s ∧
       (current_timestamp_ s < UINT64_MAX →
        ∀ key, is_Some (cache_ s !! key) →
          ∃ hist, history_of s key = Some hist ∧ 1 ≤ N.of_nat (length hist) ≤ 2).
Proof.
  apply (indexed_keys_have_an_access N.ltb N.ltb_irrefl N_ltb_trans N_ltb_total
           2 2 third_key (fresh_cache 2 2)).
  - lia.
  - reflexivity.
Defined.

Lemma capacity_bound_when_K_is_one_witness :
  ∃ s, exec N.ltb (take 5 third_key) (fresh_cache 1 1) = Some s ∧ size_ s ≤ 1.
Proof.
  apply (capacity_bound_when_K_is_one N.ltb N.ltb_irrefl N_ltb_trans N_ltb_total
           1 third_key (fresh_cache 1 1)).
  - lia.
  - vm_compute. discriminate.
  - reflexivity.
Defined.

Lemma destructor_frees_every_node_witness :
  ∃ s, exec N.ltb third_key (fresh_cache 2 2) = Some s ∧
       size (heap s) = size (cache_ s) ∧
       destroy s = Some ∅ ∧
       ∀ order, order ≡ₚ (map_to_list (cache_ s)).*2 →
                delete_all order (heap s) = Some ∅.
Proof.
  apply (destructor_frees_every_node N.ltb N.ltb_irrefl N_ltb_trans N_ltb_total
           2 2 third_key (fresh_cache 2 2)).
  - lia.
  - reflexivity.
Defined.

Lemma eviction_order_is_by_oldest_access_witness :
  ∃ s, exec N.ltb third_key (fresh_cache 2 2) = Some s ∧
       StronglySorted
         (λ p q, ∃ n m, heap s !! p = Some n ∧ heap s !! q = Some m ∧
                        hsize n = 2 ∧ hsize m = 2 ∧ front n < front m)
         (elems (eviction_set_ s)).
Proof.
  apply (eviction_order_is_by_oldest_access N.ltb N.ltb_irrefl N_ltb_trans N_ltb_total
           2 2 third_key (fresh_cache 2 2)).
  - lia.
  - vm_compute. reflexivity.
  - reflexivity.
Defined.

End LruKFacts.

(** ** The single-history LRU cache *)

Module LruFacts.
Import Lru LruSpec.

Section Facts.
Context {K V : Type} `{Countable K}.

Implicit Types (s : Cache K V) (h : gmap positive (Node K V)) (n : Node K V).
Implicit Types (l : list (positive * (K * V))) (ps : list positive).
Implicit Types (a b p q x y node : positive).

(** *** How the store primitives change the three views of a node *)

Lemma nxt_insert_ne h p q n : p ≠ q → nxt (<[q := n]> h) p = nxt h p.
Proof. intros. unfold nxt. by rewrite lookup_insert_ne. Qed.
Lemma prv_insert_ne h p q n : p ≠ q → prv (<[q := n]> h) p = prv h p.
Proof. intros. unfold prv. by rewrite lookup_insert_ne. Qed.
Lemma kv_insert_ne h p q n : p ≠ q → kv (<[q := n]> h) p = kv h p.
Proof. intros. unfold kv. by rewrite lookup_insert_ne. Qed.
Lemma nxt_delete_ne h p q : p ≠ q → nxt (delete q h) p = nxt h p.
Proof. intros. unfold nxt. by rewrite lookup_delete_ne. Qed.
Lemma prv_delete_ne h p q : p ≠ q → prv (delete q h) p = prv h p.
Proof. intros. unfold prv. by rewrite lookup_delete_ne. Qed.
Lemma kv_delete_ne h p q : p ≠ q → kv (delete q h) p = kv h p.
Proof. intros. unfold kv. by rewrite lookup_delete_ne. Qed.

Lemma nxt_live h p q : nxt h p = Some q → is_Some (h !! p).
Proof. unfold nxt. destruct (h !! p); [eauto|done]. Qed.
Lemma prv_live h p q : prv h p = Some q → is_Some (h !! p).
Proof. unfold prv. destruct (h !! p); [eauto|done]. Qed.
Lemma kv_live h p c : kv h p = Some c → is_Some (h !! p).
Proof. unfold kv. destruct (h !! p); [eauto|done]. Qed.

(** [link] succeeds on two live nodes; it sets one [next] and one [prev]
    and nothing else. *)
Lemma link_spec h a b :
  is_Some (h !! a) → is_Some (h !! b) →
  ∃ h', link (Some a) (Some b) h = Some h' ∧
        nxt h' a = Some b ∧ prv h' b = Some a ∧
        (∀ u, u ≠ a → nxt h' u = nxt h u) ∧
        (∀ w, w ≠ b → prv h' w = prv h w) ∧
        (∀ p, kv h' p = kv h p) ∧
        (∀ p, is_Some (h' !! p) ↔ is_Some (h !! p)).
Proof.
  intros [na Ha] [nb Hb]. unfold link. simpl. rewrite Ha. simpl.
  destruct (decide (a = b)) as [->|Hne].
  - rewrite lookup_insert_eq. simpl. eexists. split; [done|].
    unfold nxt, prv, kv. split_and!.
    + by rewrite lookup_insert_eq.
    + by rewrite lookup_insert_eq.
    + intros u Hu. by rewrite !lookup_insert_ne.
    + intros w Hw. by rewrite !lookup_insert_ne.
    + intros p. destruct (decide (p = b)) as [->|Hp].
      * rewrite lookup_insert_eq. simplify_eq. by rewrite Ha.
      * by rewrite !lookup_insert_ne.
    + intros p. destruct (decide (p = b)) as [->|Hp].
      * rewrite lookup_insert_eq. split; eauto.
      * by rewrite !lookup_insert_ne.
  - rewrite lookup_insert_ne, Hb by done. simpl. eexists. split; [done|].
    unfold nxt, prv, kv. split_and!.
    + by rewrite lookup_insert_ne, lookup_insert_eq.
    + by rewrite lookup_insert_eq.
    + intros u Hu. destruct (decide (u = b)) as [->|Hub].
      * by rewrite lookup_insert_eq, Hb.
      * by rewrite !lookup_insert_ne.
    + intros w Hw. destruct (decide (w = a)) as [->|Hwa].
      * by rewrite lookup_insert_ne, lookup_insert_eq, Ha.
      * by rewrite !lookup_insert_ne.
    + intros p. destruct (decide (p = b)) as [->|Hpb];
        [by rewrite lookup_insert_eq, Hb|].
      rewrite lookup_insert_ne by done.
      destruct (decide (p = a)) as [->|Hpa];
        [by rewrite lookup_insert_eq, Ha|].
      by rewrite lookup_insert_ne.
    + intros p. destruct (decide (p = b)) as [->|Hpb];
        [rewrite lookup_insert_eq; split; eauto|].
      rewrite lookup_insert_ne by done.
      destruct (decide (p = a)) as [->|Hpa];
        [rewrite lookup_insert_eq; split; eauto|].
      by rewrite lookup_insert_ne.
Qed.

(** *** Paths *)

Lemma chain_app h a ps x qs :
  chain h a (ps ++ x :: qs) ↔ chain h a (ps ++ [x]) ∧ chain h x qs.
Proof.
  revert a. induction ps as [|b ps IH]; intros a; simpl.
  - tauto.
  - rewrite IH. tauto.
Qed.

Lemma last_cons ps a b : List.last (b :: ps) a = List.last ps b.
Proof.
  revert a b. induction ps as [|c ps IH]; intros a b; [done|].
  change (List.last (c :: ps) a = List.last (c :: ps) b).
  by rewrite !IH.
Qed.

Lemma chain_snoc h a ps x :
  chain h a (ps ++ [x]) ↔
  chain h a ps ∧ nxt h (List.last ps a) = Some x ∧ prv h x = Some (List.last ps a).
Proof.
  revert a. induction ps as [|b ps IH]; intros a.
  - simpl. tauto.
  - cbn [app chain]. rewrite IH, last_cons. tauto.
Qed.

Lemma last_elem_of ps a : List.last ps a ∈ a :: ps.
Proof.
  revert a. induction ps as [|b ps IH]; intros a.
  - by left.
  - right. rewrite last_cons. apply IH.
Qed.

(** A change of [next] and [prev] fields away from the path. *)
Lemma chain_frame h h' a ps :
  (∀ u, u ∈ a :: ps → nxt h' u = nxt h u) →
  (∀ w, w ∈ ps → prv h' w = prv h w) →
  chain h a ps → chain h' a ps.
Proof.
  revert a. induction ps as [|b ps IH]; intros a Hn Hp; simpl; [done|].
  intros (Hab & Hba & Hc). split_and!.
  - rewrite Hn; [done|by left].
  - rewrite Hp; [done|by left].
  - apply IH; [| |done].
    + intros u Hu. apply Hn. by right.
    + intros w Hw. apply Hp. by right.
Qed.

(** The [next] field of the end of the path may change as well. *)
Lemma chain_frame_last h h' a ps :
  NoDup (a :: ps) →
  (∀ u, u ∈ a :: ps → u ≠ List.last ps a → nxt h' u = nxt h u) →
  (∀ w, w ∈ ps → prv h' w = prv h w) →
  chain h a ps → chain h' a ps.
Proof.
  revert a. induction ps as [|b ps IH]; intros a Hnd Hn Hp; simpl; [done|].
  intros (Hab & Hba & Hc).
  apply NoDup_cons in Hnd as [Ha Hnd].
  pose proof (last_cons ps a b) as Hlast.
  split_and!.
  - rewrite Hn; [done|by left|]. rewrite Hlast. intros ->.
    apply Ha, last_elem_of.
  - rewrite Hp; [done|by left].
  - apply IH; [done| | |done].
    + intros u Hu Hne. apply Hn; [by right|]. by rewrite Hlast.
    + intros w Hw. apply Hp. by right.
Qed.

(** *** Unlinking a node of the path *)

Local Arguments link : simpl never.

Lemma unlink_spec h a ps node y qs :
  NoDup (a :: ps ++ node :: y :: qs) →
  chain h a (ps ++ node :: y :: qs) →
  ∃ n h', h !! node = Some n ∧
          link (prev n) (next n) h = Some h' ∧
          chain h' a (ps ++ y :: qs) ∧
          (∀ p, kv h' p = kv h p) ∧
          (∀ p, is_Some (h' !! p) ↔ is_Some (h !! p)).
Proof.
  intros Hnd Hc.
  apply chain_app in Hc as [Hc1 Hc2].
  apply chain_snoc in Hc1 as (Hc1 & Hxn & Hnx).
  simpl in Hc2. destruct Hc2 as (Hny & Hyn & Hc2).
  set (x := List.last ps a) in *.
  destruct (prv_live _ _ _ Hnx) as [n Hn].
  assert (prev n = Some x) as Hprev by (unfold prv in Hnx; by rewrite Hn in Hnx).
  assert (next n = Some y) as Hnext by (unfold nxt in Hny; by rewrite Hn in Hny).
  destruct (link_spec h x y (nxt_live _ _ _ Hxn) (prv_live _ _ _ Hyn))
    as (h' & Hlink & Hxy & Hyx & Hfn & Hfp & Hkv & Hdom).
  exists n, h'. rewrite Hprev, Hnext. split_and!; try done.
  assert (x ∈ a :: ps) as Hx by apply last_elem_of.
  rewrite app_comm_cons in Hnd. apply NoDup_app in Hnd as (Hnd1 & Hdisj & Hnd2).
  apply NoDup_cons in Hnd2 as [Hnode Hnd2].
  apply NoDup_cons in Hnd2 as [Hy Hnd2].
  assert (y ∉ a :: ps) as Hy1.
  { intros Hin. apply (Hdisj _ Hin). right. by left. }
  apply chain_app. split; [apply chain_snoc; split_and!|].
  - eapply chain_frame_last; [done| | |exact Hc1].
    + intros u _ Hu. by apply Hfn.
    + intros w Hw. apply Hfp. intros ->. apply Hy1. by right.
  - done.
  - done.
  - eapply chain_frame; [| |exact Hc2].
    + intros u Hu. apply Hfn. intros ->. apply (Hdisj _ Hx). by right.
    + intros w Hw. apply Hfp. by intros ->.
Qed.

(** *** Linking a node behind the head *)

Lemma add_spec s node y qs :
  NoDup (_head s :: y :: qs) → node ∉ _head s :: y :: qs →
  is_Some (heap s !! node) →
  chain (heap s) (_head s) (y :: qs) →
  ∃ s', add node s = Some s' ∧
        _head s' = _head s ∧ _tail s' = _tail s ∧
        _capacity s' = _capacity s ∧ _cache_mapper s' = _cache_mapper s ∧
        chain (heap s') (_head s) (node :: y :: qs) ∧
        (∀ p, kv (heap s') p = kv (heap s) p) ∧
        (∀ p, is_Some (heap s' !! p) ↔ is_Some (heap s !! p)).
Proof.
  intros Hnd Hnode Hlive Hc. simpl in Hc. destruct Hc as (Hhy & Hyh & Hc).
  apply NoDup_cons in Hnd as [Hhead Hnd]. apply NoDup_cons in Hnd as [Hy Hnd].
  unfold add. destruct (nxt_live _ _ _ Hhy) as [hd Hhd]. rewrite Hhd. simpl.
  assert (next hd = Some y) as -> by (unfold nxt in Hhy; by rewrite Hhd in Hhy).
  destruct (link_spec (heap s) node y Hlive (prv_live _ _ _ Hyh))
    as (h1 & -> & Hn1 & Hp1 & Hfn1 & Hfp1 & Hkv1 & Hdom1). simpl.
  destruct (link_spec h1 (_head s) node) as (h2 & -> & Hn2 & Hp2 & Hfn2 & Hfp2 & Hkv2 & Hdom2).
  { apply Hdom1. eauto. }
  { by apply Hdom1. }
  simpl. eexists. split; [done|]. simpl. split_and!; try done.
  - rewrite Hfn2; [done|]. intros ->. apply Hnode. by left.
  - rewrite Hfp2; [done|]. intros ->. apply Hnode. right. by left.
  - eapply chain_frame; [| |exact Hc].
    + intros u Hu. rewrite Hfn2, Hfn1; [done| |].
      * intros ->. apply Hnode. by right.
      * intros ->. by apply Hhead.
    + intros w Hw. rewrite Hfp2, Hfp1; [done| |].
      * by intros ->.
      * intros ->. apply Hnode. right. by right.
  - intros p. by rewrite Hkv2, Hkv1.
  - intros p. by rewrite Hdom2, Hdom1.
Qed.

(** *** The representation invariant *)

Lemma rep_live s l p e : rep s l → (p, e) ∈ l → is_Some (heap s !! p).
Proof.
  intros Hrep Hin. destruct e as [k v].
  eapply kv_live, (rep_kv _ _ Hrep); eauto.
Qed.

Lemma rep_head_live s l : rep s l → is_Some (heap s !! _head s).
Proof.
  intros Hrep. pose proof (rep_chain _ _ Hrep) as Hc.
  destruct (l.*1 ++ [_tail s]) as [|y qs] eqn:E.
  - by destruct (l.*1).
  - simpl in Hc. destruct Hc as (Hc & _). by eapply nxt_live.
Qed.

Lemma rep_tail_live s l : rep s l → is_Some (heap s !! _tail s).
Proof.
  intros Hrep. pose proof (rep_chain _ _ Hrep) as Hc.
  apply chain_snoc in Hc as (_ & _ & Hc). by eapply prv_live.
Qed.

Lemma path_cons ps (t : positive) : ∃ y qs, ps ++ [t] = y :: qs.
Proof. destruct ps as [|y ps]; simpl; eauto. Qed.

Lemma LRUCache_rep (capacity : Z) :
  ∃ s : Cache K V, LRUCache capacity = Some s ∧ rep s [] ∧ _capacity s = capacity.
Proof.
  unfold LRUCache.
  set (head := fresh (∅ : gset positive)).
  set (h0 := ({[head := mkNode None None None None]} : gmap positive (Node K V))).
  set (tail := fresh (dom h0)).
  assert (tail ≠ head) as Hne.
  { intros Heq. pose proof (is_fresh (dom h0)) as Hf. fold tail in Hf.
    apply Hf. rewrite Heq. subst h0. rewrite dom_singleton_L. set_solver. }
  destruct (link_spec (<[tail := mkNode None None None None]> h0) head tail)
    as (h2 & -> & Hn & Hp & _).
  { rewrite lookup_insert_ne by done. subst h0. rewrite lookup_singleton_eq. eauto. }
  { rewrite lookup_insert_eq. eauto. }
  simpl. eexists. split; [done|]. split; [|done]. constructor; simpl.
  - apply NoDup_cons. split; [|apply NoDup_singleton].
    intros Hin%list_elem_of_singleton. by apply Hne.
  - done.
  - intros p k v Hin. by apply elem_of_nil in Hin.
  - constructor.
  - intros k p. rewrite lookup_empty. split; [done|].
    intros [v Hin]. by apply elem_of_nil in Hin.
  - apply map_size_empty.
Qed.

(** *** [get] *)

Lemma get_absent s k :
  _cache_mapper s !! k = None → get k s = Some (None, s).
Proof. intros Hk. unfold get. by rewrite Hk. Qed.

Lemma get_present s l k node :
  rep s l → _cache_mapper s !! k = Some node →
  ∃ v l1 l2 s',
    l = l1 ++ (node, (k, v)) :: l2 ∧
    get k s = Some (Some v, s') ∧
    rep s' ((node, (k, v)) :: l1 ++ l2) ∧
    _capacity s' = _capacity s ∧ _cache_mapper s' = _cache_mapper s.
Proof.
  intros Hrep Hk.
  destruct (proj1 (rep_index _ _ Hrep k node) Hk) as [v Hin].
  apply list_elem_of_split in Hin as (l1 & l2 & ->).
  exists v, l1, l2.
  pose proof (rep_nodup _ _ Hrep) as Hnd.
  pose proof (rep_chain _ _ Hrep) as Hc.
  rewrite !fmap_app, fmap_cons in Hnd, Hc. simpl in Hnd, Hc.
  rewrite <- app_assoc in Hnd, Hc. simpl in Hnd, Hc.
  destruct (path_cons (l2.*1) (_tail s)) as (y & qs & Hyqs).
  rewrite Hyqs in Hnd, Hc.
  destruct (unlink_spec _ _ _ _ _ _ Hnd Hc) as (n & h' & Hn & Hlink & Hc' & Hkv' & Hdom').
  assert (NoDup (_head s :: l1.*1 ++ y :: qs) ∧ node ∉ _head s :: l1.*1 ++ y :: qs)
    as [Hnd' Hnode].
  { rewrite app_comm_cons in Hnd. apply NoDup_app in Hnd as (Hnd1 & Hdisj & Hnd2).
    apply NoDup_cons in Hnd2 as [Hnode Hnd2]. split.
    - rewrite app_comm_cons. apply NoDup_app. split_and!; [done| |done].
      intros u Hu Hin. apply (Hdisj u Hu). by right.
    - rewrite app_comm_cons. intros [Hin|Hin]%elem_of_app; [|done].
      apply (Hdisj node Hin). by left. }
  destruct (path_cons (l1.*1) y) as (y' & qs' & Hy').
  assert (l1.*1 ++ y :: qs = y' :: qs' ++ qs) as Hpath.
  { change (y :: qs) with ([y] ++ qs). by rewrite app_assoc, Hy'. }
  rewrite Hpath in Hnd', Hnode, Hc'.
  destruct (add_spec (with_heap h' s) node y' (qs' ++ qs))
    as (s2 & Hadd & Hhd & Htl & Hcap & Hmap & Hc2 & Hkv2 & Hdom2); simpl; try done.
  { apply Hdom'. eauto. }
  simpl in *.
  assert (kv (heap s2) node = Some (Some k, Some v)) as Hkvn.
  { rewrite Hkv2, Hkv'. apply (rep_kv _ _ Hrep). set_solver. }
  destruct (kv_live _ _ _ Hkvn) as [n2 Hn2].
  assert (value n2 = Some v) as Hv.
  { unfold kv in Hkvn. rewrite Hn2 in Hkvn. simpl in Hkvn. congruence. }
  exists s2. split; [done|]. split.
  { unfold get, remove. rewrite Hk, Hn. simpl. rewrite Hlink. simpl.
    rewrite Hadd. simpl. rewrite Hn2. simpl. by rewrite Hv. }
  split; [|done].
  assert ((node, (k, v)) :: l1 ++ l2 ≡ₚ l1 ++ (node, (k, v)) :: l2) as Hperm
    by apply Permutation_middle.
  constructor.
  - rewrite Hhd, Htl. rewrite fmap_cons, fmap_app. simpl.
    rewrite <- app_assoc, Hyqs, Hpath. apply NoDup_cons in Hnd' as [? ?].
    apply NoDup_cons. split; [set_solver|]. apply NoDup_cons. split; [set_solver|done].
  - rewrite Hhd, Htl. rewrite fmap_cons, fmap_app. simpl.
    rewrite <- app_assoc, Hyqs, Hpath. exact Hc2.
  - intros p k' v' Hin. rewrite Hkv2, Hkv'. apply (rep_kv _ _ Hrep).
    by rewrite <- Hperm.
  - rewrite Hperm. apply (rep_keys _ _ Hrep).
  - intros k' p. rewrite Hmap, (rep_index _ _ Hrep).
    split; intros [v' Hin]; exists v'; [by rewrite Hperm|by rewrite <- Hperm].
  - rewrite Hmap, (rep_size _ _ Hrep). by rewrite Hperm.
Qed.

(** *** [put] *)

Lemma spec_drop_absent k (c : list (K * V)) : k ∉ c.*1 → spec_drop k c = c.
Proof.
  unfold spec_drop. induction c as [|e c IH]; [done|]. rewrite fmap_cons.
  intros Hk. rewrite filter_cons_True; [|set_solver]. f_equal. apply IH. set_solver.
Qed.

Lemma spec_drop_middle k v (c1 c2 : list (K * V)) :
  k ∉ c1.*1 → k ∉ c2.*1 → spec_drop k (c1 ++ (k, v) :: c2) = c1 ++ c2.
Proof.
  intros H1%spec_drop_absent H2%spec_drop_absent. unfold spec_drop in *.
  rewrite filter_app, filter_cons_False by naive_solver. by rewrite H1, H2.
Qed.

(** The first part of [put]: the node of an existing key is unlinked and
    freed; its index entry stays for the moment. *)
Lemma put_drop_old s l k :
  rep s l →
  ∃ s1 l1,
    (match _cache_mapper s !! k with
     | Some old_node =>
         s' ← remove old_node s;
         Some (with_heap (delete old_node (heap s')) s')
     | None => Some s
     end) = Some s1 ∧
    _head s1 = _head s ∧ _tail s1 = _tail s ∧ _capacity s1 = _capacity s ∧
    _cache_mapper s1 = _cache_mapper s ∧
    NoDup (_head s :: l1.*1 ++ [_tail s]) ∧
    chain (heap s1) (_head s) (l1.*1 ++ [_tail s]) ∧
    (∀ p k' v, (p, (k', v)) ∈ l1 → kv (heap s1) p = Some (Some k', Some v)) ∧
    NoDup l1.*2.*1 ∧ (k ∉ l1.*2.*1) ∧
    (∀ k' p, k' ≠ k →
       _cache_mapper s !! k' = Some p ↔ ∃ v, (p, (k', v)) ∈ l1) ∧
    (∀ q, size (<[k := q]> (_cache_mapper s)) = S (length l1)) ∧
    l1.*2 = spec_drop k l.*2.
Proof.
  intros Hrep. destruct (_cache_mapper s !! k) as [old|] eqn:Hk.
  - destruct (proj1 (rep_index _ _ Hrep k old) Hk) as [v Hin].
    apply list_elem_of_split in Hin as (l1 & l2 & ->).
    pose proof (rep_nodup _ _ Hrep) as Hnd.
    pose proof (rep_chain _ _ Hrep) as Hc.
    pose proof (rep_keys _ _ Hrep) as Hkeys.
    rewrite !fmap_app, !fmap_cons in Hkeys. simpl in Hkeys.
    apply NoDup_app in Hkeys as (Hk1 & Hkd & Hk2).
    apply NoDup_cons in Hk2 as [Hk2 Hk3].
    assert (k ∉ l1.*2.*1) as Hkl1.
    { intros Hin. apply (Hkd _ Hin). by left. }
    rewrite !fmap_app, fmap_cons in Hnd, Hc. simpl in Hnd, Hc.
    rewrite <- app_assoc in Hnd, Hc. simpl in Hnd, Hc.
    destruct (path_cons (l2.*1) (_tail s)) as (y & qs & Hyqs).
    rewrite Hyqs in Hnd, Hc.
    destruct (unlink_spec _ _ _ _ _ _ Hnd Hc)
      as (n & h' & Hn & Hlink & Hc' & Hkv' & Hdom').
    assert (NoDup (_head s :: l1.*1 ++ y :: qs) ∧ old ∉ _head s :: l1.*1 ++ y :: qs)
      as [Hnd' Hold].
    { rewrite app_comm_cons in Hnd. apply NoDup_app in Hnd as (Hnd1 & Hdisj & Hnd2).
      apply NoDup_cons in Hnd2 as [Hnode Hnd2]. split.
      - rewrite app_comm_cons. apply NoDup_app. split_and!; [done| |done].
        intros u Hu Hin. apply (Hdisj u Hu). by right.
      - rewrite app_comm_cons. intros [Hin|Hin]%elem_of_app; [|done].
        apply (Hdisj old Hin). by left. }
    exists (with_heap (delete old h') (with_heap h' s)), (l1 ++ l2).
    split.
    { unfold remove. rewrite Hn. simpl. rewrite Hlink. done. }
    simpl. rewrite fmap_app, <- app_assoc, Hyqs.
    assert (∀ p e, (p, e) ∈ l1 ++ l2 → p ≠ old) as Hne.
    { intros p e Hin ->. apply Hold. right. rewrite <- Hyqs, app_assoc, <- fmap_app.
      apply elem_of_app. left. by apply (list_elem_of_fmap_2 fst) in Hin. }
    split_and!; try done.
    + eapply chain_frame; [| |exact Hc'].
      * intros u Hu. apply nxt_delete_ne. by intros ->.
      * intros w Hw. apply prv_delete_ne. intros ->. apply Hold. by right.
    + intros p k' v' Hin. rewrite kv_delete_ne by eauto. rewrite Hkv'.
      apply (rep_kv _ _ Hrep). set_solver.
    + rewrite !fmap_app. apply NoDup_app. split_and!; [done| |done].
      intros u Hu Hin. apply (Hkd u Hu). by right.
    + rewrite !fmap_app. intros [?|?]%elem_of_app; done.
    + intros k' p Hk'. rewrite (rep_index _ _ Hrep). split; intros [v' Hin]; exists v'.
      * apply elem_of_app in Hin as [?|Hin]; [set_solver|].
        apply elem_of_cons in Hin as [?|?]; [congruence|set_solver].
      * set_solver.
    + intros q. rewrite map_size_insert_Some by eauto.
      rewrite (rep_size _ _ Hrep), !length_app. simpl. lia.
    + rewrite !fmap_app, fmap_cons. simpl. symmetry. by apply spec_drop_middle.
  - assert (k ∉ l.*2.*1) as Hkl.
    { intros Hin. apply list_elem_of_fmap in Hin as (e & He & Hin).
      apply list_elem_of_fmap in Hin as ((p & [k' v]) & Hpe & Hin).
      simpl in *. subst e. simpl in *. subst k'.
      assert (_cache_mapper s !! k = Some p) as Hp
        by (apply (rep_index _ _ Hrep); eauto).
      congruence. }
    exists s, l. split_and!; try done; try apply Hrep.
    + intros k' p _. apply (rep_index _ _ Hrep).
    + intros q. rewrite map_size_insert_None by done. by rewrite (rep_size _ _ Hrep).
    + symmetry. by apply spec_drop_absent.
Qed.

Lemma key_elem_of l p k v : (p, (k, v)) ∈ l → k ∈ l.*2.*1.
Proof.
  intros Hin. apply list_elem_of_fmap. exists (k, v). split; [done|].
  apply list_elem_of_fmap. by exists (p, (k, v)).
Qed.

Lemma ptr_elem_of l p (e : K * V) : (p, e) ∈ l → p ∈ l.*1.
Proof. intros Hin. apply list_elem_of_fmap. by exists (p, e). Qed.

(** The last part of [put]: the node in front of the tail sentinel is
    unlinked, its key leaves the index and the node is freed. *)
Lemma evict_spec s l pz kz vz :
  rep s (l ++ [(pz, (kz, vz))]) →
  ∃ s',
    (tl ← heap s !! _tail s;
     tail_prev ← prev tl;
     s5 ← remove tail_prev s;
     n ← heap s5 !! tail_prev;
     let s6 :=
       match key n with
       | Some k' => with_mapper (delete k' (_cache_mapper s5)) s5
       | None => s5
       end in
     Some (with_heap (delete tail_prev (heap s6)) s6)) = Some s' ∧
    rep s' l ∧ _capacity s' = _capacity s.
Proof.
  intros Hrep.
  pose proof (rep_nodup _ _ Hrep) as Hnd.
  pose proof (rep_chain _ _ Hrep) as Hc.
  pose proof (rep_keys _ _ Hrep) as Hkeys.
  rewrite !fmap_app in Hkeys. simpl in Hkeys.
  apply NoDup_app in Hkeys as (Hk1 & Hkd & _).
  rewrite !fmap_app in Hnd, Hc. simpl in Hnd, Hc.
  rewrite <- app_assoc in Hnd, Hc. simpl in Hnd, Hc.
  destruct (unlink_spec _ _ _ _ _ _ Hnd Hc)
    as (n & h' & Hn & Hlink & Hc' & Hkv' & Hdom').
  assert (prv (heap s) (_tail s) = Some pz) as Hprv.
  { apply chain_app in Hc as [_ Hc]. simpl in Hc. tauto. }
  destruct (prv_live _ _ _ Hprv) as [tl Htl].
  assert (prev tl = Some pz) as Hprev by (unfold prv in Hprv; by rewrite Htl in Hprv).
  assert (kv h' pz = Some (Some kz, Some vz)) as Hkvz.
  { rewrite Hkv'. apply (rep_kv _ _ Hrep). set_solver. }
  destruct (kv_live _ _ _ Hkvz) as [n5 Hn5].
  assert (key n5 = Some kz) as Hkey.
  { unfold kv in Hkvz. rewrite Hn5 in Hkvz. simpl in Hkvz. congruence. }
  assert (_cache_mapper s !! kz = Some pz) as Hidx.
  { apply (rep_index _ _ Hrep). exists vz. set_solver. }
  assert (NoDup (_head s :: l.*1 ++ [_tail s]) ∧ pz ∉ _head s :: l.*1 ++ [_tail s])
    as [Hnd' Hpz].
  { rewrite app_comm_cons in Hnd. apply NoDup_app in Hnd as (Hnd1 & Hdisj & Hnd2).
    apply NoDup_cons in Hnd2 as [Hnode Hnd2]. split.
    - rewrite app_comm_cons. apply NoDup_app. split_and!; [done| |done].
      intros u Hu Hin. apply (Hdisj u Hu). by right.
    - rewrite app_comm_cons. intros [Hin|Hin]%elem_of_app; [|done].
      apply (Hdisj pz Hin). by left. }
  eexists. split.
  { rewrite Htl. simpl. rewrite Hprev. simpl. unfold remove. rewrite Hn. simpl.
    rewrite Hlink. simpl. rewrite Hn5. simpl. rewrite Hkey. done. }
  split; [|done]. constructor; simpl.
  - done.
  - eapply chain_frame; [| |exact Hc'].
    + intros u Hu. apply nxt_delete_ne. by intros ->.
    + intros w Hw. apply prv_delete_ne. intros ->. apply Hpz. by right.
  - intros p k v Hin. rewrite kv_delete_ne, Hkv'.
    + apply (rep_kv _ _ Hrep). set_solver.
    + intros ->. apply Hpz. right. apply elem_of_app. left.
      by eapply ptr_elem_of.
  - done.
  - intros k p. rewrite lookup_delete_Some, (rep_index _ _ Hrep). split.
    + intros [Hne [v Hin]]. exists v.
      apply elem_of_app in Hin as [?|Hin]; [done|].
      apply list_elem_of_singleton in Hin. congruence.
    + intros [v Hin]. split; [|exists v; set_solver].
      intros <-. apply (Hkd kz); [|set_solver]. by eapply key_elem_of.
  - rewrite map_size_delete_Some by eauto.
    rewrite (rep_size _ _ Hrep), length_app. simpl. lia.
Qed.

Local Arguments chain : simpl never.

(** The middle part of [put]: the new node is allocated, indexed and linked
    right behind the head sentinel. *)
Lemma put_link_new s l k v :
  rep s l →
  ∃ s1 s4 l1,
    (match _cache_mapper s !! k with
     | Some old_node =>
         s' ← remove old_node s;
         Some (with_heap (delete old_node (heap s')) s')
     | None => Some s
     end) = Some s1 ∧
    add (fresh (dom (heap s1)))
        (with_mapper (<[k := fresh (dom (heap s1))]> (_cache_mapper s1))
           (with_heap (<[fresh (dom (heap s1)) := mkNode (Some k) (Some v) None None]>
                         (heap s1)) s1)) = Some s4 ∧
    rep s4 ((fresh (dom (heap s1)), (k, v)) :: l1) ∧
    l1.*2 = spec_drop k l.*2 ∧
    _capacity s4 = _capacity s ∧ _head s4 = _head s ∧ _tail s4 = _tail s ∧
    _cache_mapper s4 = <[k := fresh (dom (heap s1))]> (_cache_mapper s).
Proof.
  intros Hrep.
  destruct (put_drop_old s l k Hrep)
    as (s1 & l1 & Hs1 & Hhd1 & Htl1 & Hcap1 & Hmap1 & Hnd1 & Hc1 & Hkv1 & Hkeys1 &
        Hk1 & Hidx1 & Hsz1 & Hdrop).
  exists s1.
  set (new := fresh (dom (heap s1))).
  assert (heap s1 !! new = None) as Hnew by (apply not_elem_of_dom, is_fresh).
  assert (∀ u, u ∈ _head s :: l1.*1 ++ [_tail s] → is_Some (heap s1 !! u)) as Hlive.
  { intros u [->|Hu]%elem_of_cons.
    - destruct (path_cons (l1.*1) (_tail s)) as (y & qs & Hy). rewrite Hy in Hc1.
      destruct Hc1 as (Hc1 & _). by eapply nxt_live.
    - apply elem_of_app in Hu as [Hu|Hu].
      + apply list_elem_of_fmap in Hu as ((p & [k' v']) & -> & Hin).
        eapply kv_live, Hkv1, Hin.
      + apply list_elem_of_singleton in Hu as ->.
        apply chain_snoc in Hc1 as (_ & _ & Hc1). by eapply prv_live. }
  assert (new ∉ _head s :: l1.*1 ++ [_tail s]) as Hfresh.
  { intros [n Hn]%Hlive. congruence. }
  destruct (path_cons (l1.*1) (_tail s)) as (y & qs & Hy).
  rewrite Hy in Hnd1, Hc1, Hfresh.
  set (s3 := with_mapper _ _).
  destruct (add_spec s3 new y qs)
    as (s4 & Hadd & Hhd4 & Htl4 & Hcap4 & Hmap4 & Hc4 & Hkv4 & Hdom4);
    subst s3; simpl; rewrite ?Hhd1; try done.
  { rewrite lookup_insert_eq. eauto. }
  { eapply chain_frame; [| |exact Hc1].
    - intros u Hu. apply nxt_insert_ne. by intros ->.
    - intros w Hw. apply prv_insert_ne. intros ->. apply Hfresh. by right. }
  simpl in *. exists s4, l1.
  split_and!; try done; try congruence.
  constructor.
  - rewrite Hhd4, Htl4, Hhd1, Htl1, fmap_cons. simpl. rewrite Hy.
    apply NoDup_cons in Hnd1 as [Hhy Hnd1].
    apply NoDup_cons. split.
    { intros [Heq|?]%elem_of_cons; [|done]. apply Hfresh. rewrite Heq. by left. }
    apply NoDup_cons. split; [|done]. intros Hin. apply Hfresh. by right.
  - rewrite Hhd4, Htl4, Hhd1, Htl1, fmap_cons. simpl. rewrite Hy, <- Hhd1. exact Hc4.
  - intros p k' v' [Heq|Hin]%elem_of_cons; rewrite Hkv4.
    + simplify_eq. unfold kv. by rewrite lookup_insert_eq.
    + rewrite kv_insert_ne; [by apply Hkv1|]. intros ->.
      pose proof (kv_live _ _ _ (Hkv1 _ _ _ Hin)) as [? ?]. congruence.
  - rewrite !fmap_cons. simpl. by apply NoDup_cons.
  - intros k' p. rewrite Hmap4, Hmap1. destruct (decide (k' = k)) as [->|Hne].
    + rewrite lookup_insert_eq. split.
      * intros [= <-]. exists v. by left.
      * intros [v' [Heq|Hin]%elem_of_cons]; [congruence|].
        exfalso. apply Hk1. by eapply key_elem_of.
    + rewrite lookup_insert_ne, Hidx1 by done.
      split; intros [v' Hin]; exists v'; [by right|].
      apply elem_of_cons in Hin as [?|?]; [congruence|done].
  - rewrite Hmap4, Hmap1. simpl. apply Hsz1.
Qed.

(** [put] follows the recency list of the specification. *)
Lemma put_spec s l k v :
  rep s l →
  ∃ s' l', put k v s = Some s' ∧ rep s' l' ∧
           l'.*2 = spec_put (_capacity s) k v l.*2 ∧
           _capacity s' = _capacity s.
Proof.
  intros Hrep.
  destruct (put_link_new s l k v Hrep)
    as (s1 & s4 & l1 & Hs1 & Hadd & Hrep4 & Hdrop & Hcap4 & _).
  unfold put. rewrite Hs1. simpl. simpl in Hadd. rewrite Hadd. simpl.
  set (new := fresh (dom (heap s1))) in *.
  assert (((new, (k, v)) :: l1).*2 = (k, v) :: spec_drop k l.*2) as Hl2
    by (by rewrite fmap_cons, Hdrop).
  assert (size (_cache_mapper s4) = length ((k, v) :: spec_drop k l.*2)) as Hsz4.
  { rewrite (rep_size _ _ Hrep4), <- Hl2. by rewrite length_fmap. }
  unfold spec_put. rewrite Hsz4, Hcap4.
  destruct (to_size_t (_capacity s) <? N.of_nat (length ((k, v) :: spec_drop k l.*2))).
  - destruct (exists_last (l := (new, (k, v)) :: l1)) as (l3 & [pz [kz vz]] & Hl3);
      [done|].
    rewrite Hl3 in Hrep4.
    destruct (evict_spec s4 l3 pz kz vz Hrep4) as (s' & Hev & Hrep' & Hcap').
    exists s', l3. split_and!; [exact Hev|done| |congruence].
    rewrite <- Hl2, Hl3, fmap_app. simpl. by rewrite removelast_last.
  - exists s4, ((new, (k, v)) :: l1). split_and!; try done.
Qed.

(** [get] follows the recency list of the specification. *)

Lemma spec_lookup_absent k (c : list (K * V)) : k ∉ c.*1 → spec_lookup k c = None.
Proof.
  induction c as [|e c IH]; [done|]. rewrite fmap_cons. intros Hk. simpl.
  rewrite decide_False by set_solver. apply IH. set_solver.
Qed.

Lemma spec_lookup_middle k v (c1 c2 : list (K * V)) :
  k ∉ c1.*1 → spec_lookup k (c1 ++ (k, v) :: c2) = Some v.
Proof.
  induction c1 as [|e c1 IH]; simpl.
  - intros _. by rewrite decide_True.
  - intros Hk. rewrite decide_False by set_solver. apply IH. set_solver.
Qed.

Lemma get_spec s l k :
  rep s l →
  ∃ s' l', get k s = Some (spec_lookup k l.*2, s') ∧ rep s' l' ∧
           l'.*2 = spec_get k l.*2 ∧ _capacity s' = _capacity s.
Proof.
  intros Hrep. destruct (_cache_mapper s !! k) as [node|] eqn:Hk.
  - destruct (get_present s l k node Hrep Hk)
      as (v & l1 & l2 & s' & -> & Hget & Hrep' & Hcap & _).
    pose proof (rep_keys _ _ Hrep) as Hkeys.
    rewrite !fmap_app, !fmap_cons in Hkeys. simpl in Hkeys.
    apply NoDup_app in Hkeys as (_ & Hkd & Hk2).
    apply NoDup_cons in Hk2 as [Hk2 _].
    assert (k ∉ l1.*2.*1) as Hk1.
    { intros Hin. apply (Hkd _ Hin). by left. }
    exists s', ((node, (k, v)) :: l1 ++ l2).
    rewrite !fmap_app, !fmap_cons. simpl. unfold spec_get.
    rewrite spec_lookup_middle, spec_drop_middle by done.
    rewrite fmap_app. by split_and!.
  - assert (k ∉ l.*2.*1) as Hkl.
    { intros Hin. apply list_elem_of_fmap in Hin as (e & He & Hin).
      apply list_elem_of_fmap in Hin as ((p & [k' v]) & Hpe & Hin).
      simpl in *. subst e. simpl in *. subst k'.
      assert (_cache_mapper s !! k = Some p) as Hp
        by (apply (rep_index _ _ Hrep); eauto).
      congruence. }
    exists s, l. unfold spec_get. rewrite spec_lookup_absent by done.
    split_and!; try done. by apply get_absent.
Qed.

(** A key is retrievable exactly when the recency list holds it. *)
Lemma retrievable_keys s l k : rep s l → retrievable s k ↔ k ∈ l.*2.*1.
Proof.
  intros Hrep. unfold retrievable.
  destruct (get_spec s l k Hrep) as (s' & l' & Hget & _).
  destruct (decide (k ∈ l.*2.*1)) as [Hin|Hnot].
  - split; [done|]. intros _.
    apply list_elem_of_fmap in Hin as ([k' v] & -> & Hin).
    apply list_elem_of_split in Hin as (c1 & c2 & Hc). simpl in *.
    assert (is_Some (spec_lookup k' l.*2)) as [v' Hv'].
    { rewrite Hc. clear. induction c1 as [|e c1 IH]; simpl.
      - rewrite decide_True by done. eauto.
      - destruct (decide (e.1 = k')); eauto. }
    rewrite Hv' in Hget. eauto.
  - split; [|done]. intros (v & s'' & Hg).
    rewrite spec_lookup_absent in Hget by done. congruence.
Qed.

(** *** Sequences of calls *)

Lemma exec_spec (ops : list (op K V)) s l :
  rep s l →
  ∃ s' l', exec ops s = Some s' ∧ rep s' l' ∧
           l'.*2 = spec_exec (_capacity s) ops l.*2 ∧
           _capacity s' = _capacity s.
Proof.
  revert s l. induction ops as [|o ops IH]; intros s l Hrep.
  - by exists s, l.
  - cbn [exec spec_exec].
    assert (∃ s1 l1, step o s = Some s1 ∧ rep s1 l1 ∧
                     l1.*2 = spec_step (_capacity s) o l.*2 ∧
                     _capacity s1 = _capacity s)
      as (s1 & l1 & -> & Hrep1 & Hl1 & Hcap1).
    { destruct o as [k v|k]; simpl.
      - apply put_spec, Hrep.
      - destruct (get_spec s l k Hrep) as (s1 & l1 & -> & ? & ? & ?).
        by exists s1, l1. }
    simpl. destruct (IH s1 l1 Hrep1) as (s' & l' & ? & ? & Hl' & ?).
    exists s', l'. split_and!; try done; [|congruence].
    by rewrite Hl', Hl1, Hcap1.
Qed.

Lemma spec_drop_length k (c : list (K * V)) :
  (length (spec_drop k c) ≤ length c)%nat.
Proof. apply length_filter. Qed.

Lemma spec_drop_found k v (c : list (K * V)) :
  spec_lookup k c = Some v → (length (spec_drop k c) < length c)%nat.
Proof.
  unfold spec_drop. induction c as [|e c IH]; simpl; [done|].
  destruct (decide (e.1 = k)) as [He|He].
  - intros _. rewrite filter_cons_False by naive_solver.
    pose proof (length_filter (λ e, e.1 ≠ k) c). lia.
  - intros Hv. rewrite filter_cons_True by done. simpl. apply IH in Hv. lia.
Qed.

Lemma spec_step_length (capacity : Z) (o : op K V) (c : list (K * V)) :
  (0 ≤ capacity < 2 ^ 64)%Z →
  (length c ≤ Z.to_nat capacity)%nat →
  (length (spec_step capacity o c) ≤ Z.to_nat capacity)%nat.
Proof.
  intros Hcap Hlen. destruct o as [k v|k]; simpl.
  - unfold spec_put.
    pose proof (spec_drop_length k c) as Hd.
    assert (to_size_t capacity = Z.to_N capacity) as ->.
    { unfold to_size_t. by rewrite Z.mod_small. }
    destruct (N.ltb_spec (Z.to_N capacity)
                (N.of_nat (length ((k, v) :: spec_drop k c)))) as [Hlt|Hge].
    + assert (length (removelast ((k, v) :: spec_drop k c))
              = length (spec_drop k c)) as ->.
      { destruct (exists_last (l := (k, v) :: spec_drop k c)) as (c' & e & Hc');
          [done|].
        rewrite Hc', removelast_last.
        apply (f_equal length) in Hc'. rewrite length_app in Hc'. simpl in Hc'. lia. }
      lia.
    + simpl in *. lia.
  - unfold spec_get. destruct (spec_lookup k c) as [v|] eqn:Hv; [|done].
    apply spec_drop_found in Hv. simpl. lia.
Qed.

Lemma spec_exec_length (capacity : Z) (ops : list (op K V)) (c : list (K * V)) :
  (0 ≤ capacity < 2 ^ 64)%Z →
  (length c ≤ Z.to_nat capacity)%nat →
  (length (spec_exec capacity ops c) ≤ Z.to_nat capacity)%nat.
Proof.
  intros Hcap. revert c. induction ops as [|o ops IH]; intros c Hlen; [done|].
  simpl. apply IH. by apply spec_step_length.
Qed.

Lemma spec_put_room (capacity : Z) k v (c : list (K * V)) :
  k ∉ c.*1 → (to_size_t capacity <? N.of_nat (S (length c))) = false →
  spec_put capacity k v c = (k, v) :: c.
Proof.
  intros Hk Hroom. unfold spec_put. rewrite spec_drop_absent by done.
  simpl. by rewrite Hroom.
Qed.

Lemma spec_put_full (capacity : Z) k v (c : list (K * V)) :
  k ∉ c.*1 → (to_size_t capacity <? N.of_nat (S (length c))) = true →
  spec_put capacity k v c = removelast ((k, v) :: c).
Proof.
  intros Hk Hfull. unfold spec_put. rewrite spec_drop_absent by done.
  cbn [length]. by rewrite Hfull.
Qed.

Lemma spec_get_middle k v (c1 c2 : list (K * V)) :
  k ∉ c1.*1 → k ∉ c2.*1 →
  spec_get k (c1 ++ (k, v) :: c2) = (k, v) :: c1 ++ c2.
Proof.
  intros H1 H2. unfold spec_get.
  by rewrite spec_lookup_middle, spec_drop_middle.
Qed.

(** *** Specification claims *)

(** C7. With capacity 2, after [put(a,1); put(b,2); get(a); put(c,3)] on
    three distinct keys, [get(b)] is empty and [get(a)], [get(c)] return the
    values stored for them. *)
Theorem lru_evicts_least_recently_used (a b c : K) (v1 v2 v3 : V) :
  a ≠ b → a ≠ c → b ≠ c →
  ∃ s0 s, LRUCache 2 = Some s0 ∧
          exec [OpPut a v1; OpPut b v2; OpGet a; OpPut c v3] s0 = Some s ∧
          fst <$> get b s = Some None ∧
          fst <$> get a s = Some (Some v1) ∧
          fst <$> get c s = Some (Some v3).
Proof.
  intros Hab Hac Hbc.
  destruct (LRUCache_rep 2) as (s0 & Hnew & Hrep0 & Hcap0).
  destruct (exec_spec [OpPut a v1; OpPut b v2; OpGet a; OpPut c v3] s0 [] Hrep0)
    as (s & l & Hexec & Hrep & Hl & _).
  assert (l.*2 = [(c, v3); (a, v1)]) as Hl'.
  { rewrite Hl, Hcap0. cbn [spec_exec spec_step fmap list_fmap].
    rewrite (spec_put_room 2 a v1 []);
      [|set_solver|vm_compute; reflexivity].
    rewrite (spec_put_room 2 b v2 [(a, v1)]);
      [|simpl; set_solver|vm_compute; reflexivity].
    change [(b, v2); (a, v1)] with ([(b, v2)] ++ (a, v1) :: []).
    rewrite (spec_get_middle a v1 [(b, v2)] []);
      [|simpl; set_solver|set_solver].
    cbn [app].
    rewrite (spec_put_full 2 c v3 [(a, v1); (b, v2)]);
      [|simpl; set_solver|vm_compute; reflexivity].
    done. }
  exists s0, s. split; [done|]. split; [done|].
  destruct (get_spec s l b Hrep) as (sb & lb & -> & _).
  destruct (get_spec s l a Hrep) as (sa & la & -> & _).
  destruct (get_spec s l c Hrep) as (sc & lc & -> & _).
  rewrite Hl'. simpl. rewrite !decide_False, !decide_True by done. done.
Qed.

(** C10. With capacity c >= 1, after every prefix of every sequence of puts
    and gets the keys retrievable through [get] are those of the recency list
    of the specification, in which a put that exceeds the capacity evicts the
    entry at the back at once; they are at most c, whatever the history of
    accesses. *)
Theorem lru_retrievable_keys_bounded (c : Z) (ops : list (op K V)) :
  (1 ≤ c ≤ 2 ^ 31 - 1)%Z →
  ∃ s0, LRUCache c = Some s0 ∧
    ∀ i, ∃ s keys,
      exec (take i ops) s0 = Some s ∧
      keys = (spec_exec c (take i ops) []).*1 ∧
      NoDup keys ∧ (∀ k, retrievable s k ↔ k ∈ keys) ∧
      size (_cache_mapper s) = length keys ∧
      (Z.of_nat (length keys) ≤ c)%Z.
Proof.
  intros Hc.
  destruct (LRUCache_rep c) as (s0 & Hnew & Hrep0 & Hcap0).
  exists s0. split; [done|]. intros i.
  destruct (exec_spec (take i ops) s0 [] Hrep0) as (s & l & Hexec & Hrep & Hl & _).
  rewrite Hcap0 in Hl. simpl in Hl.
  exists s, l.*2.*1. split_and!.
  - done.
  - by rewrite Hl.
  - apply (rep_keys _ _ Hrep).
  - intros k. by apply retrievable_keys.
  - by rewrite (rep_size _ _ Hrep), !length_fmap.
  - rewrite Hl, length_fmap.
    pose proof (spec_exec_length c (take i ops) [] ltac:(lia) ltac:(simpl; lia)).
    lia.
Qed.

(** *** Further properties of the recency list *)

Lemma spec_lookup_drop_eq k (c : list (K * V)) : spec_lookup k (spec_drop k c) = None.
Proof.
  unfold spec_drop. induction c as [|e c IH]; [done|].
  destruct (decide (e.1 = k)) as [He|He].
  - by rewrite filter_cons_False by naive_solver.
  - rewrite filter_cons_True by done. simpl. by rewrite decide_False.
Qed.

Lemma spec_lookup_drop_ne k k' (c : list (K * V)) :
  k' ≠ k → spec_lookup k' (spec_drop k c) = spec_lookup k' c.
Proof.
  intros Hne. unfold spec_drop. induction c as [|e c IH]; [done|].
  destruct (decide (e.1 = k)) as [He|He].
  - rewrite filter_cons_False by naive_solver. simpl.
    rewrite decide_False by congruence. done.
  - rewrite filter_cons_True by done. simpl. by rewrite IH.
Qed.

Lemma spec_lookup_get k k' (c : list (K * V)) :
  spec_lookup k' (spec_get k c) = spec_lookup k' c.
Proof.
  unfold spec_get. destruct (spec_lookup k c) as [v|] eqn:Hv; [|done].
  simpl. destruct (decide (k = k')) as [->|Hne]; [done|].
  by apply spec_lookup_drop_ne.
Qed.

Lemma spec_lookup_Some_keys k v (c : list (K * V)) :
  spec_lookup k c = Some v → k ∈ c.*1.
Proof.
  induction c as [|e c IH]; simpl; [done|].
  destruct (decide (e.1 = k)) as [<-|He]; [by left|]. intros Hv. right. auto.
Qed.

Lemma to_size_t_nonzero (z : Z) :
  (- 2 ^ 64 < z < 2 ^ 64)%Z → z ≠ 0%Z → 1 ≤ to_size_t z.
Proof.
  intros Hz Hne. unfold to_size_t.
  destruct (Z.lt_ge_cases z 0) as [Hneg|Hpos].
  - rewrite <- (Z.mod_add z 1 (2 ^ 64)) by lia. rewrite Z.mod_small by lia. lia.
  - rewrite Z.mod_small by lia. lia.
Qed.

(** The entry just stored is at the front, and stays there when the back is
    dropped, unless the capacity is 0. *)
Lemma spec_lookup_put_eq (capacity : Z) k v (c : list (K * V)) :
  1 ≤ to_size_t capacity → spec_lookup k (spec_put capacity k v c) = Some v.
Proof.
  intros Hcap. unfold spec_put.
  destruct (N.ltb_spec (to_size_t capacity)
              (N.of_nat (length ((k, v) :: spec_drop k c)))) as [Hlt|Hge].
  - destruct (spec_drop k c) as [|e d]; simpl in Hlt; [lia|].
    change (removelast ((k, v) :: e :: d)) with ((k, v) :: removelast (e :: d)).
    simpl. by rewrite decide_True.
  - simpl. by rewrite decide_True.
Qed.

(** A put within the capacity changes no other key. *)
Lemma spec_lookup_put_ne (capacity : Z) k k' v (c : list (K * V)) :
  k' ≠ k →
  N.of_nat (S (length (spec_drop k c))) ≤ to_size_t capacity →
  spec_lookup k' (spec_put capacity k v c) = spec_lookup k' c.
Proof.
  intros Hne Hroom. unfold spec_put.
  destruct (N.ltb_spec (to_size_t capacity)
              (N.of_nat (length ((k, v) :: spec_drop k c)))) as [Hlt|Hge].
  - simpl in Hlt. lia.
  - simpl. rewrite decide_False by congruence. by apply spec_lookup_drop_ne.
Qed.

Lemma reachable_rep (capacity : Z) (ops : list (op K V)) :
  ∃ s0 s l, LRUCache capacity = Some s0 ∧ exec ops s0 = Some s ∧ rep s l ∧
            l.*2 = spec_exec capacity ops [] ∧ _capacity s = capacity.
Proof.
  destruct (LRUCache_rep capacity) as (s0 & Hnew & Hrep0 & Hcap0).
  destruct (exec_spec ops s0 [] Hrep0) as (s & l & Hexec & Hrep & Hl & Hcap).
  exists s0, s, l. rewrite Hcap0 in Hl, Hcap. by split_and!.
Qed.

Lemma spec_drop_keys k k' (c : list (K * V)) :
  k' ∈ (spec_drop k c).*1 ↔ k' ∈ c.*1 ∧ k' ≠ k.
Proof.
  unfold spec_drop. rewrite !list_elem_of_fmap. split.
  - intros (e & -> & [He Hin]%list_elem_of_filter). split; [eauto|done].
  - intros [(e & -> & Hin) Hne]. exists e. split; [done|].
    by apply list_elem_of_filter.
Qed.

Lemma spec_get_keys k k' (c : list (K * V)) :
  k' ∈ (spec_get k c).*1 ↔ k' ∈ c.*1.
Proof.
  unfold spec_get. destruct (spec_lookup k c) as [v|] eqn:Hv; [|done].
  rewrite fmap_cons, elem_of_cons, spec_drop_keys. simpl.
  apply spec_lookup_Some_keys in Hv.
  destruct (decide (k' = k)) as [->|Hne]; naive_solver.
Qed.

Lemma spec_lookup_is_Some k (c : list (K * V)) :
  k ∈ c.*1 → is_Some (spec_lookup k c).
Proof.
  induction c as [|e c IH]; [by intros ?%elem_of_nil|].
  rewrite fmap_cons, elem_of_cons. simpl. intros [->|Hin].
  - rewrite decide_True by done. eauto.
  - destruct (decide (e.1 = k)); eauto.
Qed.

Lemma spec_step_length_S (capacity : Z) (o : op K V) (c : list (K * V)) :
  (length (spec_step capacity o c) ≤ S (length c))%nat.
Proof.
  destruct o as [k v|k]; simpl.
  - unfold spec_put. pose proof (spec_drop_length k c).
    destruct (_ <? _).
    + destruct (exists_last (l := (k, v) :: spec_drop k c)) as (c' & e & Hc');
        [done|].
      rewrite Hc', removelast_last.
      apply (f_equal length) in Hc'. rewrite length_app in Hc'. simpl in Hc'. lia.
    + simpl. lia.
  - unfold spec_get. destruct (spec_lookup k c) as [v|] eqn:Hv; [|lia].
    apply spec_drop_found in Hv. simpl. lia.
Qed.

(** As long as the calls made fit into the capacity, the keys of the list
    are the keys that were put. *)
Lemma spec_exec_keys_room (capacity : Z) (ops : list (op K V)) (c : list (K * V)) k :
  N.of_nat (length c + length ops) ≤ to_size_t capacity →
  k ∈ (spec_exec capacity ops c).*1 ↔ k ∈ c.*1 ∨ ∃ v, OpPut k v ∈ ops.
Proof.
  revert c. induction ops as [|o ops IH]; intros c Hroom.
  - simpl. split; [auto|]. intros [?|[v Hin]]; [done|]. by apply elem_of_nil in Hin.
  - cbn [spec_exec]. pose proof (spec_step_length_S capacity o c) as Hlen.
    rewrite IH by (simpl in Hroom; lia).
    assert (k ∈ (spec_step capacity o c).*1 ↔
            k ∈ c.*1 ∨ ∃ v, o = OpPut k v) as ->.
    { destruct o as [k0 v0|k0]; simpl.
      - unfold spec_put. pose proof (spec_drop_length k0 c) as Hd.
        destruct (N.ltb_spec (to_size_t capacity)
                    (N.of_nat (length ((k0, v0) :: spec_drop k0 c)))) as [Hlt|_].
        { simpl in Hlt, Hroom. lia. }
        rewrite fmap_cons, elem_of_cons, spec_drop_keys. simpl.
        destruct (decide (k = k0)) as [->|Hne]; [naive_solver|].
        split; [naive_solver|]. intros [?|[v [= ? ?]]]; [auto|done].
      - rewrite spec_get_keys. split; [auto|]. by intros [?|[v ?]]. }
    setoid_rewrite elem_of_cons. naive_solver.
Qed.

(** *** Further properties *)

(** Every sequence of calls, on a cache of any capacity, runs without
    dereferencing a null or freed pointer, and [get] returns what the
    most-recent-first list holds: [put] places the pair at the front, drops an
    older pair of the key and then the last pair if the length exceeds the
    capacity; [get] moves the pair it finds to the front. *)
Theorem lru_follows_recency_list (capacity : Z) (ops : list (op K V)) (k : K) :
  ∃ s0 s s',
    LRUCache capacity = Some s0 ∧ exec ops s0 = Some s ∧
    get k s = Some (spec_lookup k (spec_exec capacity ops []), s') ∧
    size (_cache_mapper s) = length (spec_exec capacity ops []).
Proof.
  destruct (reachable_rep capacity ops) as (s0 & s & l & Hnew & Hexec & Hrep & Hl & _).
  destruct (get_spec s l k Hrep) as (s' & l' & Hget & _).
  exists s0, s, s'. rewrite <- Hl. split_and!; try done.
  by rewrite (rep_size _ _ Hrep), length_fmap.
Qed.

(** With a capacity other than 0, a value that was put is returned by the
    [get] that follows. *)
Theorem lru_put_then_get (capacity : Z) (ops : list (op K V)) (k : K) (v : V) :
  (- 2 ^ 31 ≤ capacity ≤ 2 ^ 31 - 1)%Z → capacity ≠ 0%Z →
  ∃ s0 s s1 s2,
    LRUCache capacity = Some s0 ∧ exec ops s0 = Some s ∧
    put k v s = Some s1 ∧ get k s1 = Some (Some v, s2).
Proof.
  intros Hrange Hne.
  destruct (reachable_rep capacity ops) as (s0 & s & l & Hnew & Hexec & Hrep & Hl & Hcap).
  destruct (put_spec s l k v Hrep) as (s1 & l1 & Hput & Hrep1 & Hl1 & _).
  destruct (get_spec s1 l1 k Hrep1) as (s2 & l2 & Hget & _).
  exists s0, s, s1, s2. split_and!; try done.
  rewrite Hget, Hl1, Hcap. rewrite spec_lookup_put_eq; [done|].
  apply to_size_t_nonzero; lia.
Qed.

(** With capacity 0 every [put] evicts the node it has just linked: the index
    stays empty and every [get] is empty. *)
Theorem lru_capacity_zero_stores_nothing (ops : list (op K V)) (k : K) :
  ∃ s0 s,
    LRUCache 0 = Some s0 ∧ exec ops s0 = Some s ∧
    _cache_mapper s = ∅ ∧ get k s = Some (None, s).
Proof.
  destruct (reachable_rep 0 ops) as (s0 & s & l & Hnew & Hexec & Hrep & Hl & _).
  assert (spec_exec 0 ops ([] : list (K * V)) = []) as Hnil.
  { clear. induction ops as [|[k v|k] ops IH]; [done|exact IH|exact IH]. }
  rewrite Hnil in Hl. apply fmap_nil_inv in Hl as ->.
  assert (_cache_mapper s = ∅) as Hempty.
  { apply map_size_empty_iff. by rewrite (rep_size _ _ Hrep). }
  exists s0, s. split_and!; try done. apply get_absent. by rewrite Hempty.
Qed.

(** While the number of calls made does not exceed the capacity converted to
    [size_t], nothing is evicted: the retrievable keys are the keys that were
    put.  A negative capacity converts to more than 2^63. *)
Theorem lru_nothing_evicted_within_capacity (capacity : Z) (ops : list (op K V)) :
  N.of_nat (length ops) ≤ to_size_t capacity →
  ∃ s0 s,
    LRUCache capacity = Some s0 ∧ exec ops s0 = Some s ∧
    ∀ k, retrievable s k ↔ ∃ v, OpPut k v ∈ ops.
Proof.
  intros Hroom.
  destruct (reachable_rep capacity ops) as (s0 & s & l & Hnew & Hexec & Hrep & Hl & _).
  exists s0, s. split_and!; try done. intros k.
  rewrite (retrievable_keys s l k Hrep), Hl, spec_exec_keys_room by (simpl; lia).
  split; [|auto]. intros [Hin|?]; [|done]. by apply elem_of_nil in Hin.
Qed.

(** [get] relinks nodes but changes no stored pair: whatever key is read
    next, the result is the one it would have been before. *)
Theorem lru_get_keeps_contents (capacity : Z) (ops : list (op K V)) (k k' : K) :
  ∃ s0 s r s1 r' s2 s3,
    LRUCache capacity = Some s0 ∧ exec ops s0 = Some s ∧
    get k s = Some (r, s1) ∧
    get k' s1 = Some (r', s2) ∧ get k' s = Some (r', s3) ∧
    _cache_mapper s1 = _cache_mapper s.
Proof.
  destruct (reachable_rep capacity ops) as (s0 & s & l & Hnew & Hexec & Hrep & Hl & _).
  destruct (get_spec s l k Hrep) as (s1 & l1 & Hget & Hrep1 & Hl1 & _).
  destruct (get_spec s1 l1 k' Hrep1) as (s2 & l2 & Hget1 & _).
  destruct (get_spec s l k' Hrep) as (s3 & l3 & Hget' & _).
  rewrite Hl1, spec_lookup_get in Hget1.
  exists s0, s, (spec_lookup k l.*2), s1, (spec_lookup k' l.*2), s2, s3.
  split_and!; try done.
  destruct (_cache_mapper s !! k) as [node|] eqn:Hk.
  - destruct (get_present s l k node Hrep Hk) as (? & ? & ? & ? & _ & Hg & _ & _ & Hm).
    congruence.
  - rewrite get_absent in Hget by done. congruence.
Qed.

(** With a capacity of at least 0, a [put] of a key that is stored, or one
    made while fewer pairs than the capacity are stored, evicts nothing:
    every other key keeps its value. *)
Theorem lru_put_with_room_keeps_others (capacity : Z) (ops : list (op K V))
    (k k' : K) (v : V) :
  (0 ≤ capacity ≤ 2 ^ 31 - 1)%Z → k' ≠ k →
  ∃ s0 s,
    LRUCache capacity = Some s0 ∧ exec ops s0 = Some s ∧
    (retrievable s k ∨ (Z.of_nat (size (_cache_mapper s)) < capacity)%Z →
     ∃ s1 r s2 s3,
       put k v s = Some s1 ∧
       get k' s1 = Some (r, s2) ∧ get k' s = Some (r, s3)).
Proof.
  intros Hcap Hne.
  destruct (reachable_rep capacity ops) as (s0 & s & l & Hnew & Hexec & Hrep & Hl & Hc).
  exists s0, s. split_and!; try done. intros Hroom.
  destruct (put_spec s l k v Hrep) as (s1 & l1 & Hput & Hrep1 & Hl1 & _).
  destruct (get_spec s1 l1 k' Hrep1) as (s2 & l2 & Hget1 & _).
  destruct (get_spec s l k' Hrep) as (s3 & l3 & Hget & _).
  exists s1, (spec_lookup k' l.*2), s2, s3. split_and!; try done.
  rewrite Hget1, Hl1, Hc. rewrite spec_lookup_put_ne; [done..|].
  assert (to_size_t capacity = Z.to_N capacity) as ->.
  { unfold to_size_t. rewrite Z.mod_small; lia. }
  pose proof (spec_exec_length capacity ops [] ltac:(lia) ltac:(simpl; lia)) as Hlen.
  rewrite <- Hl, length_fmap in Hlen.
  pose proof (spec_drop_length k l.*2) as Hd. rewrite length_fmap in Hd.
  destruct Hroom as [Hk|Hsz].
  - apply (retrievable_keys s l k Hrep), spec_lookup_is_Some in Hk as [v0 Hv0].
    apply spec_drop_found in Hv0. rewrite length_fmap in Hv0. lia.
  - rewrite (rep_size _ _ Hrep) in Hsz. lia.
Qed.

Lemma spec_put_front (capacity : Z) k v (c : list (K * V)) :
  1 ≤ to_size_t capacity → ∃ c', spec_put capacity k v c = (k, v) :: c'.
Proof.
  intros Hcap. unfold spec_put.
  destruct (N.ltb_spec (to_size_t capacity)
              (N.of_nat (length ((k, v) :: spec_drop k c)))) as [Hlt|Hge]; [|eauto].
  destruct (spec_drop k c) as [|e c1]; [simpl in Hlt; lia|].
  exists (removelast (e :: c1)). done.
Qed.

Lemma spec_put_second (capacity : Z) k v k2 v2 (c : list (K * V)) :
  2 ≤ to_size_t capacity → k2 ≠ k →
  spec_lookup k (spec_put capacity k2 v2 ((k, v) :: c)) = Some v.
Proof.
  intros Hcap Hne. unfold spec_put, spec_drop.
  rewrite filter_cons_True by (simpl; congruence).
  set (c1 := filter (λ e : K * V, e.1 ≠ k2) c).
  assert (spec_lookup k ((k2, v2) :: (k, v) :: c1) = Some v) as Hfull.
  { simpl. rewrite decide_False by done. by rewrite decide_True. }
  destruct (N.ltb_spec (to_size_t capacity)
              (N.of_nat (length ((k2, v2) :: (k, v) :: c1)))) as [Hlt|Hge]; [|done].
  destruct c1 as [|e c2]; [simpl in Hlt; lia|].
  change (removelast ((k2, v2) :: (k, v) :: e :: c2))
    with ((k2, v2) :: (k, v) :: removelast (e :: c2)).
  simpl. rewrite decide_False by done. by rewrite decide_True.
Qed.

(** With a capacity of at least 2, the key used last survives the next
    [put] of another key: a value just put, or just returned by [get], is
    still returned after that [put]. *)
Theorem lru_recent_key_survives_next_put (capacity : Z) (ops : list (op K V))
    (k k2 : K) (v v2 : V) :
  (2 ≤ capacity ≤ 2 ^ 31 - 1)%Z → k2 ≠ k →
  ∃ s0 s,
    LRUCache capacity = Some s0 ∧ exec ops s0 = Some s ∧
    (∃ s1 s2 s3, put k v s = Some s1 ∧ put k2 v2 s1 = Some s2 ∧
                 get k s2 = Some (Some v, s3)) ∧
    (∀ v' s1, get k s = Some (Some v', s1) →
       ∃ s2 s3, put k2 v2 s1 = Some s2 ∧ get k s2 = Some (Some v', s3)).
Proof.
  intros Hcap Hne.
  destruct (reachable_rep capacity ops) as (s0 & s & l & Hnew & Hexec & Hrep & Hl & Hc).
  assert (to_size_t capacity = Z.to_N capacity) as Hsz.
  { unfold to_size_t. rewrite Z.mod_small; lia. }
  exists s0, s. split_and!; try done.
  - destruct (put_spec s l k v Hrep) as (s1 & l1 & Hput & Hrep1 & Hl1 & Hc1).
    destruct (put_spec s1 l1 k2 v2 Hrep1) as (s2 & l2 & Hput2 & Hrep2 & Hl2 & _).
    destruct (get_spec s2 l2 k Hrep2) as (s3 & l3 & Hget & _).
    exists s1, s2, s3. split_and!; try done.
    rewrite Hget, Hl2, Hl1, Hc1, Hc.
    destruct (spec_put_front capacity k v l.*2) as [c' ->]; [lia|].
    rewrite spec_put_second; [done|lia|done].
  - intros v' s1 Hget1.
    destruct (get_spec s l k Hrep) as (s1' & l1 & Hget & Hrep1 & Hl1 & Hc1).
    rewrite Hget in Hget1. injection Hget1 as Hv <-.
    destruct (put_spec s1' l1 k2 v2 Hrep1) as (s2 & l2 & Hput2 & Hrep2 & Hl2 & _).
    destruct (get_spec s2 l2 k Hrep2) as (s3 & l3 & Hget3 & _).
    exists s2, s3. split; [done|].
    rewrite Hget3, Hl2, Hl1, Hc1, Hc. unfold spec_get. rewrite Hv.
    rewrite spec_put_second; [done|lia|done].
Qed.

(** *** The store along the calls *)

Import LruViews.

Lemma same_live_size h h' :
  (∀ p, is_Some (h' !! p) ↔ is_Some (h !! p)) → size h' = size h.
Proof.
  intros Hlive.
  assert (dom h' = dom h) as Hd by (apply set_eq; intros p; by rewrite !elem_of_dom).
  by rewrite <- (size_dom (D:=gset positive) h'), <- (size_dom (D:=gset positive) h), Hd.
Qed.

(** [link] writes the [next] field of its first argument only, and frees
    and allocates nothing. *)
Lemma link_frame (x y : option positive) h h' :
  link x y h = Some h' →
  (∀ u, x ≠ Some u → nxt h' u = nxt h u) ∧
  (∀ p, is_Some (h' !! p) ↔ is_Some (h !! p)).
Proof.
  unfold link. destruct x as [p1|]; [simpl|done].
  destruct (h !! p1) as [n1|] eqn:H1; [simpl|done].
  destruct y as [p2|]; [simpl|done].
  destruct (<[p1:=set_next (Some p2) n1]> h !! p2) as [n2|] eqn:H2; [simpl|done].
  intros [= <-]. split.
  - intros u Hu. assert (u ≠ p1) as Hne by congruence. unfold nxt.
    destruct (decide (u = p2)) as [->|Hne2].
    + rewrite lookup_insert_eq. rewrite lookup_insert_ne in H2 by done.
      by rewrite H2.
    + by rewrite !lookup_insert_ne.
  - intros p. destruct (decide (p = p2)) as [->|Hne2].
    + rewrite lookup_insert_eq. destruct (decide (p2 = p1)) as [->|Hne1].
      * rewrite H1. split; eauto.
      * rewrite lookup_insert_ne in H2 by done. rewrite H2. split; eauto.
    + rewrite lookup_insert_ne by done. destruct (decide (p = p1)) as [->|Hne1].
      * rewrite lookup_insert_eq, H1. split; eauto.
      * by rewrite lookup_insert_ne.
Qed.

Lemma remove_frame node s s' :
  remove node s = Some s' →
  ∃ n, heap s !! node = Some n ∧
       (∀ u, prev n ≠ Some u → nxt (heap s') u = nxt (heap s) u) ∧
       (∀ p, is_Some (heap s' !! p) ↔ is_Some (heap s !! p)) ∧
       _head s' = _head s ∧ _tail s' = _tail s ∧
       _cache_mapper s' = _cache_mapper s.
Proof.
  unfold remove. destruct (heap s !! node) as [n|] eqn:Hn; [simpl|done].
  destruct (link (prev n) (next n) (heap s)) as [h'|] eqn:Hlink; [simpl|done].
  intros [= <-]. destruct (link_frame _ _ _ _ Hlink) as [Hfn Hlive].
  exists n. by split_and!.
Qed.

Lemma add_frame node s s' :
  add node s = Some s' →
  (∀ u, u ≠ node → u ≠ _head s → nxt (heap s') u = nxt (heap s) u) ∧
  (∀ p, is_Some (heap s' !! p) ↔ is_Some (heap s !! p)) ∧
  _head s' = _head s ∧ _tail s' = _tail s ∧
  _cache_mapper s' = _cache_mapper s.
Proof.
  unfold add. destruct (heap s !! _head s) as [hd|]; [simpl|done].
  destruct (link (Some node) (next hd) (heap s)) as [h1|] eqn:Hl1; [simpl|done].
  destruct (link (Some (_head s)) (Some node) h1) as [h2|] eqn:Hl2; [simpl|done].
  intros [= <-]. simpl.
  destruct (link_frame _ _ _ _ Hl1) as [Hfn1 Hlive1].
  destruct (link_frame _ _ _ _ Hl2) as [Hfn2 Hlive2].
  split_and!; try done.
  - intros u Hu1 Hu2. rewrite Hfn2, Hfn1; [done| |]; congruence.
  - intros p. by rewrite Hlive2, Hlive1.
Qed.

Lemma rep_tail_notin s l : rep s l → _tail s ∉ _head s :: l.*1.
Proof.
  intros Hrep Hin. pose proof (rep_nodup _ _ Hrep) as Hnd.
  rewrite app_comm_cons in Hnd. apply NoDup_app in Hnd as (_ & Hdisj & _).
  apply (Hdisj _ Hin). by left.
Qed.

(** A node of the list is not the tail sentinel, and neither is the node in
    front of it. *)
Lemma rep_prev s l p :
  rep s l → p ∈ l.*1 →
  p ≠ _tail s ∧ ∃ x, prv (heap s) p = Some x ∧ x ≠ _tail s.
Proof.
  intros Hrep Hin. pose proof (rep_tail_notin s l Hrep) as Htl.
  split; [intros ->; apply Htl; by right|].
  apply list_elem_of_split in Hin as (ps & qs & Hl).
  pose proof (rep_chain _ _ Hrep) as Hc.
  rewrite Hl, <- app_assoc in Hc. simpl in Hc.
  apply chain_app in Hc as [Hc _]. apply chain_snoc in Hc as (_ & _ & Hprv).
  exists (List.last ps (_head s)). split; [done|]. intros Heq.
  pose proof (last_elem_of ps (_head s)) as Hlast. rewrite Heq in Hlast.
  apply Htl. rewrite Hl. apply elem_of_cons in Hlast as [->|Hlast]; [by left|right].
  apply elem_of_app. by left.
Qed.

Lemma rep_tail_prev s l pz (e : K * V) :
  rep s (l ++ [(pz, e)]) → prv (heap s) (_tail s) = Some pz.
Proof.
  intros Hrep. pose proof (rep_chain _ _ Hrep) as Hc.
  rewrite fmap_app in Hc. simpl in Hc. rewrite <- app_assoc in Hc. simpl in Hc.
  apply chain_app in Hc as [_ Hc]. by destruct Hc as (_ & Hc & _).
Qed.

Lemma prv_Some h p n x : h !! p = Some n → prv h p = Some x → prev n = Some x.
Proof. intros Hn. unfold prv. by rewrite Hn. Qed.

Lemma get_closed s l k r s' :
  rep s l → closed s → get k s = Some (r, s') → closed s'.
Proof.
  intros Hrep [Hnx Hsz]. unfold get.
  destruct (_cache_mapper s !! k) as [node|] eqn:Hk; [|by intros [= _ <-]].
  destruct (proj1 (rep_index _ _ Hrep k node) Hk) as [v Hin%ptr_elem_of].
  destruct (rep_prev s l node Hrep Hin) as (Hnode & x & Hprv & Hx).
  destruct (remove node s) as [s1|] eqn:Hrm; [simpl|done].
  destruct (add node s1) as [s2|] eqn:Hadd; [simpl|done].
  destruct (heap s2 !! node) as [n2|]; [simpl|done]. intros [= _ <-].
  destruct (remove_frame _ _ _ Hrm) as (n & Hn & Hfn1 & Hlive1 & Hhd1 & Htl1 & Hmap1).
  destruct (add_frame _ _ _ Hadd) as (Hfn2 & Hlive2 & Hhd2 & Htl2 & Hmap2).
  pose proof (prv_Some _ _ _ _ Hn Hprv) as Hprev.
  pose proof (rep_tail_notin s l Hrep) as Htl.
  split.
  - rewrite Htl2, Htl1, Hfn2, Hfn1; [done| |congruence|].
    + rewrite Hprev. congruence.
    + rewrite Hhd1. intros Heq. apply Htl. rewrite Heq. by left.
  - rewrite Hmap2, Hmap1, <- Hsz. apply same_live_size. intros p.
    by rewrite Hlive2, Hlive1.
Qed.

Lemma evict_closed s l pz kz vz s' :
  rep s (l ++ [(pz, (kz, vz))]) → closed s →
  (tl ← heap s !! _tail s;
   tail_prev ← prev tl;
   s5 ← remove tail_prev s;
   n ← heap s5 !! tail_prev;
   let s6 :=
     match key n with
     | Some k' => with_mapper (delete k' (_cache_mapper s5)) s5
     | None => s5
     end in
   Some (with_heap (delete tail_prev (heap s6)) s6)) = Some s' →
  closed s'.
Proof.
  intros Hrep [Hnx Hsz] Hev.
  destruct (evict_spec s l pz kz vz Hrep) as (s'' & Hev' & Hrep' & _).
  assert (s'' = s') as -> by congruence. clear Hev'.
  pose proof (rep_tail_prev s l pz (kz, vz) Hrep) as Hprv.
  assert (pz ∈ (l ++ [(pz, (kz, vz))]).*1) as Hin.
  { rewrite fmap_app. apply elem_of_app. right. by left. }
  destruct (rep_prev _ _ pz Hrep Hin) as (Hpz & x & Hprvz & Hx).
  destruct (heap s !! _tail s) as [tl|] eqn:Htl; [simpl in Hev|done].
  rewrite (prv_Some _ _ _ _ Htl Hprv) in Hev. simpl in Hev.
  destruct (remove pz s) as [s5|] eqn:Hrm; [simpl in Hev|done].
  destruct (heap s5 !! pz) as [n5|] eqn:Hn5; [simpl in Hev|done].
  destruct (remove_frame _ _ _ Hrm) as (n & Hn & Hfn & Hlive & Hhd5 & Htl5 & Hmap5).
  pose proof (prv_Some _ _ _ _ Hn Hprvz) as Hprev.
  assert (_tail s' = _tail s ∧ heap s' = delete pz (heap s5)) as [Htl' Hh'].
  { injection Hev as <-. by destruct (key n5). }
  split.
  - rewrite Htl', Hh', nxt_delete_ne, Hfn by congruence. done.
  - rewrite Hh', map_size_delete_Some by eauto.
    rewrite (same_live_size _ _ Hlive), Hsz.
    rewrite (rep_size _ _ Hrep), (rep_size _ _ Hrep'), length_app. simpl. lia.
Qed.

Lemma put_closed s l k v s' :
  rep s l → closed s → put k v s = Some s' → closed s'.
Proof.
  intros Hrep [Hnx Hsz] Hput.
  destruct (put_link_new s l k v Hrep)
    as (s1 & s4 & l1 & Hs1 & Hadd & Hrep4 & _ & _ & Hhd4 & Htl4 & Hmap4).
  unfold put in Hput. rewrite Hs1 in Hput. simpl in Hput, Hadd.
  rewrite Hadd in Hput. simpl in Hput.
  pose proof (rep_tail_notin s l Hrep) as Htl.
  destruct (rep_tail_live s l Hrep) as [tl Htll].
  assert (nxt (heap s1) (_tail s) = None ∧ is_Some (heap s1 !! _tail s) ∧
          _head s1 = _head s ∧
          S (size (heap s1)) = (size (<[k := fresh (dom (heap s1))]> (_cache_mapper s)) + 2)%nat)
    as (Hnx1 & Hlive1 & Hhd1 & Hsz1).
  { destruct (_cache_mapper s !! k) as [old|] eqn:Hk.
    - destruct (proj1 (rep_index _ _ Hrep k old) Hk) as [v' Hin%ptr_elem_of].
      destruct (rep_prev s l old Hrep Hin) as (Hold & x & Hprv & Hx).
      destruct (remove old s) as [sr|] eqn:Hrm; [simpl in Hs1|done].
      injection Hs1 as <-. simpl.
      destruct (remove_frame _ _ _ Hrm) as (n & Hn & Hfn & Hlive & Hhdr & _ & _).
      pose proof (prv_Some _ _ _ _ Hn Hprv) as Hprev.
      split_and!.
      + rewrite nxt_delete_ne, Hfn by congruence. done.
      + rewrite lookup_delete_ne by done. apply Hlive. eauto.
      + done.
      + rewrite map_size_insert_Some by eauto.
        rewrite map_size_delete_Some by (apply Hlive; eauto).
        rewrite (same_live_size _ _ Hlive), Hsz. lia.
    - injection Hs1 as <-. split_and!; eauto.
      rewrite map_size_insert_None by done. lia. }
  assert (closed s4) as Hcl4.
  { destruct (add_frame _ _ _ Hadd) as (Hfn & Hlive & _ & _ & _). simpl in *.
    assert (heap s1 !! fresh (dom (heap s1)) = None) as Hnew
      by (apply not_elem_of_dom, is_fresh).
    assert (_tail s ≠ fresh (dom (heap s1))) as Hne.
    { intros Heq. rewrite <- Heq in Hnew. destruct Hlive1 as [? ?]. congruence. }
    split.
    - rewrite Htl4, Hfn, nxt_insert_ne; [done..|].
      rewrite Hhd1. intros Heq. apply Htl. rewrite Heq. by left.
    - rewrite (same_live_size _ _ Hlive), map_size_insert_None by done.
      by rewrite Hmap4. }
  destruct (to_size_t (_capacity s4) <? N.of_nat (size (_cache_mapper s4)));
    [|by injection Hput as <-].
  destruct (exists_last (l := (fresh (dom (heap s1)), (k, v)) :: l1))
    as (l3 & [pz [kz vz]] & Hl3); [done|].
  rewrite Hl3 in Hrep4. by apply (evict_closed s4 l3 pz kz vz s').
Qed.

Lemma LRUCache_closed (capacity : Z) s0 :
  LRUCache capacity = Some s0 → closed s0.
Proof.
  unfold LRUCache.
  set (head := fresh (∅ : gset positive)).
  set (h0 := ({[head := mkNode None None None None]} : gmap positive (Node K V))).
  set (tail := fresh (dom h0)).
  assert (tail ≠ head) as Hne.
  { intros Heq. pose proof (is_fresh (dom h0)) as Hf. fold tail in Hf.
    apply Hf. rewrite Heq. subst h0. rewrite dom_singleton_L. set_solver. }
  destruct (link (Some head) (Some tail) (<[tail:=mkNode None None None None]> h0))
    as [h2|] eqn:Hlink; [simpl|done].
  intros [= <-]. destruct (link_frame _ _ _ _ Hlink) as [Hfn Hlive].
  split; simpl.
  - rewrite Hfn by congruence. unfold nxt. by rewrite lookup_insert_eq.
  - rewrite (same_live_size _ _ Hlive), map_size_insert_None, map_size_empty.
    + subst h0. by rewrite map_size_singleton.
    + subst h0. by rewrite lookup_singleton_ne.
Qed.

Lemma exec_closed (ops : list (op K V)) s l :
  rep s l → closed s →
  ∃ s' l', exec ops s = Some s' ∧ rep s' l' ∧ closed s'.
Proof.
  revert s l. induction ops as [|o ops IH]; intros s l Hrep Hcl.
  - by exists s, l.
  - cbn [exec].
    assert (∃ s1 l1, step o s = Some s1 ∧ rep s1 l1 ∧ closed s1)
      as (s1 & l1 & -> & Hrep1 & Hcl1).
    { destruct o as [k v|k]; simpl.
      - destruct (put_spec s l k v Hrep) as (s1 & l1 & Hput & Hrep1 & _).
        exists s1, l1. split_and!; try done. by apply (put_closed s l k v).
      - destruct (get_spec s l k Hrep) as (s1 & l1 & Hget & Hrep1 & _).
        exists s1, l1. rewrite Hget. split_and!; try done.
        by apply (get_closed s l k _ s1 Hrep Hcl Hget). }
    simpl. by apply (IH s1 l1).
Qed.

(** The loop of the destructor walks the path to its end and empties a store
    that holds the nodes of the path only. *)
Lemma destroy_chain h a ps (fuel : nat) :
  NoDup (a :: ps) → chain h a ps → is_Some (h !! a) →
  nxt h (List.last ps a) = None →
  (∀ p, is_Some (h !! p) → p ∈ a :: ps) →
  (length (a :: ps) ≤ fuel)%nat →
  destroy_loop fuel (Some a) h = Some ∅.
Proof.
  revert a h fuel. induction ps as [|b ps IH]; intros a h fuel Hnd Hc [n Hn] Hlast Hdom Hfuel;
    (destruct fuel as [|fuel]; [simpl in Hfuel; lia|]); cbn [destroy_loop]; rewrite Hn; simpl.
  - simpl in Hlast. unfold nxt in Hlast. rewrite Hn in Hlast. simpl in Hlast.
    rewrite Hlast. simpl.
    assert (delete a h = ∅) as ->; [|by destruct fuel].
    apply map_empty. intros p.
    destruct (decide (p = a)) as [->|Hne]; [by rewrite lookup_delete_eq|].
    rewrite lookup_delete_ne by done.
    destruct (h !! p) eqn:Hp; [|done].
    assert (p ∈ [a]) as ->%list_elem_of_singleton by (apply Hdom; eauto). done.
  - destruct Hc as (Hab & Hba & Hc).
    assert (next n = Some b) as -> by (unfold nxt in Hab; by rewrite Hn in Hab).
    apply NoDup_cons in Hnd as [Ha Hnd].
    assert (∀ u, u ∈ b :: ps → u ≠ a) as Hne by (intros u Hu ->; done).
    apply IH.
    + done.
    + eapply chain_frame; [| |exact Hc].
      * intros u Hu. apply nxt_delete_ne. by apply Hne.
      * intros w Hw. apply prv_delete_ne. apply Hne. by right.
    + rewrite lookup_delete_ne by (apply not_eq_sym, Hne; by left).
      by eapply prv_live.
    + rewrite last_cons in Hlast. rewrite nxt_delete_ne; [done|].
      apply Hne, last_elem_of.
    + intros p [m [Hpa Hm]%lookup_delete_Some].
      assert (p ∈ a :: b :: ps) as [?|?]%elem_of_cons by (apply Hdom; eauto); done.
    + simpl in *. lia.
Qed.

(** The destructor frees every node exactly once and leaves none behind:
    after any sequence of calls the store holds the two sentinels and one
    node per indexed key, and the loop that follows [next] from the head
    sentinel reads live nodes only, stops at the tail sentinel and leaves the
    store empty. *)
Theorem lru_destructor_frees_every_node (capacity : Z) (ops : list (op K V)) :
  ∃ s0 s, LRUCache capacity = Some s0 ∧ exec ops s0 = Some s ∧
          size (heap s) = (size (_cache_mapper s) + 2)%nat ∧
          destroy s = Some ∅ ∧
          ∀ fuel, (size (heap s) ≤ fuel)%nat →
                  destroy_loop fuel (Some (_head s)) (heap s) = Some ∅.
Proof.
  destruct (LRUCache_rep capacity) as (s0 & Hnew & Hrep0 & _).
  destruct (exec_closed ops s0 [] Hrep0 (LRUCache_closed capacity s0 Hnew))
    as (s & l & Hexec & Hrep & [Hnx Hsz]).
  exists s0, s. split; [done|]. split; [done|]. split; [done|].
  pose proof (rep_nodup _ _ Hrep) as Hnd.
  assert (length (_head s :: l.*1 ++ [_tail s]) = size (heap s)) as Hlen.
  { simpl. rewrite length_app, length_fmap, Hsz, (rep_size _ _ Hrep). simpl. lia. }
  assert (∀ u, u ∈ _head s :: l.*1 ++ [_tail s] → is_Some (heap s !! u)) as Hlive.
  { intros u [->|Hu]%elem_of_cons; [by eapply rep_head_live|].
    apply elem_of_app in Hu as [Hu|Hu].
    - apply list_elem_of_fmap in Hu as ([p e] & -> & Hin). by eapply rep_live.
    - apply list_elem_of_singleton in Hu as ->. by eapply rep_tail_live. }
  assert (∀ p, is_Some (heap s !! p) → p ∈ _head s :: l.*1 ++ [_tail s]) as Hdom.
  { assert (list_to_set (_head s :: l.*1 ++ [_tail s]) = dom (heap s)) as Heq.
    { apply set_subseteq_size_eq.
      - intros u Hu%elem_of_list_to_set. by apply elem_of_dom, Hlive.
      - rewrite size_dom, size_list_to_set by done. lia. }
    intros p Hp%elem_of_dom. rewrite <- Heq in Hp.
    by apply elem_of_list_to_set in Hp. }
  assert (∀ fuel, (size (heap s) ≤ fuel)%nat →
                  destroy_loop fuel (Some (_head s)) (heap s) = Some ∅) as Hall.
  { intros fuel Hfuel. apply (destroy_chain _ _ (l.*1 ++ [_tail s])); try done.
    - apply (rep_chain _ _ Hrep).
    - by eapply rep_head_live.
    - by rewrite last_last.
    - lia. }
  split; [by apply Hall|done].
Qed.

End Facts.

(** *** The claims at concrete inputs *)

Lemma lru_evicts_least_recently_used_witness :
  ∃ s0 s : Cache string Z,
    LRUCache 2 = Some s0 ∧
    exec [OpPut "a" 1%Z; OpPut "b" 2%Z; OpGet "a"; OpPut "c" 3%Z] s0 = Some s ∧
    fst <$> get "b" s = Some None ∧
    fst <$> get "a" s = Some (Some 1%Z) ∧
    fst <$> get "c" s = Some (Some 3%Z).
Proof.
  apply (lru_evicts_least_recently_used "a" "b" "c" 1%Z 2%Z 3%Z); discriminate.
Defined.

Lemma lru_retrievable_keys_bounded_witness :
  ∃ s0 : Cache string Z, LRUCache 2 = Some s0 ∧
    ∀ i, ∃ s keys,
      exec (take i [OpPut "a" 1%Z; OpPut "b" 2%Z; OpGet "a"; OpPut "c" 3%Z]) s0 = Some s ∧
      keys = (spec_exec 2 (take i [OpPut "a" 1%Z; OpPut "b" 2%Z; OpGet "a"; OpPut "c" 3%Z]) []).*1 ∧
      NoDup keys ∧ (∀ k, retrievable s k ↔ k ∈ keys) ∧
      size (_cache_mapper s) = length keys ∧
      (Z.of_nat (length keys) ≤ 2)%Z.
Proof.
  apply (lru_retrievable_keys_bounded 2
           [OpPut "a" 1%Z; OpPut "b" 2%Z; OpGet "a"; OpPut "c" 3%Z]).
  lia.
Defined.

Lemma lru_put_then_get_witness :
  ∃ s0 s s1 s2 : Cache string Z,
    LRUCache 1 = Some s0 ∧ exec [OpPut "a" 1%Z; OpGet "b"] s0 = Some s ∧
    put "b" 2%Z s = Some s1 ∧ get "b" s1 = Some (Some 2%Z, s2).
Proof.
  apply (lru_put_then_get 1 [OpPut "a" 1%Z; OpGet "b"] "b" 2%Z); lia.
Defined.

Lemma lru_nothing_evicted_within_capacity_witness :
  ∃ s0 s : Cache string Z,
    LRUCache (-1) = Some s0 ∧
    exec [OpPut "a" 1%Z; OpPut "b" 2%Z; OpPut "c" 3%Z] s0 = Some s ∧
    ∀ k, retrievable s k ↔
         ∃ v, OpPut k v ∈ [OpPut "a" 1%Z; OpPut "b" 2%Z; OpPut "c" 3%Z].
Proof.
  apply (lru_nothing_evicted_within_capacity (-1)
           [OpPut "a" 1%Z; OpPut "b" 2%Z; OpPut "c" 3%Z]).
  vm_compute. discriminate.
Defined.

Lemma lru_put_with_room_keeps_others_witness :
  ∃ (s0 s s1 : Cache string Z) r s2 s3,
    LRUCache 2 = Some s0 ∧ exec [OpPut "a" 1%Z] s0 = Some s ∧
    put "b" 5%Z s = Some s1 ∧
    get "a" s1 = Some (r, s2) ∧ get "a" s = Some (r, s3).
Proof.
  destruct (lru_put_with_room_keeps_others 2 [OpPut "a" 1%Z] "b" "a" 5%Z)
    as (s0 & s & Hnew & Hexec & Hkeep); [lia|discriminate|].
  destruct Hkeep as (s1 & r & s2 & s3 & Hput & Hg1 & Hg).
  - right. vm_compute in Hnew. injection Hnew as <-.
    vm_compute in Hexec. injection Hexec as <-. vm_compute. reflexivity.
  - exists s0, s, s1, r, s2, s3. by split_and!.
Defined.

Lemma lru_recent_key_survives_next_put_witness :
  ∃ (s0 s : Cache string Z),
    LRUCache 2 = Some s0 ∧ exec [OpPut "a" 1%Z; OpPut "b" 2%Z] s0 = Some s ∧
    (∃ s1 s2 s3, put "a" 5%Z s = Some s1 ∧ put "c" 3%Z s1 = Some s2 ∧
                 get "a" s2 = Some (Some 5%Z, s3)) ∧
    (∀ v' s1, get "a" s = Some (Some v', s1) →
       ∃ s2 s3, put "c" 3%Z s1 = Some s2 ∧ get "a" s2 = Some (Some v', s3)).
Proof.
  apply (lru_recent_key_survives_next_put 2 [OpPut "a" 1%Z; OpPut "b" 2%Z]
           "a" "c" 5%Z 3%Z).
  - lia.
  - discriminate.
Defined.

End LruFacts.
